(** * QIIME 2 action invocation engine

    A shallow embedding of [qiime2/sdk/action.py] and of
    [qiime2/sdk/context/base.py] and [qiime2/sdk/context/parallel.py],
    together with the properties of the engine that follow from that code.

    Python objects become records and inductive types, [dict]s become
    association lists in insertion order, and code that raises, warns or
    touches the shared cache runs in the monad [M] (state plus exceptions).
    Classes and helpers that live in other modules of the package are type
    classes of operations, or are modelled from the specification where a
    property needs their behaviour. *)

From Stdlib Require Import List String Ascii ZArith Bool Arith Lia.
From Stdlib Require Import DecimalString Sorted Permutation.

Set Warnings "-register-all".
Import ListNotations.

Local Open Scope string_scope.
Local Open Scope list_scope.

(* ================================================================== *)
(** * Fragments of the Python runtime *)
(* ================================================================== *)

(** The exceptions the engine raises or lets through. *)
Inductive exn : Type :=
| ValueError (msg : string)
| TypeError (msg : string)
| KeyError (msg : string)
| IndexError (msg : string)
| AttributeError (msg : string)
| RuntimeError (msg : string).

(** The result of evaluating an expression: a value or a raised exception. *)
Inductive outcome (A : Type) : Type :=
| Return (a : A)
| Raise (e : exn).
Arguments Return {A} a.
Arguments Raise {A} e.

Definition obind {A B} (m : outcome A) (k : A -> outcome B) : outcome B :=
  match m with
  | Return a => k a
  | Raise e => Raise e
  end.

(** ["%d" % n] for a machine-independent Python [int]. *)
Definition str_of_nat (n : nat) : string := NilZero.string_of_uint (Nat.to_uint n).
Definition str_of_Z (z : Z) : string := NilZero.string_of_int (Z.to_int z).

(** [s.replace(old, new)] for single characters. *)
Fixpoint replace (old new : ascii) (s : string) : string :=
  match s with
  | EmptyString => EmptyString
  | String c s' => String (if Ascii.eqb c old then new else c) (replace old new s')
  end.

(** Keys of the dictionaries that hold collections: [str] or [int]. *)
Inductive PyKey : Type :=
| KStr (s : string)
| KInt (z : Z).

(** [str(key)] *)
Definition str (k : PyKey) : string :=
  match k with
  | KStr s => s
  | KInt z => str_of_Z z
  end.

Definition PyKey_eqb (a b : PyKey) : bool :=
  match a, b with
  | KStr s, KStr t => String.eqb s t
  | KInt x, KInt y => Z.eqb x y
  | _, _ => false
  end.

(** ** Ordered dictionaries

    A [dict] is kept as the list of its items in insertion order.
    [d[k] = v] overwrites in place when the key is present and appends
    otherwise; [d[k]] raises [KeyError] on a missing key. *)
Section Dict.
Context {K V : Type} (eqb : K -> K -> bool).

Fixpoint dict_get (k : K) (d : list (K * V)) : option V :=
  match d with
  | [] => None
  | (k', v) :: d' => if eqb k k' then Some v else dict_get k d'
  end.

Fixpoint dict_set (k : K) (v : V) (d : list (K * V)) : list (K * V) :=
  match d with
  | [] => [(k, v)]
  | (k', v') :: d' =>
      if eqb k k' then (k', v) :: d' else (k', v') :: dict_set k v d'
  end.

Definition dict_mem (k : K) (d : list (K * V)) : bool :=
  match dict_get k d with Some _ => true | None => false end.

Definition dict_getitem (k : K) (name : string) (d : list (K * V)) : outcome V :=
  match dict_get k d with
  | Some v => Return v
  | None => Raise (KeyError name)
  end.
End Dict.

(** [l[0]] *)
Definition getitem0 {A} (l : list A) : outcome A :=
  match l with
  | [] => Raise (IndexError "list index out of range")
  | x :: _ => Return x
  end.

(** [enumerate(l)] *)
Fixpoint enumerate_from {A} (i : nat) (l : list A) : list (nat * A) :=
  match l with
  | [] => []
  | x :: l' => (i, x) :: enumerate_from (S i) l'
  end.
Definition enumerate {A} (l : list A) : list (nat * A) := enumerate_from 0 l.

(* ================================================================== *)
(** * Data model *)
(* ================================================================== *)

(** [Action.type] of the three kinds of action. *)
Inductive ActionKind : Type := Method | Visualizer | Pipeline.

Definition kind_name (k : ActionKind) : string :=
  match k with
  | Method => "method"
  | Visualizer => "visualizer"
  | Pipeline => "pipeline"
  end.

(** The [execution_ctx] dictionaries built by the contexts:
    [{'type': ...}] with an optional ['parsl_type'] entry. *)
Record ExecutionCtx : Type := mkExecutionCtx {
  exec_type : string;
  parsl_type : option string
}.

Definition synchronous_ctx : ExecutionCtx := mkExecutionCtx "synchronous" None.

(** Modelled from the spec: the provenance capture object of section 6,
    "tagged with (action kind, plugin id, action id, execution-kind
    descriptor), with a settable output-name field".  Its class lives in
    [qiime2.core.archive], outside the files embedded here. *)
Record Provenance : Type := mkProvenance {
  prov_pipeline_capture : bool;   (* PipelineProvenanceCapture or ActionProvenanceCapture *)
  prov_type : string;
  prov_plugin_id : string;
  prov_action_id : string;
  prov_execution_ctx : ExecutionCtx;
  prov_output_name : option string
}.

(** What [Proxy._future_] holds: a future of the task executor or, after
    [_map_arg], the index of that future in the side list. *)
Inductive FutureRef : Type :=
| FutureObj (task : nat)
| FutureIdx (i : nat).

(** Modelled from the spec: a deferred handle, "a placeholder holding an index
    into a side-list of not-yet-resolved computations plus a selector
    describing which output/sub-element it denotes".  The class is
    [qiime2.sdk.proxy.Proxy]; the code embedded here reads [_future_] and
    [_selector_] and rebuilds proxies from the two. *)
Record Proxy : Type := mkProxy {
  _future_ : FutureRef;
  _selector_ : string
}.

(** [qiime2.core.cache.IndexedCollectionElement]: the key under which the
    index records one element of a cached collection. *)
Record IndexedCollectionElement : Type := mkElem {
  item_name : string;
  idx : Z;
  total : Z
}.


(** ** Collaborators

    The semantic type lattice ([qiime2.core.type]) and the helper that
    synthesizes the name of a collection element ([qiime2.core.util]) are
    used by the engine through these operations only. *)
Class TypeSystem : Type := {
  QType : Type;
  qtype_name : QType -> string;             (* [qiime_type.name] *)
  is_collection_type : QType -> bool;
  qtype_le : QType -> QType -> bool         (* [a <= b] *)
}.

Class Naming : Type := {
  CollectionName : Type;
  create_collection_name : string -> PyKey -> nat -> nat -> CollectionName
}.

Section Engine.

Context {TS : TypeSystem} {NM : Naming}.

(** The name an alias is given: a declared output name, or the
    synthesized name of a collection element. *)
Inductive OutputName : Type :=
| Plain (name : string)
| Synthesized (name : CollectionName).

(** A materialised [Result] (an [Artifact] or a [Visualization]). *)
Record Result : Type := mkResult {
  uuid : nat;
  rtype : QType;
  in_process_pool : bool;   (* backed by the data of the process pool *)
  label : option (OutputName * Provenance)
}.

(** Python values that flow through the engine. *)
Inductive value : Type :=
| VNone
| VBool (b : bool)
| VInt (z : Z)
| VStr (s : string)
| VCallable (name : string)
| VResult (r : Result)
| VProxy (p : Proxy)
| VCollection (c : list (PyKey * value))     (* qiime2.sdk.ResultCollection *)
| VList (l : list value)
| VDict (d : list (PyKey * value))
| VTuple (l : list value).

Definition keywords : Type := list (string * value).

(** [qiime2.sdk.Results]: output names paired with output values. *)
Definition Results : Type := list (string * value).

(** Modelled from the spec: the invocation fingerprint of section 3, a
    "hashable pair of (plugin:action identity, ordered sequence of
    single-entry {parameter-name: value} bindings)".  The class
    [qiime2.core.type.HashableInvocation] is not among the embedded files. *)
Record HashableInvocation : Type := mkInvocation {
  plugin_action : string;
  arguments : list (list (string * value))
}.

(** One entry of the index of the persistent pool: per output name either
    the key of one stored result, or the recorded elements of a
    collection. *)
Inductive CachedOutput : Type :=
| CachedResult (key : nat)
| CachedCollection (elems : list (IndexedCollectionElement * nat)).

Record NamedPool : Type := mkNamedPool {
  np_data : list Result;
  np_index : list (HashableInvocation * list (string * CachedOutput))
}.

Record Cache : Type := mkCache {
  process_pool : list Result;
  named_pool : option NamedPool
}.

(** [PARALLEL_CONFIG]: the loaded configuration (the executors by label
    and class name) and the plugin -> action -> executor routing table. *)
Record ParallelConfig : Type := mkParallelConfig {
  parallel_config : option (list (string * string));
  config_action_executor_mapping : list (string * list (string * string))
}.

(** What the engine does to the world outside a call frame. *)
Inductive Event : Type :=
| EWarn (category msg : string)
| ELockAcquire
| ELockRelease
| ECreateIndex
| EProcessPoolSave (r : Result)
| ENamedPoolSave (r : Result)
| ENamedPoolLoad (key : nat)
| ESubmit (executor : string) (action : string) (execution_ctx : ExecutionCtx)
          (mapped_args : list value) (mapped_kwargs : keywords)
          (inputs : list FutureRef)
| EResolve (p : Proxy)
| EProbe (plugin_action : string).   (* the index of the persistent pool is consulted *)

(** Modelled from the spec: what a submitted computation resolves to, the
    [Results] of a leaf action: per output name a materialised result or a
    collection of materialised results. *)
Inductive Materialised : Type :=
| MResult (r : Result)
| MCollection (c : list (PyKey * Result)).

Definition value_of (m : Materialised) : value :=
  match m with
  | MResult r => VResult r
  | MCollection c => VCollection (map (fun kr => (fst kr, VResult (snd kr))) c)
  end.

Record World : Type := mkWorld {
  cache : Cache;                               (* get_cache() *)
  PARALLEL_CONFIG : ParallelConfig;
  futures : list (outcome (list (string * Materialised)));
  log : list Event
}.

(** ** The monad of engine code *)
Definition M (A : Type) : Type := World -> outcome A * World.

Definition ret {A} (a : A) : M A := fun w => (Return a, w).
Definition raise {A} (e : exn) : M A := fun w => (Raise e, w).
Definition bind {A B} (m : M A) (k : A -> M B) : M B :=
  fun w => match m w with
           | (Return a, w') => k a w'
           | (Raise e, w') => (Raise e, w')
           end.
Definition lift {A} (o : outcome A) : M A := fun w => (o, w).
Definition get_world : M World := fun w => (Return w, w).
Definition emit (e : Event) : M unit :=
  fun w => (Return tt, mkWorld (cache w) (PARALLEL_CONFIG w) (futures w) (log w ++ [e])).
Definition set_cache (c : Cache) : M unit :=
  fun w => (Return tt, mkWorld c (PARALLEL_CONFIG w) (futures w) (log w)).

(** [try: m except KeyError: handler] *)
Definition except_KeyError {A} (m : M A) (handler : M A) : M A :=
  fun w => match m w with
           | (Raise (KeyError _), w') => handler w'
           | r => r
           end.

(** [with self.cache.lock: body]: the lock is released on every exit. *)
Definition with_lock {A} (body : M A) : M A :=
  fun w => match bind (emit ELockAcquire) (fun _ => body) w with
           | (r, w') => (r, snd (emit ELockRelease w'))
           end.

(** [warnings.warn(msg)] *)
Definition warn (msg : string) : M unit := emit (EWarn "UserWarning" msg).

Fixpoint mapM {A B} (f : A -> M B) (l : list A) : M (list B) :=
  match l with
  | [] => ret []
  | x :: l' => bind (f x) (fun y => bind (mapM f l') (fun ys => ret (y :: ys)))
  end.

Notation "x <- m ;; k" := (bind m (fun x => k))
  (at level 61, m at next level, right associativity).
Notation "m ;;; k" := (bind m (fun _ => k))
  (at level 61, right associativity).

(** ** Signatures, actions and contexts *)

(** The signature collaborator ([qiime2.core.type.signature]): the declared
    outputs in order, and the operations the engine calls on it.  The
    engine passes its context to [coerce_given_outputs] for the sake of the
    shared cache, which here is part of the world. *)
Record Signature : Type := mkSignature {
  outputs : list (string * QType);
  collate_inputs : list value -> keywords -> outcome keywords;
  check_types : keywords -> outcome unit;
  solve_output : keywords -> outcome (list (string * QType));
  coerce_user_input : keywords -> outcome keywords;
  transform_and_add_callable_args_to_prov :
    Provenance -> keywords -> outcome (Provenance * keywords);
  coerce_given_outputs :
    list value -> list (string * QType) -> Provenance -> M (list value)
}.

Record Action : Type := mkAction {
  type : ActionKind;
  plugin_id : string;
  id : string;
  name : string;
  deprecated : bool;
  signature : Signature
}.

Inductive ContextClass : Type :=
| BaseContext
| AsynchronousContext
| ParallelContext.

(** A [Context] object.  The two mappings are the attributes a
    [ParallelContext] adds; [self.cache] is the one shared cache of the
    world. *)
Inductive Context : Type := mkContext {
  context_class : ContextClass;
  action_obj : option Action;
  _parent : option Context;
  action_executor_mapping : list (string * list (string * string));
  executor_name_type_mapping : option (list (string * string))
}.

(** How a computation is entered: a Method with its view arguments only, a
    Visualizer with [output_dir], a Pipeline with the context. *)
Inductive CallFrame : Type :=
| MethodFrame
| VisualizerFrame (output_dir : string)
| PipelineFrame (ctx : Context).

(** The remaining collaborators: the computation behind each action
    ([self._callable]), membership of a collection in a semantic type
    ([collection in qiime_type]), the registry of the plugin manager,
    [Visualization._from_data_dir], and what a deferred handle or a
    [ResultCollection] answers to [_alias], [collection] and [type]. *)
Class Plugins : Type := {
  _callable : Action -> CallFrame -> keywords -> M value;
  collection_in : list (PyKey * value) -> QType -> bool;
  plugins : list (string * list (string * Action));
  _from_data_dir : string -> Provenance -> Result;
  proxy_alias : Proxy -> OutputName -> Provenance -> Proxy;
  proxy_collection : Proxy -> outcome (list (PyKey * value));
  proxy_type : Proxy -> outcome QType;
  collection_type : list (PyKey * value) -> outcome QType
}.

Context {PL : Plugins}.

(** ** Equality of values ([==])

    Results compare by uuid and [bool] is a subtype of [int].  Lists and
    tuples compare item by item in order.  Dictionaries compare as
    mappings, whatever the insertion order: the same number of items and,
    for every key of the one, an equal value under that key in the
    other. *)
Definition FutureRef_eqb (a b : FutureRef) : bool :=
  match a, b with
  | FutureObj x, FutureObj y => Nat.eqb x y
  | FutureIdx x, FutureIdx y => Nat.eqb x y
  | _, _ => false
  end.

Definition Proxy_eqb (p q : Proxy) : bool :=
  FutureRef_eqb (_future_ p) (_future_ q) && String.eqb (_selector_ p) (_selector_ q).

Fixpoint value_eqb (a b : value) {struct a} : bool :=
  let fix list_eqb (l m : list value) {struct l} : bool :=
    match l, m with
    | [], [] => true
    | x :: l', y :: m' => value_eqb x y && list_eqb l' m'
    | _, _ => false
    end in
  let fix items_in (l m : list (PyKey * value)) {struct l} : bool :=
    match l with
    | [] => true
    | (k, x) :: l' =>
        match dict_get PyKey_eqb k m with
        | Some y => value_eqb x y
        | None => false
        end
        && items_in l' m
    end in
  match a, b with
  | VNone, VNone => true
  | VBool x, VBool y => Bool.eqb x y
  | VInt x, VInt y => Z.eqb x y
  | VBool x, VInt y => Z.eqb (if x then 1 else 0) y
  | VInt x, VBool y => Z.eqb x (if y then 1 else 0)
  | VStr x, VStr y => String.eqb x y
  | VCallable x, VCallable y => String.eqb x y
  | VResult x, VResult y => Nat.eqb (uuid x) (uuid y)
  | VProxy x, VProxy y => Proxy_eqb x y
  | VCollection x, VCollection y =>
      Nat.eqb (List.length x) (List.length y) && items_in x y
  | VList x, VList y => list_eqb x y
  | VDict x, VDict y => Nat.eqb (List.length x) (List.length y) && items_in x y
  | VTuple x, VTuple y => list_eqb x y
  | _, _ => false
  end.

Fixpoint binding_eqb (l m : list (string * value)) : bool :=
  match l, m with
  | [], [] => true
  | (k, x) :: l', (k', y) :: m' =>
      String.eqb k k' && value_eqb x y && binding_eqb l' m'
  | _, _ => false
  end.

Fixpoint arguments_eqb (l m : list (list (string * value))) : bool :=
  match l, m with
  | [], [] => true
  | x :: l', y :: m' => binding_eqb x y && arguments_eqb l' m'
  | _, _ => false
  end.

(** Modelled from the spec: two fingerprints are equal when the identity
    strings are equal and the bindings are equal, in order
    ([HashableInvocation.__eq__]). *)
Definition invocation_eqb (a b : HashableInvocation) : bool :=
  String.eqb (plugin_action a) (plugin_action b)
  && arguments_eqb (arguments a) (arguments b).

Definition elem_eqb (a b : IndexedCollectionElement) : bool :=
  String.eqb (item_name a) (item_name b)
  && Z.eqb (idx a) (idx b) && Z.eqb (total a) (total b).

(* ================================================================== *)
(** * qiime2/sdk/context/base.py *)
(* ================================================================== *)

(** ** The cache as the contexts use it *)

(** [self.cache.named_pool], for code that has not tested it against
    [None] first. *)
Definition the_named_pool : M NamedPool :=
  w <- get_world ;;
  match named_pool (cache w) with
  | Some pool => ret pool
  | None => raise (AttributeError "'NoneType' object has no attribute")
  end.

(** [self.action_obj], for attribute access on it. *)
Definition the_action_obj (self : Context) : M Action :=
  match action_obj self with
  | Some a => ret a
  | None => raise (AttributeError "'NoneType' object has no attribute")
  end.

(** Modelled from the spec: [named_pool.create_index()], the "one-time
    cache-index construction" owned by the root context.  The pool class is
    in [qiime2.core.cache]; the index it builds is the [np_index] of the
    pool. *)
Definition create_index : M unit := emit ECreateIndex.

(** Modelled from the spec: [process_pool.save(ref)] "registers a value in
    the process-local pool" and returns "the process-local handle". *)
Definition process_pool_save (ref : Result) : M Result :=
  w <- get_world ;;
  let new_ref := mkResult (uuid ref) (rtype ref) true (label ref) in
  set_cache (mkCache (process_pool (cache w) ++ [new_ref]) (named_pool (cache w))) ;;;
  emit (EProcessPoolSave new_ref) ;;;
  ret new_ref.

(** Modelled from the spec: [named_pool.save(ref)] mirrors a value "into the
    persistent pool". *)
Definition named_pool_save (ref : Result) : M unit :=
  w <- get_world ;;
  pool <- the_named_pool ;;
  set_cache (mkCache (process_pool (cache w))
                     (Some (mkNamedPool (np_data pool ++ [ref]) (np_index pool)))) ;;;
  emit (ENamedPoolSave ref).

Fixpoint find_uuid (key : nat) (data : list Result) : option Result :=
  match data with
  | [] => None
  | r :: data' => if Nat.eqb (uuid r) key then Some r else find_uuid key data'
  end.

(** Modelled from the spec: [named_pool.load(key)] reconstructs a result
    "purely from stored artifacts"; a key whose data is gone is the
    [KeyError] that [_check_cache] expects. *)
Definition named_pool_load (key : nat) : M Result :=
  pool <- the_named_pool ;;
  emit (ENamedPoolLoad key) ;;;
  match find_uuid key (np_data pool) with
  | Some r => ret r
  | None => raise (KeyError "named_pool.load")
  end.

(** ** [_validate_collection] *)

Definition incomplete_collection_msg : string :=
  "Incomplete collection found when recycling, collection will be remade".

Definition _validate_collection
    (collection_order : list IndexedCollectionElement) : M bool :=
  agree <- mapM (fun elem =>
                   first <- lift (getitem0 collection_order) ;;
                   ret (Z.eqb (total elem) (total first)))
                collection_order ;;
  invalid <- (if negb (forallb (fun b => b) agree) then ret true
              else first <- lift (getitem0 collection_order) ;;
                   ret (negb (Z.eqb (Z.of_nat (List.length collection_order))
                                    (total first)))) ;;
  if (invalid : bool) then warn incomplete_collection_msg ;;; ret false
  else ret true.

(** ** [Context.__init__] *)

Definition only_parentless_msg : string :=
  "Only parentless contexts can be instantiated without an action_obj".

Definition Context__init__ (cls : ContextClass)
    (action_obj : option Action) (parent : option Context) : M Context :=
  match parent with
  | Some _ => ret tt                       (* self.cache = parent.cache *)
  | None =>
      (* self.cache = get_cache() *)
      with_lock (w <- get_world ;;
                 match named_pool (cache w) with
                 | Some _ => create_index
                 | None => ret tt
                 end)
  end ;;;
  match action_obj, parent with
  | None, Some _ => raise (ValueError only_parentless_msg)
  | _, _ => ret (mkContext cls action_obj parent [] None)
  end.

(** ** [Context.add_reference] *)

Definition add_reference (self : Context) (ref : Result) : M Result :=
  with_lock (
    new_ref <- process_pool_save ref ;;
    w <- get_world ;;
    match named_pool (cache w) with
    | Some _ => named_pool_save new_ref
    | None => ret tt
    end ;;;
    ret new_ref).

(** ** [Context._load_cache] *)

(** [collection_order.sort(key=lambda x: x.idx)], a stable sort. *)
Fixpoint insert_by_idx (x : IndexedCollectionElement)
    (l : list IndexedCollectionElement) : list IndexedCollectionElement :=
  match l with
  | [] => [x]
  | y :: l' =>
      if Z.leb (idx x) (idx y) then x :: y :: l' else y :: insert_by_idx x l'
  end.

Definition sort_by_idx (l : list IndexedCollectionElement)
    : list IndexedCollectionElement :=
  fold_right insert_by_idx [] l.

(** The loop over the sorted elements of one cached collection. *)
Fixpoint load_elements (collection_order : list IndexedCollectionElement)
    (cached_collection : list (IndexedCollectionElement * nat))
    (loaded_collection : list (PyKey * value)) : M (list (PyKey * value)) :=
  match collection_order with
  | [] => ret loaded_collection
  | elem_info :: rest =>
      elem <- lift (dict_getitem elem_eqb elem_info (item_name elem_info)
                                 cached_collection) ;;
      loaded_elem <- named_pool_load elem ;;
      load_elements rest cached_collection
        (dict_set PyKey_eqb (KStr (item_name elem_info)) (VResult loaded_elem)
                  loaded_collection)
  end.

(** The loop over the declared outputs; [None] is the early [return None]. *)
Fixpoint load_outputs (declared : list (string * QType))
    (cached_outputs : list (string * CachedOutput))
    (loaded_outputs : Results) : M (option Results) :=
  match declared with
  | [] => ret (Some loaded_outputs)
  | (name, _type) :: rest =>
      if is_collection_type _type then
        cached <- lift (dict_getitem String.eqb name name cached_outputs) ;;
        cached_collection <-
          match cached with
          | CachedCollection c => ret c
          | CachedResult _ => raise (AttributeError "keys")
          end ;;
        let collection_order := map fst cached_collection in
        valid <- _validate_collection collection_order ;;
        if negb valid then ret None
        else
          loaded_collection <-
            load_elements (sort_by_idx collection_order) cached_collection [] ;;
          load_outputs rest cached_outputs
            (dict_set String.eqb name (VCollection loaded_collection)
                      loaded_outputs)
      else
        cached <- lift (dict_getitem String.eqb name name cached_outputs) ;;
        output <-
          match cached with
          | CachedResult key => ret key
          | CachedCollection _ => raise (TypeError "unhashable type: 'dict'")
          end ;;
        loaded <- named_pool_load output ;;
        load_outputs rest cached_outputs
          (dict_set String.eqb name (VResult loaded) loaded_outputs)
  end.

Definition _load_cache (self : Context) (invocation : HashableInvocation)
    : M (option Results) :=
  pool <- the_named_pool ;;
  cached_outputs <-
    lift (dict_getitem invocation_eqb invocation (plugin_action invocation)
                       (np_index pool)) ;;
  action <- the_action_obj self ;;
  load_outputs (outputs (signature action)) cached_outputs [].

(** ** [Context._check_cache] *)

(** The fingerprint [_check_cache] builds before it probes the index:
    lines 100 to 116. *)
Definition make_invocation (action : Action) (callable_args : keywords)
    : HashableInvocation :=
  let plugin := replace "_" "-" (plugin_id action) in
  let plugin_action := (plugin ++ ":" ++ id action)%string in
  let arguments := map (fun kv => [kv]) callable_args in
  mkInvocation plugin_action arguments.

Definition _check_cache_invocation (self : Context)
    (args : list value) (kwargs : keywords) : M HashableInvocation :=
  action <- the_action_obj self ;;
  collated_inputs <- lift (collate_inputs (signature action) args kwargs) ;;
  callable_args <- lift (coerce_user_input (signature action) collated_inputs) ;;
  ret (make_invocation action callable_args).

Definition _check_cache (self : Context) (args : list value) (kwargs : keywords)
    : M (option Results) :=
  invocation <- _check_cache_invocation self args kwargs ;;
  pool <- the_named_pool ;;
  emit (EProbe (plugin_action invocation)) ;;;
  if dict_mem invocation_eqb invocation (np_index pool) then
    except_KeyError (_load_cache self invocation) (ret None)
  else ret None.

(* ================================================================== *)
(** * qiime2/sdk/action.py *)
(* ================================================================== *)

(** ** What the engine asks of results, handles and collections *)

(** Modelled from the spec: [tuplize] of [qiime2.core.util] makes "sure we
    have an iterable even if there was only one output". *)
Definition tuplize (x : value) : list value :=
  match x with
  | VTuple l => l
  | _ => [x]
  end.

(** Modelled from the spec: [ResultCollection(output)] for a [dict] or a
    [list], "an ordered mapping of element key -> Result"; a list is keyed
    by the positions of its elements. *)
Definition ResultCollection (output : value) : value :=
  match output with
  | VDict d => VCollection d
  | VList l =>
      VCollection (map (fun iv => (KStr (str_of_nat (fst iv)), snd iv)) (enumerate l))
  | _ => output
  end.

(** Modelled from the spec: forcing a deferred handle blocks on the
    computation it indexes and selects the output its selector denotes. *)
Definition Proxy_result (p : Proxy) : M value :=
  emit (EResolve p) ;;;
  match _future_ p with
  | FutureObj task =>
      w <- get_world ;;
      match nth_error (futures w) task with
      | Some (Return results) =>
          match dict_get String.eqb (_selector_ p) results with
          | Some m => ret (value_of m)
          | None => raise (AttributeError (_selector_ p))
          end
      | Some (Raise e) => raise e
      | None => raise (RuntimeError "future was never submitted")
      end
  | FutureIdx _ => raise (AttributeError "'int' object has no attribute 'result'")
  end.

(** [x.result()]: a result and a collection answer with themselves, a
    deferred handle blocks. *)
Definition result (x : value) : M value :=
  match x with
  | VResult r => ret (VResult r)
  | VCollection c => ret (VCollection c)
  | VProxy p => Proxy_result p
  | _ => raise (AttributeError "result")
  end.

(** [isinstance(x, qiime2.sdk.IResult)] *)
Definition is_IResult (x : value) : bool :=
  match x with
  | VResult _ | VProxy _ => true
  | _ => false
  end.

(** Modelled from the spec: an alias is "relabeling of an existing result
    under new provenance", "preserving the underlying data identity
    (relabeling, not copying)". *)
Definition Result_alias (r : Result) (name : OutputName) (provenance : Provenance)
    : Result :=
  mkResult (uuid r) (rtype r) (in_process_pool r) (Some (name, provenance)).

(** Modelled from the spec: [x._alias(name, provenance, ctx)].  The class
    of results is in [qiime2.sdk.result].  For a pipeline "outputs are
    relabeled (aliased) under the pipeline's own provenance" and "results
    are registered into the Cache": the alias of a result is handed to
    [ctx.add_reference], which is why the pools end up holding "the
    pipeline alias of artifact" (the note above [add_reference]), and the
    caller gets the handle of the pool.  What a deferred handle answers is
    the [proxy_alias] of the collaborators. *)
Definition _alias (x : value) (name : OutputName) (provenance : Provenance)
    (ctx : Context) : M value :=
  match x with
  | VResult r =>
      alias <- add_reference ctx (Result_alias r name provenance) ;;
      ret (VResult alias)
  | VProxy p => ret (VProxy (proxy_alias p name provenance))
  | _ => raise (AttributeError "_alias")
  end.

(** [x.collection] *)
Definition collection_of (x : value) : M (list (PyKey * value)) :=
  match x with
  | VCollection c => ret c
  | VProxy p => lift (proxy_collection p)
  | _ => raise (AttributeError "collection")
  end.

(** [x.type] *)
Definition type_of (x : value) : M QType :=
  match x with
  | VResult r => ret (rtype r)
  | VProxy p => lift (proxy_type p)
  | VCollection c => lift (collection_type c)
  | _ => raise (AttributeError "type")
  end.

(** ** [_coerce_pipeline_outputs] *)

Definition force_elements (c : list (PyKey * value)) : M (list (PyKey * value)) :=
  mapM (fun kv => forced <- result (snd kv) ;; ret (fst kv, forced)) c.

Definition coerce_pipeline_output (ctx : Context) (output : value) : M value :=
  let output :=
    match output with
    | VDict _ | VList _ => ResultCollection output
    | _ => output
    end in
  match _parent ctx, output with
  | Some _, _ => ret output
  | None, VNone => ret output
  | None, _ =>
      output <- result output ;;
      match output with
      | VCollection c => forced <- force_elements c ;; ret (VCollection forced)
      | _ => ret output
      end
  end.

Definition _coerce_pipeline_outputs (ctx : Context) (outputs : list value)
    : M (list value) :=
  mapM (coerce_pipeline_output ctx) outputs.

(** ** The three executors *)

Definition output_views_msg (n m : nat) : string :=
  ("Number of output views must match number of output semantic types: "
   ++ str_of_nat n ++ " != " ++ str_of_nat m)%string.

Definition outputs_msg (n m : nat) : string :=
  ("Number of outputs must match number of output semantic types: "
   ++ str_of_nat n ++ " != " ++ str_of_nat m)%string.

Definition callable_outputs_msg (n m : nat) : string :=
  ("Number of callable outputs must match number of outputs defined in signature: "
   ++ str_of_nat n ++ " != " ++ str_of_nat m)%string.

Definition Method_callable_executor_ (self : Action) (ctx : Context)
    (view_args : keywords) (output_types : list (string * QType))
    (provenance : Provenance) : M (list value) :=
  output_views <- _callable self MethodFrame view_args ;;
  let output_views := tuplize output_views in
  if negb (List.length output_views =? List.length output_types)%nat then
    raise (TypeError (output_views_msg (List.length output_views)
                                       (List.length output_types)))
  else
    coerce_given_outputs (signature self) output_views output_types provenance.

Definition with_output_name (provenance : Provenance) (name : string) : Provenance :=
  mkProvenance (prov_pipeline_capture provenance) (prov_type provenance)
    (prov_plugin_id provenance) (prov_action_id provenance)
    (prov_execution_ctx provenance) (Some name).

Definition Visualizer_callable_executor_ (self : Action) (ctx : Context)
    (view_args : keywords) (output_types : list (string * QType))
    (provenance : Provenance) : M (list value) :=
  let temp_dir := "qiime2-temp-" in
  ret_val <- _callable self (VisualizerFrame temp_dir) view_args ;;
  match ret_val with
  | VNone =>
      let provenance := with_output_name provenance "visualization" in
      let viz := _from_data_dir temp_dir provenance in
      viz <- add_reference ctx viz ;;
      ret [VResult viz]
  | _ =>
      raise (TypeError
        "Visualizer %r should not return anything. Received %r as a return value.")
  end.

Definition not_result_msg : string :=
  "Pipelines must return `Result` objects, not %s".

(** The loop that checks every returned value against the result contract. *)
Fixpoint check_results (outputs : list value) : M unit :=
  match outputs with
  | [] => ret tt
  | output :: rest =>
      match output with
      | VCollection c =>
          if forallb (fun kv => is_IResult (snd kv)) c then check_results rest
          else raise (TypeError not_result_msg)
      | _ =>
          if is_IResult output then check_results rest
          else raise (TypeError not_result_msg)
      end
  end.

(** The inner loop of lines 479 to 485: one alias per element, stored
    under [str(key)]. *)
Fixpoint alias_elements (ctx : Context) (name : string) (size : nat)
    (provenance : Provenance)
    (items : list (nat * (PyKey * value)))
    (aliased_output : list (PyKey * value)) : M (list (PyKey * value)) :=
  match items with
  | [] => ret aliased_output
  | (idx, (key, value)) :: rest =>
      let collection_name := create_collection_name name key idx size in
      aliased_result <- _alias value (Synthesized collection_name) provenance ctx ;;
      alias_elements ctx name size provenance rest
        (dict_set PyKey_eqb (KStr (str key)) aliased_result aliased_output)
  end.

(** The body of the loop of lines 473 to 496 for one output. *)
Definition alias_output (ctx : Context) (provenance : Provenance) (output : value)
    (name : string) (spec : QType) : M value :=
  is_collection <-
    (if String.eqb (qtype_name spec) "Collection" then
       c <- collection_of output ;; ret (collection_in c spec)
     else ret false) ;;
  if (is_collection : bool) then
    c <- collection_of output ;;
    let size := List.length c in
    aliased_output <- alias_elements ctx name size provenance (enumerate c) [] ;;
    ret (VCollection aliased_output)
  else
    output_type <- type_of output ;;
    if qtype_le output_type spec then _alias output (Plain name) provenance ctx
    else raise (TypeError "Expected output type %r, received %r").

Fixpoint alias_outputs (ctx : Context) (provenance : Provenance)
    (zipped : list (value * (string * QType))) : M (list value) :=
  match zipped with
  | [] => ret []
  | (output, (name, spec)) :: rest =>
      aliased <- alias_output ctx provenance output name spec ;;
      results <- alias_outputs ctx provenance rest ;;
      ret (aliased :: results)
  end.

(** [self.signature.outputs] *)
Definition declared_outputs (self : Action) : list (string * QType) :=
  outputs (signature self).

Definition Pipeline_callable_executor_ (self : Action) (ctx : Context)
    (view_args : keywords) (output_types : list (string * QType))
    (provenance : Provenance) : M (list value) :=
  outputs <- _callable self (PipelineFrame ctx) view_args ;;
  let outputs := tuplize outputs in
  outputs <- _coerce_pipeline_outputs ctx outputs ;;
  if negb (List.length outputs =? List.length output_types)%nat then
    raise (TypeError (outputs_msg (List.length outputs) (List.length output_types)))
  else
    check_results outputs ;;;
    results <- alias_outputs ctx provenance (combine outputs output_types) ;;
    if negb (List.length results =? List.length (declared_outputs self))%nat then
      raise (ValueError (callable_outputs_msg (List.length results)
                                              (List.length (declared_outputs self))))
    else ret results.

(** ** [Action._bind] *)

Definition _callable_executor_ (self : Action) (ctx : Context)
    (view_args : keywords) (output_types : list (string * QType))
    (provenance : Provenance) : M (list value) :=
  match type self with
  | Method => Method_callable_executor_ self ctx view_args output_types provenance
  | Visualizer => Visualizer_callable_executor_ self ctx view_args output_types provenance
  | Pipeline => Pipeline_callable_executor_ self ctx view_args output_types provenance
  end.

Definition kind_title (k : ActionKind) : string :=
  match k with
  | Method => "Method"
  | Visualizer => "Visualizer"
  | Pipeline => "Pipeline"
  end.

Definition _build_deprecation_message (self : Action) : string :=
  ("This " ++ kind_title (type self)
   ++ " is deprecated and will be removed in a future version of this plugin.")%string.

(** [self._ProvCaptureCls(self.type, self.plugin_id, self.id, execution_ctx)] *)
Definition _ProvCaptureCls (self : Action) (execution_ctx : ExecutionCtx) : Provenance :=
  mkProvenance (match type self with Pipeline => true | _ => false end)
    (kind_name (type self)) (plugin_id self) (id self) execution_ctx None.

(** [qiime2.sdk.Results(names, values)] *)
Definition make_Results (names : list string) (values : list value) : Results :=
  combine names values.

(** The function [_bind] decorates; [args[0]] is the function whose
    signature the decorator copied. *)
Definition bound_callable (self : Action) (context_factory : M Context)
    (execution_ctx : ExecutionCtx) (args : list value) (kwargs : keywords)
    : M Results :=
  let args := tl args in
  ctx <- context_factory ;;
  let provenance := _ProvCaptureCls self execution_ctx in
  (if deprecated self
   then emit (EWarn "FutureWarning" (_build_deprecation_message self))
   else ret tt) ;;;
  collated_inputs <- lift (collate_inputs (signature self) args kwargs) ;;
  lift (check_types (signature self) collated_inputs) ;;;
  output_types <- lift (solve_output (signature self) collated_inputs) ;;
  callable_args <- lift (coerce_user_input (signature self) collated_inputs) ;;
  prov_args <- lift (transform_and_add_callable_args_to_prov
                       (signature self) provenance callable_args) ;;
  let provenance := fst prov_args in
  let callable_args := snd prov_args in
  outputs <- _callable_executor_ self ctx callable_args output_types provenance ;;
  if negb (List.length outputs =? List.length (declared_outputs self))%nat then
    raise (ValueError (callable_outputs_msg (List.length outputs)
                                            (List.length (declared_outputs self))))
  else
    ret (make_Results (map fst (declared_outputs self)) outputs).

(** [decorator.decorator(wrapper, ...)]: the decorated function passes the
    function it was built from as first argument. *)
Definition _rewrite_wrapper_signature {A} (self : Action)
    (wrapper : list value -> keywords -> M A) : list value -> keywords -> M A :=
  fun args kwargs => wrapper (VCallable (id self) :: args) kwargs.

Definition _bind (self : Action) (context_factory : M Context)
    (execution_ctx : ExecutionCtx) : list value -> keywords -> M Results :=
  _rewrite_wrapper_signature self (bound_callable self context_factory execution_ctx).

(** [Action._callable_action_wrapper]: the synchronous entry point. *)
Definition _callable_action_wrapper (self : Action)
    : list value -> keywords -> M Results :=
  _bind self (Context__init__ BaseContext (Some self) None) synchronous_ctx.

(* ================================================================== *)
(** * qiime2/sdk/context/base.py, continued *)
(* ================================================================== *)

Definition Context_dispatch_ (self : Context) (args : list value) (kwargs : keywords)
    : M Results :=
  action <- the_action_obj self ;;
  _bind action (ret self) synchronous_ctx args kwargs.

(** [if named_pool is not None and (cached_results := ...)]: the probe
    result counts when it is truthy, a non-empty [Results] ([Results] is a
    tuple). *)
Definition Context_callable_action_ (self : Context) (args : list value)
    (kwargs : keywords) : M Results :=
  let args := tl args in
  w <- get_world ;;
  cached_results <-
    match named_pool (cache w) with
    | Some _ => _check_cache self args kwargs
    | None => ret None
    end ;;
  match cached_results with
  | Some (r :: rs) => ret (r :: rs)
  | _ => Context_dispatch_ self args kwargs
  end.

(* ================================================================== *)
(** * qiime2/sdk/context/parallel.py *)
(* ================================================================== *)

(** [isinstance(x, Proxy)] *)
Definition is_Proxy (x : value) : bool :=
  match x with
  | VProxy _ => true
  | _ => false
  end.

(** [_map_arg(arg, futures)]; the list [futures] it appends to is passed
    through. *)
Fixpoint _map_arg (arg : value) (futures : list FutureRef) {struct arg}
    : value * list FutureRef :=
  let fix map_list (l : list value) (futures : list FutureRef) {struct l} :=
    match l with
    | [] => ([], futures)
    | proxy :: l' =>
        let (mapped, futures) := _map_arg proxy futures in
        let (rest, futures) := map_list l' futures in
        (mapped :: rest, futures)
    end in
  let fix map_items (d : list (PyKey * value)) (futures : list FutureRef) {struct d} :=
    match d with
    | [] => ([], futures)
    | (key, proxy) :: d' =>
        let (mapped, futures) := _map_arg proxy futures in
        let (rest, futures) := map_items d' futures in
        ((key, mapped) :: rest, futures)
    end in
  match arg with
  | VProxy p =>
      let futures := futures ++ [_future_ p] in
      (VProxy (mkProxy (FutureIdx (List.length futures - 1)) (_selector_ p)), futures)
  | VList l => let (mapped, futures) := map_list l futures in (VList mapped, futures)
  | VDict d => let (mapped, futures) := map_items d futures in (VDict mapped, futures)
  | _ => (arg, futures)
  end.

(** [_unmap_arg(arg, inputs)]: [inputs] holds what the futures resolved to. *)
Fixpoint _unmap_arg (arg : value) (inputs : list (list (string * Materialised)))
    {struct arg} : outcome value :=
  let fix unmap_list (l : list value) {struct l} : outcome (list value) :=
    match l with
    | [] => Return []
    | proxy :: l' =>
        obind (_unmap_arg proxy inputs) (fun unmapped =>
        obind (unmap_list l') (fun rest => Return (unmapped :: rest)))
    end in
  let fix unmap_items (d : list (PyKey * value)) {struct d}
      : outcome (list (PyKey * value)) :=
    match d with
    | [] => Return []
    | (key, proxy) :: d' =>
        obind (_unmap_arg proxy inputs) (fun unmapped =>
        obind (unmap_items d') (fun rest => Return ((key, unmapped) :: rest)))
    end in
  match arg with
  | VProxy p =>
      match _future_ p with
      | FutureIdx i =>
          match nth_error inputs i with
          | Some resolved_result =>
              match dict_get String.eqb (_selector_ p) resolved_result with
              | Some m => Return (value_of m)
              | None => Raise (AttributeError (_selector_ p))
              end
          | None => Raise (IndexError "list index out of range")
          end
      | FutureObj _ => Raise (TypeError "list indices must be integers or slices")
      end
  | VList l => obind (unmap_list l) (fun unmapped => Return (VList unmapped))
  | VDict d => obind (unmap_items d) (fun unmapped => Return (VDict unmapped))
  | _ => Return arg
  end.

Definition _contains_proxies (args : list value) (kwargs : keywords) : bool :=
  existsb is_Proxy args || existsb (fun kv => is_Proxy (snd kv)) kwargs.

(** The result of a parallel dispatch: the [Results] of a pipeline that ran
    inline, or [ProxyResults(future, output_types)]. *)
Inductive Dispatched : Type :=
| DResults (results : Results)
| DProxyResults (future : FutureRef) (output_types : list (string * QType)).

(** [{v.label: v.__class__.__name__ for v in executors}] *)
Definition executor_types (executors : list (string * string))
    : list (string * string) :=
  fold_left (fun d v => dict_set String.eqb (fst v) (snd v) d) executors [].

Definition ParallelContext__init__ (action_obj : option Action)
    (parent : option Context) : M Context :=
  self <- Context__init__ ParallelContext action_obj parent ;;
  match parent with
  | Some p =>
      ret (mkContext ParallelContext action_obj parent
             (action_executor_mapping p) (executor_name_type_mapping p))
  | None =>
      w <- get_world ;;
      ret (mkContext ParallelContext action_obj parent
             (config_action_executor_mapping (PARALLEL_CONFIG w))
             (match parallel_config (PARALLEL_CONFIG w) with
              | None => None
              | Some executors => Some (executor_types executors)
              end))
  end.

(** The two loops that map positional and keyword arguments. *)
Fixpoint map_args (args : list value) (futures : list FutureRef)
    : list value * list FutureRef :=
  match args with
  | [] => ([], futures)
  | arg :: rest =>
      let (mapped, futures) := _map_arg arg futures in
      let (mapped_args, futures) := map_args rest futures in
      (mapped :: mapped_args, futures)
  end.

Fixpoint map_kwargs (kwargs : keywords) (futures : list FutureRef)
    (mapped_kwargs : list (string * value))
    : list (string * value) * list FutureRef :=
  match kwargs with
  | [] => (mapped_kwargs, futures)
  | (key, value) :: rest =>
      let (mapped, futures) := _map_arg value futures in
      map_kwargs rest futures (dict_set String.eqb key mapped mapped_kwargs)
  end.

Fixpoint unmap_args (mapped_args : list value)
    (inputs : list (list (string * Materialised))) : outcome (list value) :=
  match mapped_args with
  | [] => Return []
  | arg :: rest =>
      obind (_unmap_arg arg inputs) (fun unmapped =>
      obind (unmap_args rest inputs) (fun args => Return (unmapped :: args)))
  end.

Fixpoint unmap_kwargs (mapped_kwargs : keywords)
    (inputs : list (list (string * Materialised)))
    (kwargs : list (string * value)) : outcome (list (string * value)) :=
  match mapped_kwargs with
  | [] => Return kwargs
  | (key, value) :: rest =>
      obind (_unmap_arg value inputs) (fun unmapped =>
      unmap_kwargs rest inputs (dict_set String.eqb key unmapped kwargs))
  end.

(** The closure a submitted app runs once its inputs have resolved. *)
Definition _run_parsl_action (self ctx : Context) (execution_ctx : ExecutionCtx)
    (mapped_args : list value) (mapped_kwargs : keywords)
    (inputs : list (list (string * Materialised))) : M Results :=
  args <- lift (unmap_args mapped_args inputs) ;;
  kwargs <- lift (unmap_kwargs mapped_kwargs inputs []) ;;
  action <- the_action_obj ctx ;;
  _bind action (ret self) execution_ctx args kwargs.

(** The number of apps submitted so far: the identity of the next future. *)
Fixpoint count_submitted (log : list Event) : nat :=
  match log with
  | [] => 0
  | ESubmit _ _ _ _ _ _ :: log' => S (count_submitted log')
  | _ :: log' => count_submitted log'
  end.

(** [python_app(executors=[executor])(_run_parsl_action)(...)] *)
Definition python_app (executor : string) (self : Context)
    (execution_ctx : ExecutionCtx) (mapped_args : list value)
    (mapped_kwargs : keywords) (inputs : list FutureRef) : M FutureRef :=
  w <- get_world ;;
  action <- the_action_obj self ;;
  emit (ESubmit executor (name action) execution_ctx mapped_args mapped_kwargs inputs) ;;;
  ret (FutureObj (count_submitted (log w))).

Definition no_config_msg : string :=
  "You must load a parallel config before running in parallel.".

Definition ParallelContext_dispatch_ (self : Context) (args : list value)
    (kwargs : keywords) : M Dispatched :=
  let args :=
    match args with
    | VCallable _ :: rest => rest
    | _ => args
    end in
  let (mapped_args, futures) := map_args args [] in
  let (mapped_kwargs, futures) := map_kwargs kwargs futures [] in
  action <- the_action_obj self ;;
  let executor :=
    match dict_get String.eqb (plugin_id action) (action_executor_mapping self) with
    | Some routes =>
        match dict_get String.eqb (id action) routes with
        | Some executor => executor
        | None => "default"
        end
    | None => "default"
    end in
  match type action with
  | Pipeline =>
      let execution_ctx := mkExecutionCtx "parsl" (Some "DFK") in
      results <- _bind action (ret self) execution_ctx args kwargs ;;
      ret (DResults results)
  | _ =>
      w <- get_world ;;
      match parallel_config (PARALLEL_CONFIG w) with
      | None => raise (ValueError no_config_msg)
      | Some _ =>
          executor_type <-
            match executor_name_type_mapping self with
            | None => raise (TypeError "'NoneType' object is not subscriptable")
            | Some mapping => lift (dict_getitem String.eqb executor executor mapping)
            end ;;
          let execution_ctx := mkExecutionCtx "parsl" (Some executor_type) in
          future <- python_app executor self execution_ctx
                               mapped_args mapped_kwargs futures ;;
          collated_input <- lift (collate_inputs (signature action) args kwargs) ;;
          output_types <- lift (solve_output (signature action) collated_input) ;;
          ret (DProxyResults future output_types)
      end
  end.

Definition ParallelContext_callable_action_ (self : Context) (args : list value)
    (kwargs : keywords) : M Dispatched :=
  let args := tl args in
  w <- get_world ;;
  cached_results <-
    match named_pool (cache w) with
    | Some _ =>
        if negb (_contains_proxies args kwargs) then _check_cache self args kwargs
        else ret None
    | None => ret None
    end ;;
  match cached_results with
  | Some (r :: rs) => ret (DResults (r :: rs))
  | _ => ParallelContext_dispatch_ self args kwargs
  end.

(** [Action._get_parsl_wrapper]: the parallel entry point of an action. *)
Definition parsl_wrapper (self : Action) (args : list value) (kwargs : keywords)
    : M Dispatched :=
  match type self with
  | Pipeline =>
      ctx <- ParallelContext__init__ (Some self) None ;;
      ParallelContext_dispatch_ ctx args kwargs
  | _ => raise (ValueError "Only pipelines may be run in parallel")
  end.

(** ** [Context.get_action] *)

Definition get_action (self : Context) (plugin : string) (action : string)
    : M (list value -> keywords -> M Dispatched) :=
  let plugin := replace "_" "-" plugin in
  match dict_get String.eqb plugin plugins with
  | None => raise (ValueError "A plugin named %r could not be found.")
  | Some actions =>
      match dict_get String.eqb action actions with
      | None => raise (ValueError "An action named %r was not found for plugin %r")
      | Some new_action_obj =>
          match context_class self with
          | ParallelContext =>
              child_context <- ParallelContext__init__ (Some new_action_obj) (Some self) ;;
              ret (_rewrite_wrapper_signature new_action_obj
                     (ParallelContext_callable_action_ child_context))
          | cls =>
              child_context <- Context__init__ cls (Some new_action_obj) (Some self) ;;
              ret (_rewrite_wrapper_signature new_action_obj
                     (fun args kwargs =>
                        results <- Context_callable_action_ child_context args kwargs ;;
                        ret (DResults results)))
          end
      end
  end.

(* ================================================================== *)
(** * Vocabulary of the properties *)
(* ================================================================== *)

(** A value handed to a caller is fully resolved when it is not a deferred
    handle and, if it is a collection, none of its elements is one. *)
Definition fully_resolved (x : value) : bool :=
  negb (is_Proxy x)
  && match x with
     | VCollection c => forallb (fun kv => negb (is_Proxy (snd kv))) c
     | _ => true
     end.

(** What [_coerce_pipeline_outputs] does to an output before it looks at
    the context: a [dict] or a [list] becomes a [ResultCollection]. *)
Definition as_collection (output : value) : value :=
  match output with
  | VDict _ | VList _ => ResultCollection output
  | _ => output
  end.

(** The handle of the pool for the alias of a result: the result under its
    new label. *)
Definition alias_handle (r : Result) (name : OutputName) (provenance : Provenance)
    : Result :=
  mkResult (uuid r) (rtype r) true (Some (name, provenance)).

(** What [_alias] hands back for a result or for a deferred handle. *)
Definition aliased (x : value) (name : OutputName) (provenance : Provenance) : value :=
  match x with
  | VResult r => VResult (alias_handle r name provenance)
  | VProxy p => VProxy (proxy_alias p name provenance)
  | _ => x
  end.

(** The collection lines 476 to 486 build when no two keys share a string
    form: element [idx] of the input, aliased under its synthesized name
    and stored under [str(key)]. *)
Definition aliased_collection (name : string) (provenance : Provenance)
    (c : list (PyKey * value)) : list (PyKey * value) :=
  map (fun item =>
         let idx := fst item in
         let key := fst (snd item) in
         let value := snd (snd item) in
         (KStr (str key),
          aliased value
            (Synthesized (create_collection_name name key idx (List.length c)))
            provenance))
      (enumerate c).

(* ================================================================== *)
(** * More of the engine *)
(* ================================================================== *)

(** ** [Context.make_artifact] *)

(** [qiime2.sdk.Artifact.import_data], which builds the artifact that
    [make_artifact] registers. *)
Class Importer : Type := {
  import_data : QType -> value -> option string -> outcome Result
}.

Context {IM : Importer}.

Definition make_artifact (self : Context) (type : QType) (view : value)
    (view_type : option string) : M Result :=
  artifact <- lift (import_data type view view_type) ;;
  add_reference self artifact ;;;
  ret artifact.

(** ** The argument trees of [_map_arg] and [_unmap_arg] *)

(** The comprehension of the [dict] branch of [_map_arg]. *)
Fixpoint map_dict (d : list (PyKey * value)) (futures : list FutureRef)
    : list (PyKey * value) * list FutureRef :=
  match d with
  | [] => ([], futures)
  | (key, proxy) :: d' =>
      let (mapped, futures) := _map_arg proxy futures in
      let (rest, futures) := map_dict d' futures in
      ((key, mapped) :: rest, futures)
  end.

(** The comprehension of the [dict] branch of [_unmap_arg]. *)
Fixpoint unmap_dict (d : list (PyKey * value))
    (inputs : list (list (string * Materialised)))
    : outcome (list (PyKey * value)) :=
  match d with
  | [] => Return []
  | (key, proxy) :: d' =>
      obind (_unmap_arg proxy inputs) (fun unmapped =>
      obind (unmap_dict d' inputs) (fun rest => Return ((key, unmapped) :: rest)))
  end.

(** The deferred handles [_map_arg] finds in an argument, in the order in
    which it meets them: the argument itself, or the handles in the
    elements of a [list] and in the values of a [dict]. *)
Fixpoint handles (arg : value) {struct arg} : list Proxy :=
  let fix in_list (l : list value) {struct l} : list Proxy :=
    match l with
    | [] => []
    | x :: l' => handles x ++ in_list l'
    end in
  let fix in_dict (d : list (PyKey * value)) {struct d} : list Proxy :=
    match d with
    | [] => []
    | (_, x) :: d' => handles x ++ in_dict d'
    end in
  match arg with
  | VProxy p => [p]
  | VList l => in_list l
  | VDict d => in_dict d
  | _ => []
  end.

Definition handles_of_list (l : list value) : list Proxy :=
  flat_map handles l.

Definition handles_of_dict {K} (d : list (K * value)) : list Proxy :=
  flat_map (fun kv => handles (snd kv)) d.

(** The handles [_map_arg] puts in the place of [ps] when the side list
    already holds [n] futures. *)
Fixpoint renumbered (n : nat) (ps : list Proxy) : list Proxy :=
  match ps with
  | [] => []
  | p :: ps' => mkProxy (FutureIdx n) (_selector_ p) :: renumbered (S n) ps'
  end.

(** Modelled from the spec: [proxy._get_element_(results)], the selector
    of a deferred handle "describing which output/sub-element it denotes";
    the class is in [qiime2.sdk.proxy].  This is the selection [_unmap_arg]
    makes on the resolved results. *)
Definition _get_element_ (p : Proxy) (results : list (string * Materialised))
    : outcome value :=
  match dict_get String.eqb (_selector_ p) results with
  | Some m => Return (value_of m)
  | None => Raise (AttributeError (_selector_ p))
  end.

(** An argument with every handle replaced by the element it selects from
    what its own future resolved to, [resolve] giving the results of each
    future. *)
Fixpoint resolved (resolve : FutureRef -> list (string * Materialised))
    (arg : value) {struct arg} : outcome value :=
  let fix in_list (l : list value) {struct l} : outcome (list value) :=
    match l with
    | [] => Return []
    | x :: l' =>
        obind (resolved resolve x) (fun y =>
        obind (in_list l') (fun ys => Return (y :: ys)))
    end in
  let fix in_dict (d : list (PyKey * value)) {struct d}
      : outcome (list (PyKey * value)) :=
    match d with
    | [] => Return []
    | (key, x) :: d' =>
        obind (resolved resolve x) (fun y =>
        obind (in_dict d') (fun ys => Return ((key, y) :: ys)))
    end in
  match arg with
  | VProxy p => _get_element_ p (resolve (_future_ p))
  | VList l => obind (in_list l) (fun ys => Return (VList ys))
  | VDict d => obind (in_dict d) (fun ys => Return (VDict ys))
  | _ => Return arg
  end.

Fixpoint resolved_list (resolve : FutureRef -> list (string * Materialised))
    (l : list value) : outcome (list value) :=
  match l with
  | [] => Return []
  | x :: l' =>
      obind (resolved resolve x) (fun y =>
      obind (resolved_list resolve l') (fun ys => Return (y :: ys)))
  end.

Fixpoint resolved_dict {K} (resolve : FutureRef -> list (string * Materialised))
    (d : list (K * value)) : outcome (list (K * value)) :=
  match d with
  | [] => Return []
  | (key, x) :: d' =>
      obind (resolved resolve x) (fun y =>
      obind (resolved_dict resolve d') (fun ys => Return ((key, y) :: ys)))
  end.

(** ** Entry points and vocabulary of the further properties *)

(** [Action.parallel]: [parsl_wrapper] with the rewritten signature. *)
Definition _dynamic_parsl (self : Action) : list value -> keywords -> M Dispatched :=
  _rewrite_wrapper_signature self (parsl_wrapper self).

(** The world after some more events. *)
Definition with_events (w : World) (events : list Event) : World :=
  mkWorld (cache w) (PARALLEL_CONFIG w) (futures w) (log w ++ events).

(** The events of a parentless [Context.__init__]. *)
Definition root_events (w : World) : list Event :=
  [ELockAcquire]
  ++ match named_pool (cache w) with
     | Some _ => [ECreateIndex]
     | None => []
     end
  ++ [ELockRelease].

(** The root context [ParallelContext(self)] builds in world [w]. *)
Definition parallel_root (self : Action) (w : World) : Context :=
  mkContext ParallelContext (Some self) None
    (config_action_executor_mapping (PARALLEL_CONFIG w))
    (match parallel_config (PARALLEL_CONFIG w) with
     | None => None
     | Some executors => Some (executor_types executors)
     end).

(** Lines 116 and 117 of [_dispatch_]: a callable first argument is
    dropped. *)
Definition without_callable (args : list value) : list value :=
  match args with
  | VCallable _ :: rest => rest
  | _ => args
  end.

(** Lines 139 to 143 of [_dispatch_]: the executor an action is routed to. *)
Definition routed_executor (self : Context) (action : Action) : string :=
  match dict_get String.eqb (plugin_id action) (action_executor_mapping self) with
  | Some routes =>
      match dict_get String.eqb (id action) routes with
      | Some executor => executor
      | None => "default"
      end
  | None => "default"
  end.

(** The child context [get_action] builds for an action. *)
Definition child_context (self : Context) (new_action_obj : Action) : Context :=
  match context_class self with
  | ParallelContext =>
      mkContext ParallelContext (Some new_action_obj) (Some self)
        (action_executor_mapping self) (executor_name_type_mapping self)
  | cls => mkContext cls (Some new_action_obj) (Some self) [] None
  end.

(** The callable [get_action] returns for a child context. *)
Definition child_callable (self : Context) (new_action_obj : Action)
    : list value -> keywords -> M Dispatched :=
  match context_class self with
  | ParallelContext =>
      _rewrite_wrapper_signature new_action_obj
        (ParallelContext_callable_action_ (child_context self new_action_obj))
  | _ =>
      _rewrite_wrapper_signature new_action_obj
        (fun args kwargs =>
           results <- Context_callable_action_ (child_context self new_action_obj)
                        args kwargs ;;
           ret (DResults results))
  end.

(** ** Vocabulary of the cache properties *)

(** The key the index records for a plain output. *)
Definition cached_key (cached_outputs : list (string * CachedOutput)) (name : string)
    : option nat :=
  match dict_get String.eqb name cached_outputs with
  | Some (CachedResult key) => Some key
  | _ => None
  end.

(** The test [_validate_collection] makes on a list of recorded elements
    that is not empty. *)
Definition complete (collection_order : list IndexedCollectionElement) : bool :=
  match collection_order with
  | [] => false
  | first :: _ =>
      forallb (fun elem => Z.eqb (total elem) (total first)) collection_order
      && Z.eqb (Z.of_nat (List.length collection_order)) (total first)
  end.

(** [d[k] = v] for each item of a list in turn. *)
Definition dict_update {K V} (eqb : K -> K -> bool) (items d : list (K * V))
    : list (K * V) :=
  fold_left (fun acc kv => dict_set eqb (fst kv) (snd kv) acc) items d.

(** ** Vocabulary of the properties of a bound call *)

(** The type management of [bound_callable], lines 205 to 215: the solved
    output types, and the provenance and the arguments the computation is
    called with, or the first error. *)
Definition type_management (self : Action) (provenance : Provenance)
    (args : list value) (kwargs : keywords)
    : outcome (list (string * QType) * (Provenance * keywords)) :=
  obind (collate_inputs (signature self) args kwargs) (fun collated_inputs =>
  obind (check_types (signature self) collated_inputs) (fun _ =>
  obind (solve_output (signature self) collated_inputs) (fun output_types =>
  obind (coerce_user_input (signature self) collated_inputs) (fun callable_args =>
  obind (transform_and_add_callable_args_to_prov (signature self) provenance
           callable_args) (fun prov_args =>
  Return (output_types, prov_args)))))).

(** The world after [add_reference] has registered a handle. *)
Definition registered (new_ref : Result) (w : World) : World :=
  mkWorld
    (mkCache (process_pool (cache w) ++ [new_ref])
       (match named_pool (cache w) with
        | Some pool => Some (mkNamedPool (np_data pool ++ [new_ref]) (np_index pool))
        | None => None
        end))
    (PARALLEL_CONFIG w) (futures w)
    (log w ++ [ELockAcquire; EProcessPoolSave new_ref]
           ++ match named_pool (cache w) with
              | Some _ => [ENamedPoolSave new_ref]
              | None => []
              end
           ++ [ELockRelease]).

(** The world after the aliases among some values, results that is, have
    been registered one after the other. *)
Fixpoint registered_aliases (xs : list value) (w : World) : World :=
  match xs with
  | [] => w
  | VResult r :: xs' => registered_aliases xs' (registered r w)
  | _ :: xs' => registered_aliases xs' w
  end.

(** A result or a deferred handle that is an alias under the given
    provenance and under one of the given names. *)
Definition relabelled (provenance : Provenance) (named : OutputName -> Prop)
    (x : value) : Prop :=
  match x with
  | VResult r => exists name, named name /\ label r = Some (name, provenance)
  | VProxy p => exists name q, named name /\ p = proxy_alias q name provenance
  | _ => False
  end.

(** What a Pipeline hands back for the output [name]: an alias under that
    name, or a collection of aliases under synthesized names. *)
Definition pipeline_alias (provenance : Provenance) (name : string) (x : value) : Prop :=
  match x with
  | VCollection c =>
      Forall (fun kv =>
                relabelled provenance (fun n => exists cn, n = Synthesized cn) (snd kv))
             c
  | _ => relabelled provenance (fun n => n = Plain name) x
  end.

(** A returned value that fails the test of lines 459 to 465: neither a
    result or a deferred handle, nor a collection of these only. *)
Definition breaks_contract (output : value) : bool :=
  match output with
  | VCollection c => negb (forallb (fun kv => is_IResult (snd kv)) c)
  | _ => negb (is_IResult output)
  end.

(** ** What the properties of [_map_arg] and [_unmap_arg] say of one argument *)

(** [_map_arg] appends the futures of the handles of the argument and
    renumbers the handles. *)
Definition map_arg_appends (arg : value) : Prop :=
  forall futures : list FutureRef,
    snd (_map_arg arg futures) = futures ++ map _future_ (handles arg)
    /\ handles (fst (_map_arg arg futures))
       = renumbered (List.length futures) (handles arg).


(** [_unmap_arg] on the mapped argument and the resolved side list gives
    the resolved argument. *)
Definition unmap_inverts_map (resolve : FutureRef -> list (string * Materialised))
    (arg : value) : Prop :=
  forall futures more : list FutureRef,
    _unmap_arg (fst (_map_arg arg futures))
               (map resolve (snd (_map_arg arg futures) ++ more))
    = resolved resolve arg.

(** ** Vocabulary of the root boundary *)

(** What [result()] of a deferred handle gives in a world, the event
    apart: the output its selector denotes among the results its
    computation resolved to, as [Proxy_result] reads it. *)
Definition resolution (w : World) (p : Proxy) : outcome value :=
  match _future_ p with
  | FutureObj task =>
      match nth_error (futures w) task with
      | Some (Return results) =>
          match dict_get String.eqb (_selector_ p) results with
          | Some m => Return (value_of m)
          | None => Raise (AttributeError (_selector_ p))
          end
      | Some (Raise e) => Raise e
      | None => Raise (RuntimeError "future was never submitted")
      end
  | FutureIdx _ => Raise (AttributeError "'int' object has no attribute 'result'")
  end.

(** A value [result()] answers for in a world: a result, a collection, or
    a deferred handle whose computation has resolved to results that hold
    what it selects. *)
Definition answers (w : World) (x : value) : bool :=
  match x with
  | VResult _ | VCollection _ => true
  | VProxy p =>
      match resolution w p with
      | Return _ => true
      | Raise _ => false
      end
  | _ => false
  end.

(** A value with the deferred handle it is, if it is one, replaced by what
    the handle resolved to. *)
Definition settle (w : World) (x : value) : value :=
  match x with
  | VProxy p =>
      match resolution w p with
      | Return v => v
      | Raise _ => x
      end
  | _ => x
  end.

(** An output the root boundary can force: [None], a value [result()]
    answers for, or a collection (a [dict] or a [list] as well) of such
    values. *)
Definition forceable (w : World) (output : value) : bool :=
  match as_collection output with
  | VNone => true
  | VCollection c => forallb (fun kv => answers w (snd kv)) c
  | y => answers w y
  end.

(** The output as the spec wants it handed to the caller: a deferred handle
    replaced by what it resolved to, and in a collection every element that
    is a deferred handle. *)
Definition forced (w : World) (output : value) : value :=
  match as_collection output with
  | VCollection c => VCollection (map (fun kv => (fst kv, settle w (snd kv))) c)
  | y => settle w y
  end.

(** The deferred handles forced in an output, in the order of forcing. *)
Definition forced_handles (output : value) : list Proxy :=
  match as_collection output with
  | VProxy p => [p]
  | VCollection c =>
      flat_map (fun kv => match snd kv with VProxy p => [p] | _ => [] end) c
  | _ => []
  end.

End Engine.

(* ================================================================== *)
(** * A small plugin to run the engine on *)
(* ================================================================== *)

(** Types of the plugin: one semantic type, collections of it, and the type
    of visualizations. *)
Inductive DemoType : Type :=
| Seqs
| CollectionOf (t : DemoType)
| VisualizationType.

Fixpoint DemoType_eqb (a b : DemoType) : bool :=
  match a, b with
  | Seqs, Seqs => true
  | CollectionOf x, CollectionOf y => DemoType_eqb x y
  | VisualizationType, VisualizationType => true
  | _, _ => false
  end.

Definition demo_types : TypeSystem := {|
  QType := DemoType;
  qtype_name := fun t =>
    match t with
    | Seqs => "Seqs"
    | CollectionOf _ => "Collection"
    | VisualizationType => "Visualization"
    end;
  is_collection_type := fun t =>
    match t with
    | CollectionOf _ => true
    | _ => false
    end;
  qtype_le := DemoType_eqb
|}.

(** Element names in the style of [[name, key, "idx/size"]]. *)
Definition demo_naming : Naming := {|
  CollectionName := string * PyKey * string;
  create_collection_name := fun name key idx size =>
    (name, key, (str_of_nat (idx + 1) ++ "/" ++ str_of_nat size)%string)
|}.

Definition demo_value : Type := @value demo_types demo_naming.
Definition demo_result (n : nat) : @Result demo_types demo_naming :=
  @mkResult demo_types demo_naming n Seqs false None.

(** A signature that names positional arguments [x0, x1, ...], accepts
    every input and passes values through unchanged. *)
Definition demo_collate (args : list demo_value) (kwargs : list (string * demo_value))
    : outcome (list (string * demo_value)) :=
  Return (map (fun iv => (("x" ++ str_of_nat (fst iv))%string, snd iv)) (enumerate args)
          ++ kwargs).

Definition demo_signature (outs : list (string * DemoType))
    : @Signature demo_types demo_naming :=
  @mkSignature demo_types demo_naming
    outs
    demo_collate
    (fun _ => Return tt)
    (fun _ => Return outs)
    (fun inputs => Return inputs)
    (fun prov inputs => Return (prov, inputs))
    (fun views _ _ => ret views).

Definition demo_action (kind : ActionKind) (name : string)
    (outs : list (string * DemoType)) : @Action demo_types demo_naming :=
  @mkAction demo_types demo_naming kind "demo_plugin" name name false
    (demo_signature outs).

(** A Method that declares two outputs and computes one value. *)
Definition one_of_two := demo_action Method "one_of_two" [("a", Seqs); ("b", Seqs)].
(** A Method that declares one output and computes it. *)
Definition just_one := demo_action Method "just_one" [("a", Seqs)].
(** A Visualizer. *)
Definition plot := demo_action Visualizer "plot" [("visualization", VisualizationType)].
(** Pipelines that return one collection: three string keys; the keys [1]
    and ['1']; a deferred handle next to a list that holds one. *)
Definition split3 := demo_action Pipeline "split3" [("parts", CollectionOf Seqs)].
Definition mixed_keys := demo_action Pipeline "mixed_keys" [("parts", CollectionOf Seqs)].
Definition deferred := demo_action Pipeline "deferred"
  [("a", Seqs); ("parts", CollectionOf Seqs)].
(** A Method that returns a collection. *)
Definition regroup := demo_action Method "regroup" [("parts", CollectionOf Seqs)].

Definition demo_callable (action : @Action demo_types demo_naming)
    (frame : @CallFrame demo_types demo_naming)
    (view_args : list (string * demo_value)) : @M demo_types demo_naming demo_value :=
  if String.eqb (id action) "one_of_two" then ret (VResult (demo_result 1))
  else if String.eqb (id action) "just_one" then ret (VResult (demo_result 1))
  else if String.eqb (id action) "split3" then
    ret (VDict [(KStr "a", VResult (demo_result 1));
                (KStr "b", VResult (demo_result 2));
                (KStr "c", VResult (demo_result 3))])
  else if String.eqb (id action) "mixed_keys" then
    ret (VDict [(KInt 1, VResult (demo_result 1));
                (KStr "1", VResult (demo_result 2))])
  else if String.eqb (id action) "deferred" then
    ret (VTuple [VProxy (mkProxy (FutureObj 0) "a");
                 VList [VProxy (mkProxy (FutureObj 0) "a"); VResult (demo_result 7)]])
  else ret VNone.

Definition demo_plugins : @Plugins demo_types demo_naming :=
  @Build_Plugins demo_types demo_naming
    demo_callable
    (fun c t =>
       match t, c with
       | CollectionOf _, _ :: _ => true
       | _, _ => false
       end)
    [("demo-plugin",
      [("one_of_two", one_of_two); ("just_one", just_one); ("plot", plot);
       ("split3", split3); ("mixed_keys", mixed_keys);
       ("deferred", deferred); ("regroup", regroup)])]
    (fun _ prov => @mkResult demo_types demo_naming 99 VisualizationType false None)
    (fun p _ _ => p)
    (fun _ => Raise (AttributeError "collection"))
    (fun _ => Return Seqs)
    (fun _ => Return (CollectionOf Seqs)).

(** Worlds: no persistent pool and no parallel configuration; a persistent
    pool with an empty index. *)
Definition demo_config : ParallelConfig := mkParallelConfig None [].

Definition bare_world : @World demo_types demo_naming :=
  @mkWorld demo_types demo_naming (mkCache [] None) demo_config [] [].

Definition pooled_world : @World demo_types demo_naming :=
  @mkWorld demo_types demo_naming
    (mkCache [] (Some (mkNamedPool [] []))) demo_config [] [].

Definition root_context (cls : ContextClass) (action : @Action demo_types demo_naming)
    : @Context demo_types demo_naming :=
  mkContext cls (Some action) None [] None.

(** The provenance a synchronous call of an action starts from. *)
Definition pipeline_provenance (action : @Action demo_types demo_naming) : Provenance :=
  _ProvCaptureCls action synchronous_ctx.

Definition three_parts : list (PyKey * demo_value) :=
  [(KStr "a", VResult (demo_result 1));
   (KStr "b", VResult (demo_result 2));
   (KStr "c", VResult (demo_result 3))].

(** A world in which the first submitted app has resolved to one result. *)
Definition resolved_world : @World demo_types demo_naming :=
  @mkWorld demo_types demo_naming (mkCache [] None) demo_config
    [Return [("a", MResult (demo_result 5))]] [].

Definition deferred_outputs : list demo_value :=
  [VProxy (mkProxy (FutureObj 0) "a");
   VList [VProxy (mkProxy (FutureObj 0) "a"); VResult (demo_result 7)]].

Definition forced_outputs : list demo_value :=
  [VResult (demo_result 5);
   VCollection [(KStr "0", VResult (demo_result 5));
                (KStr "1", VResult (demo_result 7))]].

(** A Method whose signature declares two outputs while its output types
    solve to one: the executor returns one artifact and the bound call
    raises. *)
Definition lopsided : @Action demo_types demo_naming :=
  @mkAction demo_types demo_naming Method "demo_plugin" "just_one" "just_one" false
    (@mkSignature demo_types demo_naming
       [("a", Seqs); ("b", Seqs)]
       demo_collate
       (fun _ => Return tt)
       (fun _ => Return [("a", Seqs)])
       (fun inputs => Return inputs)
       (fun prov inputs => Return (prov, inputs))
       (fun views _ _ => ret views)).

(** A persistent pool whose index holds, for the call of [regroup] on
    result 1, a collection output with no recorded element. *)
Definition stale_world : @World demo_types demo_naming :=
  @mkWorld demo_types demo_naming
    (mkCache []
       (Some (mkNamedPool []
                [(make_invocation regroup [("x0", VResult (demo_result 1))],
                  [("parts", CachedCollection [])])])))
    demo_config [] [].

Definition thread_pool : list (string * string) := [("default", "ThreadPoolExecutor")].

(** A persistent pool with an empty index and a loaded configuration. *)
Definition parallel_world : @World demo_types demo_naming :=
  @mkWorld demo_types demo_naming (mkCache [] (Some (mkNamedPool [] [])))
    (mkParallelConfig (Some thread_pool) []) [] [].

(** The context of a Method called inside a parallel pipeline. *)
Definition nested_context : @Context demo_types demo_naming :=
  mkContext ParallelContext (Some just_one)
    (Some (mkContext ParallelContext (Some deferred) None [] (Some thread_pool)))
    [] (Some thread_pool).

(** A deprecated Method whose signature rejects the types of every input. *)
Definition picky : @Action demo_types demo_naming :=
  @mkAction demo_types demo_naming Method "demo_plugin" "picky" "picky" true
    (@mkSignature demo_types demo_naming
       [("a", Seqs)]
       demo_collate
       (fun _ => Raise (TypeError "picky"))
       (fun _ => Return [("a", Seqs)])
       (fun inputs => Return inputs)
       (fun prov inputs => Return (prov, inputs))
       (fun views _ _ => ret views)).

(** A Pipeline whose function returns nothing. *)
Definition forgetful := demo_action Pipeline "forgetful" [("a", Seqs)].

(** The index entry of the call of [just_one] on result 1: its output is
    recorded under key 9. *)
Definition just_one_entry
    : @HashableInvocation demo_types demo_naming * list (string * CachedOutput) :=
  (make_invocation just_one [("x0", VResult (demo_result 1))],
   [("a", CachedResult 9)]).

(** A persistent pool that holds that entry and its data, and one that
    holds the entry only. *)
Definition recycling_pool : @NamedPool demo_types demo_naming :=
  mkNamedPool [demo_result 9] [just_one_entry].

Definition recycling_world : @World demo_types demo_naming :=
  @mkWorld demo_types demo_naming (mkCache [] (Some recycling_pool)) demo_config [] [].

Definition emptied_pool : @NamedPool demo_types demo_naming :=
  mkNamedPool [] [just_one_entry].

Definition emptied_world : @World demo_types demo_naming :=
  @mkWorld demo_types demo_naming (mkCache [] (Some emptied_pool)) demo_config [] [].

(** A collection of two elements that the index holds second element
    first, and a pool with their data. *)
Definition shuffled_parts : list (IndexedCollectionElement * nat) :=
  [(mkElem "b" 1 2, 12); (mkElem "a" 0 2, 11)].

Definition parts_key (elem_info : IndexedCollectionElement) : nat :=
  if String.eqb (item_name elem_info) "a" then 11 else 12.

Definition parts_pool : @NamedPool demo_types demo_naming :=
  mkNamedPool [demo_result 11; demo_result 12] [].

Definition parts_world : @World demo_types demo_naming :=
  @mkWorld demo_types demo_naming (mkCache [] (Some parts_pool)) demo_config [] [].

(** What the futures 1 and 2 resolve to. *)
Definition demo_resolve (future : FutureRef)
    : list (string * @Materialised demo_types demo_naming) :=
  match future with
  | FutureObj 1 => [("a", MResult (demo_result 5))]
  | _ => [("b", MResult (demo_result 6))]
  end.

(** A context nested in the root context of [split3]. *)
Definition inner_context (action : @Action demo_types demo_naming)
    : @Context demo_types demo_naming :=
  mkContext BaseContext (Some action) (Some (root_context BaseContext split3)) [] None.

(** A Method whose signature takes no keyword argument. *)
Definition positional_only : @Action demo_types demo_naming :=
  @mkAction demo_types demo_naming Method "demo_plugin" "positional_only"
    "positional_only" true
    (@mkSignature demo_types demo_naming
       [("a", Seqs)]
       (fun args kwargs =>
          match kwargs with
          | [] => demo_collate args kwargs
          | _ => Raise (TypeError "got an unexpected keyword argument")
          end)
       (fun _ => Return tt)
       (fun _ => Return [("a", Seqs)])
       (fun inputs => Return inputs)
       (fun prov inputs => Return (prov, inputs))
       (fun views _ _ => ret views)).




(** A persistent pool whose index holds, for the call of [regroup] on
    result 1, a collection of which one of two declared elements is
    recorded. *)
Definition partial_pool : @NamedPool demo_types demo_naming :=
  mkNamedPool [demo_result 11]
    [(make_invocation regroup [("x0", VResult (demo_result 1))],
      [("parts", CachedCollection [(mkElem "a" 0 2, 11)])])].

Definition partial_world : @World demo_types demo_naming :=
  @mkWorld demo_types demo_naming (mkCache [] (Some partial_pool)) demo_config [] [].

(* ================================================================== *)
(** * Properties *)
(* ================================================================== *)

Section Properties.

Context {TS : TypeSystem} {NM : Naming} {PL : Plugins} {IM : Importer}.

(** ** Running monadic code *)

Lemma bind_Return {A B} (m : M A) (k : A -> M B) (w w' : World) (a : A) :
  m w = (Return a, w') -> bind m k w = k a w'.
Proof. intros H. unfold bind. rewrite H. reflexivity. Qed.

Lemma bind_Raise {A B} (m : M A) (k : A -> M B) (w w' : World) (e : exn) :
  m w = (Raise e, w') -> bind m k w = (Raise e, w').
Proof. intros H. unfold bind. rewrite H. reflexivity. Qed.

Lemma bind_lift {A B} (o : outcome A) (k : A -> M B) (w : World) (a : A) :
  o = Return a -> bind (lift o) k w = k a w.
Proof. intros H. subst o. reflexivity. Qed.

Lemma bind_inv {A B} (m : M A) (k : A -> M B) (w w' : World) (b : B) :
  bind m k w = (Return b, w') ->
  exists a w1, m w = (Return a, w1) /\ k a w1 = (Return b, w').
Proof.
  unfold bind. destruct (m w) as [[a | e] w1]; intros H.
  - exists a, w1. split; [reflexivity | exact H].
  - discriminate H.
Qed.

Lemma mapM_pure {A B} (f : A -> M B) (g : A -> B) (l : list A) (w : World) :
  (forall x, In x l -> f x w = (Return (g x), w)) ->
  mapM f l w = (Return (map g l), w).
Proof.
  induction l as [| x l IH]; intros Hf; simpl.
  - reflexivity.
  - rewrite (bind_Return _ _ _ _ _ (Hf x (or_introl eq_refl))).
    rewrite (bind_Return _ _ _ _ _ (IH (fun y Hy => Hf y (or_intror Hy)))).
    reflexivity.
Qed.

Lemma mapM_length {A B} (f : A -> M B) (l : list A) :
  forall (w w' : World) (r : list B),
    mapM f l w = (Return r, w') -> List.length r = List.length l.
Proof.
  induction l as [| x l IH]; simpl; intros w w' r H.
  - inversion H. reflexivity.
  - apply bind_inv in H. destruct H as (y & w1 & _ & H).
    apply bind_inv in H. destruct H as (ys & w2 & Hys & H).
    inversion H. subst. simpl. f_equal. eapply IH. exact Hys.
Qed.

Lemma forallb_map {A} (f : A -> bool) (l : list A) :
  forallb (fun b => b) (map f l) = forallb f l.
Proof. induction l as [| x l IH]; simpl; [reflexivity | now rewrite IH]. Qed.

Lemma with_events_app (w : World) (a b : list Event) :
  with_events (with_events w a) b = with_events w (a ++ b).
Proof. unfold with_events. simpl. now rewrite app_assoc. Qed.

Lemma with_events_nil (w : World) : with_events w [] = w.
Proof. destruct w. unfold with_events. simpl. now rewrite app_nil_r. Qed.

(** ** The completeness check of a cached collection *)

Lemma validate_collection_nonempty :
  forall (first : IndexedCollectionElement) (rest : list IndexedCollectionElement)
         (w : World),
    _validate_collection (first :: rest) w
    = (Return (forallb (fun elem => Z.eqb (total elem) (total first)) (first :: rest)
               && Z.eqb (Z.of_nat (List.length (first :: rest))) (total first)),
       if forallb (fun elem => Z.eqb (total elem) (total first)) (first :: rest)
          && Z.eqb (Z.of_nat (List.length (first :: rest))) (total first)
       then w else snd (warn incomplete_collection_msg w)).
Proof.
  intros first rest w.
  unfold _validate_collection.
  rewrite (bind_Return _ _ w w
             (map (fun elem => Z.eqb (total elem) (total first)) (first :: rest))).
  2:{ apply mapM_pure. intros x _. reflexivity. }
  rewrite forallb_map. fold (forallb (fun elem => Z.eqb (total elem) (total first))).
  destruct (forallb (fun elem => Z.eqb (total elem) (total first)) (first :: rest));
    cbn [negb andb].
  - unfold bind at 1. cbn [lift getitem0 bind ret].
    destruct (Z.eqb (Z.of_nat (List.length (first :: rest))) (total first));
      reflexivity.
  - reflexivity.
Qed.

Lemma validate_collection_empty :
  forall w : World,
    _validate_collection [] w = (Raise (IndexError "list index out of range"), w).
Proof. intros w. reflexivity. Qed.

(** C10: [_validate_collection] returns a boolean on every non-empty list of
    recorded elements, [True] exactly when every recorded total equals the
    total of the first element and the number of elements equals that total
    (with the warning on [False]); on the empty list it raises [IndexError]
    when it indexes the first element. *)
Theorem validate_collection_total_on_nonempty :
  (forall (first : IndexedCollectionElement) (rest : list IndexedCollectionElement)
          (w : World),
      let complete :=
        forallb (fun elem => Z.eqb (total elem) (total first)) (first :: rest)
        && Z.eqb (Z.of_nat (List.length (first :: rest))) (total first) in
      _validate_collection (first :: rest) w
      = (Return complete,
         if complete then w else snd (warn incomplete_collection_msg w)))
  /\ (forall w : World,
      _validate_collection [] w
      = (Raise (IndexError "list index out of range"), w)).
Proof.
  split.
  - intros first rest w. apply validate_collection_nonempty.
  - apply validate_collection_empty.
Qed.

(** ** Reloading a cached collection *)

(** A cached collection with recorded elements that is not complete is a
    miss: [load_outputs] warns and returns [None]. *)
Lemma incomplete_collection_is_a_miss :
  forall (name : string) (ty : QType) (rest : list (string * QType))
         (cached_outputs : list (string * CachedOutput))
         (elems : list (IndexedCollectionElement * nat))
         (first : IndexedCollectionElement) (others : list IndexedCollectionElement)
         (loaded : Results) (w : World),
    is_collection_type ty = true ->
    dict_get String.eqb name cached_outputs = Some (CachedCollection elems) ->
    map fst elems = first :: others ->
    forallb (fun elem => Z.eqb (total elem) (total first)) (first :: others)
    && Z.eqb (Z.of_nat (List.length (first :: others))) (total first) = false ->
    load_outputs ((name, ty) :: rest) cached_outputs loaded w
    = (Return None, snd (warn incomplete_collection_msg w)).
Proof.
  intros name ty rest cached_outputs elems first others loaded w
         Hty Hget Helems Hincomplete.
  cbn [load_outputs]. rewrite Hty.
  unfold dict_getitem. rewrite Hget.
  rewrite (bind_lift _ _ _ _ eq_refl).
  unfold bind at 1. cbn [ret].
  rewrite Helems.
  rewrite (bind_Return _ _ _ _ _ (validate_collection_nonempty first others w)).
  rewrite Hincomplete. reflexivity.
Qed.

(** A cached collection that [load_outputs] accepts has recorded elements
    and is complete. *)
Lemma accepted_collection_is_complete :
  forall (name : string) (ty : QType) (rest : list (string * QType))
         (cached_outputs : list (string * CachedOutput))
         (loaded results : Results) (w w' : World),
    is_collection_type ty = true ->
    load_outputs ((name, ty) :: rest) cached_outputs loaded w
    = (Return (Some results), w') ->
    exists (elems : list (IndexedCollectionElement * nat))
           (first : IndexedCollectionElement)
           (others : list IndexedCollectionElement),
      dict_get String.eqb name cached_outputs = Some (CachedCollection elems)
      /\ map fst elems = first :: others
      /\ forallb (fun elem => Z.eqb (total elem) (total first)) (first :: others)
         && Z.eqb (Z.of_nat (List.length (first :: others))) (total first) = true.
Proof.
  intros name ty rest cached_outputs loaded results w w' Hty H.
  cbn [load_outputs] in H. rewrite Hty in H.
  unfold dict_getitem in H.
  destruct (dict_get String.eqb name cached_outputs) as [[key | elems] |];
    try discriminate H.
  rewrite (bind_lift _ _ _ _ eq_refl) in H.
  unfold bind at 1 in H. cbn [ret] in H.
  exists elems.
  destruct (map fst elems) as [| first others] eqn:Helems.
  - rewrite (bind_Raise _ _ _ _ _ (validate_collection_empty w)) in H.
    discriminate H.
  - exists first, others.
    rewrite (bind_Return _ _ _ _ _ (validate_collection_nonempty first others w)) in H.
    destruct (forallb (fun elem => Z.eqb (total elem) (total first)) (first :: others)
              && Z.eqb (Z.of_nat (List.length (first :: others))) (total first)).
    + repeat split.
    + discriminate H.
Qed.

(** ** Registration *)

(** C8: [add_reference] takes the cache lock, saves the value into the
    process pool, saves the handle it got back into the persistent pool
    when that pool is active, releases the lock, and returns the handle of
    the process pool; with no persistent pool only the process pool is
    written. *)
Theorem add_reference_mirrors_into_both_pools :
  forall (self : Context) (ref : Result) (w : World),
    let new_ref := mkResult (uuid ref) (rtype ref) true (label ref) in
    add_reference self ref w =
    match named_pool (cache w) with
    | Some pool =>
        (Return new_ref,
         mkWorld (mkCache (process_pool (cache w) ++ [new_ref])
                          (Some (mkNamedPool (np_data pool ++ [new_ref])
                                             (np_index pool))))
                 (PARALLEL_CONFIG w) (futures w)
                 (log w ++ [ELockAcquire] ++ [EProcessPoolSave new_ref]
                        ++ [ENamedPoolSave new_ref] ++ [ELockRelease]))
    | None =>
        (Return new_ref,
         mkWorld (mkCache (process_pool (cache w) ++ [new_ref]) None)
                 (PARALLEL_CONFIG w) (futures w)
                 (log w ++ [ELockAcquire] ++ [EProcessPoolSave new_ref]
                        ++ [ELockRelease]))
    end.
Proof.
  intros self ref w new_ref.
  destruct w as [[pp np] pc fs lg].
  destruct np as [pool |]; cbn; rewrite <- ?app_assoc; reflexivity.
Qed.

Lemma add_reference_registers (self : Context) (ref : Result) (w : World) :
  add_reference self ref w
  = (Return (mkResult (uuid ref) (rtype ref) true (label ref)),
     registered (mkResult (uuid ref) (rtype ref) true (label ref)) w).
Proof.
  destruct w as [[pp np] pc fs lg]. unfold registered.
  destruct np as [pool |]; cbn; rewrite <- ?app_assoc; reflexivity.
Qed.

(** ** Construction of a context *)

(** C9, as the code has it: a context with a parent and without an action
    is refused with [ValueError] before anything is done; every other
    combination is built, and a parentless context, with or without an
    action, first builds the index of the persistent pool under the cache
    lock. *)
Theorem context_without_action_needs_no_parent :
  forall (cls : ContextClass) (action_obj : option Action)
         (parent : option Context) (w : World),
    Context__init__ cls action_obj parent w =
    match parent, action_obj with
    | Some _, None => (Raise (ValueError only_parentless_msg), w)
    | Some _, Some _ => (Return (mkContext cls action_obj parent [] None), w)
    | None, _ =>
        (Return (mkContext cls action_obj parent [] None),
         mkWorld (cache w) (PARALLEL_CONFIG w) (futures w)
                 (log w ++ [ELockAcquire]
                        ++ match named_pool (cache w) with
                           | Some _ => [ECreateIndex]
                           | None => []
                           end
                        ++ [ELockRelease]))
    end.
Proof.
  intros cls action_obj parent w.
  destruct w as [[pp np] pc fs lg].
  destruct parent as [p |], action_obj as [a |], np as [pool |];
    cbn; rewrite <- ?app_assoc; reflexivity.
Qed.

(** ** Parallel dispatch *)

(** C6: dispatching a Method or a Visualizer through a parallel context
    while no parallel configuration is loaded raises [ValueError] and leaves
    the world as it was: no executor type has been looked up and no app has
    been submitted. *)
Theorem leaf_dispatch_needs_parallel_config :
  forall (self : Context) (action : Action) (args : list value)
         (kwargs : keywords) (w : World),
    action_obj self = Some action ->
    type action <> Pipeline ->
    parallel_config (PARALLEL_CONFIG w) = None ->
    ParallelContext_dispatch_ self args kwargs w
    = (Raise (ValueError no_config_msg), w).
Proof.
  intros self action args kwargs w Hobj Hleaf Hconfig.
  unfold ParallelContext_dispatch_.
  destruct (map_args _ _) as [mapped_args futures1].
  destruct (map_kwargs _ _ _) as [mapped_kwargs futures2].
  unfold the_action_obj. rewrite Hobj.
  unfold bind at 1. cbn [ret].
  destruct (type action); try (exfalso; apply Hleaf; reflexivity);
    unfold bind, get_world; rewrite Hconfig; reflexivity.
Qed.

(** The probe is skipped, and the call goes straight to dispatch, when one
    of the arguments is itself a deferred handle or when there is no
    persistent pool. *)
Lemma probe_skipped :
  forall (self : Context) (args : list value) (kwargs : keywords) (w : World),
    named_pool (cache w) = None \/ _contains_proxies (tl args) kwargs = true ->
    ParallelContext_callable_action_ self args kwargs w
    = ParallelContext_dispatch_ self (tl args) kwargs w.
Proof.
  intros self args kwargs w H.
  unfold ParallelContext_callable_action_, bind, get_world.
  destruct H as [H | H].
  - rewrite H. reflexivity.
  - rewrite H. destruct (named_pool (cache w)); reflexivity.
Qed.

(** With a persistent pool and no deferred handle among the arguments, the
    call starts with [_check_cache]. *)
Lemma probe_attempted :
  forall (self : Context) (args : list value) (kwargs : keywords) (w : World)
         (pool : NamedPool),
    named_pool (cache w) = Some pool ->
    _contains_proxies (tl args) kwargs = false ->
    ParallelContext_callable_action_ self args kwargs w
    = bind (_check_cache self (tl args) kwargs)
           (fun cached_results =>
              match cached_results with
              | Some (r :: rs) => ret (DResults (r :: rs))
              | _ => ParallelContext_dispatch_ self (tl args) kwargs
              end) w.
Proof.
  intros self args kwargs w pool Hpool Hnone.
  unfold ParallelContext_callable_action_.
  unfold bind at 1, get_world. rewrite Hpool, Hnone. reflexivity.
Qed.

Lemma existsb_is_Proxy {A} (f : A -> value) (l : list A) :
  existsb (fun a => is_Proxy (f a)) l = true
  <-> exists a, In a l /\ is_Proxy (f a) = true.
Proof. apply existsb_exists. Qed.

(** C5, as the code has it: the probe is skipped, and the call goes
    straight to dispatch, when there is no persistent pool or when a
    positional argument or a keyword value is itself a deferred handle; with
    a persistent pool and no such argument the call starts with the probe
    of [_check_cache].  [_contains_proxies] looks at the arguments
    themselves, not inside them. *)
Theorem probe_skipped_for_handles_among_arguments :
  forall (self : Context) (args : list value) (kwargs : keywords) (w : World),
    (named_pool (cache w) = None \/ _contains_proxies (tl args) kwargs = true ->
     ParallelContext_callable_action_ self args kwargs w
     = ParallelContext_dispatch_ self (tl args) kwargs w)
    /\ (forall pool : NamedPool,
          named_pool (cache w) = Some pool ->
          _contains_proxies (tl args) kwargs = false ->
          ParallelContext_callable_action_ self args kwargs w
          = bind (_check_cache self (tl args) kwargs)
                 (fun cached_results =>
                    match cached_results with
                    | Some (r :: rs) => ret (DResults (r :: rs))
                    | _ => ParallelContext_dispatch_ self (tl args) kwargs
                    end) w)
    /\ (_contains_proxies (tl args) kwargs = true
        <-> (exists p : Proxy, In (VProxy p) (tl args))
            \/ (exists (key : string) (p : Proxy), In (key, VProxy p) kwargs)).
Proof.
  intros self args kwargs w. split; [| split].
  - apply probe_skipped.
  - intros pool. apply probe_attempted.
  - unfold _contains_proxies. rewrite orb_true_iff.
    rewrite (existsb_is_Proxy (fun x => x)), (existsb_is_Proxy snd).
    split.
    + intros [(x & Hin & Hx) | ([key x] & Hin & Hx)].
      * left. destruct x; try discriminate Hx. eexists. exact Hin.
      * right. simpl in Hx. destruct x; try discriminate Hx.
        eexists. eexists. exact Hin.
    + intros [(p & Hin) | (key & p & Hin)].
      * left. exists (VProxy p). split; [exact Hin | reflexivity].
      * right. exists (key, VProxy p). split; [exact Hin | reflexivity].
Qed.

(** ** Outputs of a root pipeline *)

Lemma Proxy_result_resolution (p : Proxy) (w : World) :
  Proxy_result p w = (resolution w p, with_events w [EResolve p]).
Proof.
  unfold Proxy_result, resolution, bind, emit, get_world, with_events, raise, ret.
  destruct (_future_ p) as [task | i]; [| reflexivity].
  cbn [futures].
  destruct (nth_error (futures w) task) as [[results | e] |]; try reflexivity.
  destruct (dict_get String.eqb (_selector_ p) results); reflexivity.
Qed.

Lemma result_settles (x : value) (w : World) :
  answers w x = true ->
  result x w
  = (Return (settle w x),
     with_events w (match x with VProxy p => [EResolve p] | _ => [] end)).
Proof.
  intros Hx. destruct x as [| b | z | s | n | r | p | c | l | d | l];
    try discriminate Hx; cbn [result settle].
  - now rewrite with_events_nil.
  - rewrite Proxy_result_resolution. cbn [answers] in Hx.
    destruct (resolution w p); [reflexivity | discriminate Hx].
  - now rewrite with_events_nil.
Qed.

Lemma resolution_is_materialised (w : World) (p : Proxy) (v : value) :
  resolution w p = Return v -> exists m, v = value_of m.
Proof.
  unfold resolution. intros H.
  destruct (_future_ p) as [task | i]; [| discriminate H].
  destruct (nth_error (futures w) task) as [[results | e] |]; try discriminate H.
  destruct (dict_get String.eqb (_selector_ p) results) as [m |]; [| discriminate H].
  exists m. now inversion H.
Qed.

Lemma settle_not_proxy (w : World) (x : value) :
  answers w x = true -> is_Proxy (settle w x) = false.
Proof.
  intros Hx. destruct x as [| b | z | s | n | r | p | c | l | d | l];
    try discriminate Hx; try reflexivity.
  cbn [answers] in Hx. cbn [settle].
  destruct (resolution w p) as [v | e] eqn:Hres; [| discriminate Hx].
  destruct (resolution_is_materialised _ _ _ Hres) as ([r | c] & ->); reflexivity.
Qed.

Lemma force_elements_settles (c : list (PyKey * value)) :
  forall w : World,
    forallb (fun kv => answers w (snd kv)) c = true ->
    force_elements c w
    = (Return (map (fun kv => (fst kv, settle w (snd kv))) c),
       with_events w
         (map EResolve
            (flat_map (fun kv => match snd kv with VProxy p => [p] | _ => [] end) c))).
Proof.
  unfold force_elements.
  induction c as [| [key x] c IH]; intros w Hc.
  - simpl. now rewrite with_events_nil.
  - simpl in Hc. apply andb_prop in Hc. destruct Hc as [Hx Hc].
    cbn [mapM fst snd].
    rewrite (bind_Return _ _ w
               (with_events w (match x with VProxy p => [EResolve p] | _ => [] end))
               (key, settle w x)).
    2:{ rewrite (bind_Return _ _ _ _ _ (result_settles x w Hx)). reflexivity. }
    rewrite (bind_Return _ _ _ _ _
               (IH (with_events w (match x with VProxy p => [EResolve p] | _ => [] end))
                   Hc)).
    rewrite with_events_app. cbn [ret map flat_map fst snd].
    rewrite map_app. destruct x; reflexivity.
Qed.

Lemma force_elements_of_results (c : list (PyKey * Result)) (w : World) :
  force_elements (map (fun kr => (fst kr, VResult (snd kr))) c) w
  = (Return (map (fun kr => (fst kr, VResult (snd kr))) c), w).
Proof.
  unfold force_elements. rewrite (mapM_pure _ (fun kv => kv) _ w).
  - now rewrite map_id.
  - intros kv Hin. apply in_map_iff in Hin. destruct Hin as ([k r] & <- & _).
    reflexivity.
Qed.

Lemma coerce_root_output_forced (ctx : Context) (x : value) (w : World) :
  _parent ctx = None ->
  forceable w x = true ->
  coerce_pipeline_output ctx x w
  = (Return (forced w x), with_events w (map EResolve (forced_handles x))).
Proof.
  intros Hroot Hx.
  unfold coerce_pipeline_output, forceable, forced, forced_handles in *.
  rewrite Hroot. fold (as_collection x).
  destruct (as_collection x) as [| b | z | s | n | r | p | c | l | d | l];
    try discriminate Hx.
  - cbn. now rewrite with_events_nil.
  - rewrite (bind_Return _ _ _ _ _ (result_settles (VResult r) w eq_refl)).
    cbn. now rewrite with_events_nil.
  - rewrite (bind_Return _ _ _ _ _ (result_settles (VProxy p) w Hx)).
    cbn [answers] in Hx. cbn [settle map].
    destruct (resolution w p) as [v | e] eqn:Hres; [| discriminate Hx].
    destruct (resolution_is_materialised _ _ _ Hres) as ([r | c] & ->);
      [reflexivity |].
    cbn [value_of].
    rewrite (bind_Return _ _ _ _ _ (force_elements_of_results c _)).
    reflexivity.
  - rewrite (bind_Return _ _ _ _ _ (result_settles (VCollection c) w eq_refl)).
    cbn [settle]. rewrite with_events_nil.
    rewrite (bind_Return _ _ _ _ _ (force_elements_settles c w Hx)).
    reflexivity.
Qed.

Lemma coerce_root_outputs_forced (ctx : Context) (outputs : list value) :
  _parent ctx = None ->
  forall w : World,
    forallb (forceable w) outputs = true ->
    _coerce_pipeline_outputs ctx outputs w
    = (Return (map (forced w) outputs),
       with_events w (map EResolve (flat_map forced_handles outputs))).
Proof.
  intros Hroot. unfold _coerce_pipeline_outputs.
  induction outputs as [| x outputs IH]; intros w Hall.
  - simpl. now rewrite with_events_nil.
  - simpl in Hall. apply andb_prop in Hall. destruct Hall as [Hx Hall].
    cbn [mapM].
    rewrite (bind_Return _ _ _ _ _ (coerce_root_output_forced ctx x w Hroot Hx)).
    rewrite (bind_Return _ _ _ _ _
               (IH (with_events w (map EResolve (forced_handles x))) Hall)).
    rewrite with_events_app, <- map_app. reflexivity.
Qed.

Lemma result_returns_answers (x v : value) (w w' : World) :
  result x w = (Return v, w') -> answers w x = true.
Proof.
  destruct x as [| b | z | s | n | r | p | c | l | d | l]; cbn [result answers];
    intros H; try discriminate H; try reflexivity.
  rewrite Proxy_result_resolution in H. inversion H as [[Hres Hw]].
  now rewrite Hres.
Qed.

Lemma force_elements_returns_answers (c : list (PyKey * value)) :
  forall (w w' : World) (c' : list (PyKey * value)),
    force_elements c w = (Return c', w') ->
    forallb (fun kv => answers w (snd kv)) c = true.
Proof.
  unfold force_elements.
  induction c as [| [key x] c IH]; intros w w' c' H; [reflexivity |].
  cbn [mapM fst snd] in H.
  apply bind_inv in H. destruct H as (y & w1 & Hy & H).
  apply bind_inv in Hy. destruct Hy as (v & w2 & Hv & Hy).
  inversion Hy; subst.
  pose proof (result_returns_answers _ _ _ _ Hv) as Hx.
  rewrite (result_settles x w Hx) in Hv. inversion Hv as [[Hsettle Hw]].
  apply bind_inv in H. destruct H as (ys & w3 & Hys & _).
  rewrite <- Hw in Hys.
  cbn [forallb snd]. rewrite Hx. exact (IH _ _ _ Hys).
Qed.

Lemma coerce_root_output_returns_forceable (ctx : Context) (x v : value)
    (w w' : World) :
  _parent ctx = None ->
  coerce_pipeline_output ctx x w = (Return v, w') ->
  forceable w x = true.
Proof.
  intros Hroot H. unfold coerce_pipeline_output in H. rewrite Hroot in H.
  fold (as_collection x) in H. unfold forceable.
  destruct (as_collection x) as [| b | z | s | n | r | p | c | l | d | l];
    try reflexivity;
    try (apply bind_inv in H; destruct H as (o & w1 & Ho & _); discriminate Ho).
  - apply bind_inv in H. destruct H as (o & w1 & Ho & _).
    exact (result_returns_answers _ _ _ _ Ho).
  - apply bind_inv in H. destruct H as (o & w1 & Ho & H).
    inversion Ho; subst.
    apply bind_inv in H. destruct H as (elements & w2 & Helements & _).
    exact (force_elements_returns_answers _ _ _ _ Helements).
Qed.

Lemma coerce_root_outputs_return_forceable (ctx : Context) (outputs : list value) :
  _parent ctx = None ->
  forall (w w' : World) (coerced : list value),
    _coerce_pipeline_outputs ctx outputs w = (Return coerced, w') ->
    forallb (forceable w) outputs = true.
Proof.
  intros Hroot. unfold _coerce_pipeline_outputs.
  induction outputs as [| x outputs IH]; intros w w' coerced H; [reflexivity |].
  cbn [mapM] in H.
  apply bind_inv in H. destruct H as (v & w1 & Hv & H).
  pose proof (coerce_root_output_returns_forceable _ _ _ _ _ Hroot Hv) as Hx.
  rewrite (coerce_root_output_forced ctx x w Hroot Hx) in Hv.
  inversion Hv as [[Hforced Hw]].
  apply bind_inv in H. destruct H as (vs & w2 & Hvs & _).
  rewrite <- Hw in Hvs.
  cbn [forallb]. rewrite Hx. exact (IH _ _ _ Hvs).
Qed.

Lemma forced_is_resolved (w : World) (x : value) :
  forceable w x = true -> fully_resolved (forced w x) = true.
Proof.
  unfold forceable, forced, fully_resolved.
  destruct (as_collection x) as [| b | z | s | n | r | p | c | l | d | l];
    intros Hx; try discriminate Hx; try reflexivity.
  - rewrite (settle_not_proxy _ _ Hx). cbn [answers settle] in *.
    destruct (resolution w p) as [v | e] eqn:Hres; [| discriminate Hx].
    destruct (resolution_is_materialised _ _ _ Hres) as ([r | c] & ->);
      [reflexivity |].
    cbn. clear. induction c as [| kr c IH]; [reflexivity | exact IH].
  - cbn. clear - Hx.
    induction c as [| [k v] c IH]; [reflexivity |].
    simpl in *. apply andb_prop in Hx. destruct Hx as [Hv Hc].
    now rewrite (settle_not_proxy _ _ Hv), (IH Hc).
Qed.

Lemma result_not_proxy :
  forall (x v : value) (w w' : World),
    result x w = (Return v, w') -> is_Proxy v = false.
Proof.
  intros x v w w' H.
  destruct x as [| b | z | s | n | r | p | c | l | d | l];
    simpl in H; try discriminate H;
    try (inversion H; subst; reflexivity).
  unfold Proxy_result, bind, emit, get_world in H. cbn in H.
  destruct (_future_ p) as [task | i]; [| discriminate H].
  cbn [futures] in H.
  destruct (nth_error (futures w) task) as [[results | e] |]; try discriminate H.
  destruct (dict_get String.eqb (_selector_ p) results) as [m |]; [| discriminate H].
  inversion H; subst. destruct m as [r | c]; reflexivity.
Qed.

Lemma force_elements_resolved :
  forall (c c' : list (PyKey * value)) (w w' : World),
    force_elements c w = (Return c', w') ->
    forallb (fun kv => negb (is_Proxy (snd kv))) c' = true.
Proof.
  unfold force_elements.
  induction c as [| kv c IH]; simpl; intros c' w w' H.
  - inversion H. reflexivity.
  - apply bind_inv in H. destruct H as (y & w1 & Hy & H).
    apply bind_inv in H. destruct H as (ys & w2 & Hys & H).
    inversion H; subst. simpl.
    apply bind_inv in Hy. destruct Hy as (forced & w3 & Hforced & Hy).
    inversion Hy; subst. simpl.
    rewrite (result_not_proxy _ _ _ _ Hforced). simpl.
    eapply IH. exact Hys.
Qed.

Lemma coerce_root_output_resolved :
  forall (ctx : Context) (x v : value) (w w' : World),
    _parent ctx = None ->
    coerce_pipeline_output ctx x w = (Return v, w') ->
    fully_resolved v = true.
Proof.
  intros ctx x v w w' Hroot H.
  unfold coerce_pipeline_output in H. rewrite Hroot in H.
  fold (as_collection x) in H.
  assert (Hforce :
    bind (result (as_collection x))
         (fun output =>
            match output with
            | VCollection c => bind (force_elements c) (fun forced => ret (VCollection forced))
            | _ => ret output
            end) w = (Return v, w') -> fully_resolved v = true).
  { clear H. intros H.
    apply bind_inv in H. destruct H as (o & w1 & Ho & H).
    pose proof (result_not_proxy _ _ _ _ Ho) as Hnp.
    destruct o; try (inversion H; subst; reflexivity); try discriminate Hnp.
    apply bind_inv in H. destruct H as (forced & w2 & Hforced & H).
    inversion H; subst. unfold fully_resolved. simpl.
    eapply force_elements_resolved. exact Hforced. }
  destruct (as_collection x); try (apply Hforce; exact H).
  inversion H. reflexivity.
Qed.

Lemma coerce_nested_output_untouched :
  forall (ctx parent : Context) (x : value) (w : World),
    _parent ctx = Some parent ->
    coerce_pipeline_output ctx x w = (Return (as_collection x), w).
Proof.
  intros ctx parent x w Hparent.
  unfold coerce_pipeline_output. rewrite Hparent.
  fold (as_collection x). reflexivity.
Qed.

(** Aliasing keeps resolved outputs resolved. *)
Lemma alias_of_resolved :
  forall (ctx : Context) (x v : value) (name : OutputName) (provenance : Provenance)
         (w w' : World),
    is_Proxy x = false ->
    _alias x name provenance ctx w = (Return v, w') ->
    fully_resolved v = true.
Proof.
  intros ctx x v name provenance w w' Hx H.
  destruct x; try discriminate H; try discriminate Hx.
  cbn [_alias] in H.
  rewrite (bind_Return _ _ _ _ _ (add_reference_registers ctx _ w)) in H.
  inversion H. reflexivity.
Qed.

Lemma dict_set_resolved (k : PyKey) (v : value) (d : list (PyKey * value)) :
  is_Proxy v = false ->
  forallb (fun kv => negb (is_Proxy (snd kv))) d = true ->
  forallb (fun kv => negb (is_Proxy (snd kv))) (dict_set PyKey_eqb k v d) = true.
Proof.
  intros Hv. induction d as [| [k' v'] d IH]; simpl; intros Hd.
  - now rewrite Hv.
  - apply andb_prop in Hd. destruct Hd as [Hv' Hd].
    destruct (PyKey_eqb k k'); simpl.
    + now rewrite Hv, Hd.
    + simpl in Hv'. now rewrite Hv', (IH Hd).
Qed.

Lemma alias_elements_resolved :
  forall (ctx : Context) (name : string) (size : nat) (provenance : Provenance)
         (items : list (nat * (PyKey * value)))
         (aliased_output r : list (PyKey * value)) (w w' : World),
    forallb (fun item => negb (is_Proxy (snd (snd item)))) items = true ->
    forallb (fun kv => negb (is_Proxy (snd kv))) aliased_output = true ->
    alias_elements ctx name size provenance items aliased_output w = (Return r, w') ->
    forallb (fun kv => negb (is_Proxy (snd kv))) r = true.
Proof.
  intros ctx name size provenance items.
  induction items as [| [i [key val]] items IH];
    intros aliased_output r w w' Hitems Hacc H; simpl in H.
  - inversion H. subst. exact Hacc.
  - simpl in Hitems. apply andb_prop in Hitems. destruct Hitems as [Hval Hitems].
    apply bind_inv in H. destruct H as (a & w1 & Ha & H).
    apply negb_true_iff in Hval.
    pose proof (alias_of_resolved _ _ _ _ _ _ _ Hval Ha) as Hres.
    unfold fully_resolved in Hres. apply andb_prop in Hres.
    destruct Hres as [Hnp _]. apply negb_true_iff in Hnp.
    eapply IH; [exact Hitems | | exact H].
    apply dict_set_resolved; assumption.
Qed.

Lemma enumerate_from_resolved (i : nat) (c : list (PyKey * value)) :
  forallb (fun kv => negb (is_Proxy (snd kv))) c = true ->
  forallb (fun item : nat * (PyKey * value) => negb (is_Proxy (snd (snd item))))
          (enumerate_from i c) = true.
Proof.
  revert i. induction c as [| kv c IH]; intros i H; simpl in *.
  - reflexivity.
  - apply andb_prop in H. destruct H as [H1 H2]. now rewrite H1, (IH (S i) H2).
Qed.

Lemma alias_output_resolved :
  forall (ctx : Context) (provenance : Provenance) (output v : value) (name : string)
         (spec : QType) (w w' : World),
    fully_resolved output = true ->
    alias_output ctx provenance output name spec w = (Return v, w') ->
    fully_resolved v = true.
Proof.
  intros ctx provenance output v name spec w w' Hout H.
  unfold fully_resolved in Hout. apply andb_prop in Hout.
  destruct Hout as [Hnp Helems]. apply negb_true_iff in Hnp.
  unfold alias_output in H.
  apply bind_inv in H. destruct H as (is_collection & w1 & _ & H).
  destruct is_collection.
  - apply bind_inv in H. destruct H as (c & w2 & Hc & H).
    apply bind_inv in H. destruct H as (r & w3 & Hr & H).
    inversion H; subst. unfold fully_resolved. simpl.
    destruct output; try discriminate Hc; try discriminate Hnp.
    inversion Hc; subst.
    exact (alias_elements_resolved ctx name (List.length c) provenance (enumerate c)
             [] r w2 w' (enumerate_from_resolved 0 c Helems) eq_refl Hr).
  - apply bind_inv in H. destruct H as (ty & w2 & _ & H).
    destruct (qtype_le ty spec); [| discriminate H].
    eapply alias_of_resolved; eassumption.
Qed.

Lemma alias_outputs_resolved :
  forall (ctx : Context) (provenance : Provenance)
         (zipped : list (value * (string * QType)))
         (results : list value) (w w' : World),
    Forall (fun x => fully_resolved x = true) (map fst zipped) ->
    alias_outputs ctx provenance zipped w = (Return results, w') ->
    Forall (fun x => fully_resolved x = true) results.
Proof.
  intros ctx provenance zipped.
  induction zipped as [| [output [name spec]] zipped IH];
    intros results w w' Hall H; simpl in H.
  - inversion H. constructor.
  - inversion Hall as [| x l Hx Hrest]; subst.
    apply bind_inv in H. destruct H as (a & w1 & Ha & H).
    apply bind_inv in H. destruct H as (rs & w2 & Hrs & H).
    inversion H; subst. constructor.
    + eapply alias_output_resolved; eassumption.
    + eapply IH; eassumption.
Qed.

Lemma Forall_combine_fst {A B} (P : A -> Prop) (l : list A) (m : list B) :
  Forall P l -> Forall P (map fst (combine l m)).
Proof.
  revert m. induction l as [| x l IH]; intros m H; simpl.
  - constructor.
  - destruct m as [| y m]; simpl; [constructor |].
    inversion H; subst. constructor; [assumption | now apply IH].
Qed.

(** C4: when a pipeline runs in a parentless context,
    [_coerce_pipeline_outputs] forces every output before the executor
    goes on: a deferred handle is replaced by what its computation
    resolved to, and in a collection (a [dict] or a [list] as well) every
    element that is a deferred handle is; these are the only changes, the
    handles are forced in order, one [result()] each, and every output
    handed on is fully resolved.  It returns in no other way: whenever it
    returns, every output could be forced and what it returns is these
    forced outputs.  The executor checks and aliases the forced outputs,
    so what it returns to the caller is fully resolved as well.  In a context with a parent nothing is forced: the outputs come
    back as they were (a [dict] or [list] wrapped as a collection),
    deferred handles included, and the world is untouched. *)
Theorem root_pipeline_outputs_are_resolved :
  forall (ctx : Context) (outputs : list value),
    (_parent ctx = None ->
     forall w : World,
       forallb (forceable w) outputs = true ->
       _coerce_pipeline_outputs ctx outputs w
       = (Return (map (forced w) outputs),
          with_events w (map EResolve (flat_map forced_handles outputs)))
       /\ Forall (fun x => fully_resolved x = true) (map (forced w) outputs))
    /\ (_parent ctx = None ->
        forall (w w' : World) (coerced : list value),
          _coerce_pipeline_outputs ctx outputs w = (Return coerced, w') ->
          forallb (forceable w) outputs = true
          /\ coerced = map (forced w) outputs
          /\ w' = with_events w (map EResolve (flat_map forced_handles outputs))
          /\ Forall (fun x => fully_resolved x = true) coerced)
    /\ (_parent ctx = None ->
        forall (self : Action) (view_args : keywords)
               (output_types : list (string * QType)) (provenance : Provenance)
               (w w1 : World) (returned : value),
          _callable self (PipelineFrame ctx) view_args w = (Return returned, w1) ->
          tuplize returned = outputs ->
          forallb (forceable w1) outputs = true ->
          Pipeline_callable_executor_ self ctx view_args output_types provenance w
          = (if negb (List.length outputs =? List.length output_types)%nat then
               raise (TypeError (outputs_msg (List.length outputs)
                                             (List.length output_types)))
             else
               bind (check_results (map (forced w1) outputs)) (fun _ =>
               bind (alias_outputs ctx provenance
                       (combine (map (forced w1) outputs) output_types))
                    (fun results =>
               if negb (List.length results =? List.length (declared_outputs self))%nat
               then raise (ValueError
                             (callable_outputs_msg (List.length results)
                                (List.length (declared_outputs self))))
               else ret results)))
              (with_events w1 (map EResolve (flat_map forced_handles outputs))))
    /\ (_parent ctx = None ->
        forall (self : Action) (view_args : keywords)
               (output_types : list (string * QType)) (provenance : Provenance)
               (w w' : World) (results : list value),
          Pipeline_callable_executor_ self ctx view_args output_types provenance w
          = (Return results, w') ->
          Forall (fun x => fully_resolved x = true) results)
    /\ (forall parent : Context,
          _parent ctx = Some parent ->
          forall w : World,
            _coerce_pipeline_outputs ctx outputs w
            = (Return (map as_collection outputs), w)).
Proof.
  intros ctx outputs.
  assert (Hcoerce : _parent ctx = None ->
            forall (outputs : list value) (w w' : World) (coerced : list value),
              _coerce_pipeline_outputs ctx outputs w = (Return coerced, w') ->
              List.length coerced = List.length outputs
              /\ Forall (fun x => fully_resolved x = true) coerced).
  { intros Hroot. unfold _coerce_pipeline_outputs. clear outputs.
    intros outputs.
    induction outputs as [| x outputs IH]; simpl; intros w w' coerced H.
    - inversion H. split; [reflexivity | constructor].
    - apply bind_inv in H. destruct H as (v & w1 & Hv & H).
      apply bind_inv in H. destruct H as (vs & w2 & Hvs & H).
      inversion H; subst. destruct (IH _ _ _ Hvs) as [Hlen Hall].
      split; [simpl; now rewrite Hlen |].
      constructor; [| exact Hall].
      eapply coerce_root_output_resolved; eassumption. }
  split; [| split; [| split; [| split]]].
  - intros Hroot w Hall. split.
    + now apply coerce_root_outputs_forced.
    + apply Forall_forall. intros y Hy.
      apply in_map_iff in Hy. destruct Hy as (x & <- & Hx).
      apply forced_is_resolved.
      rewrite forallb_forall in Hall. now apply Hall.
  - intros Hroot w w' coerced H.
    pose proof (coerce_root_outputs_return_forceable ctx outputs Hroot _ _ _ H) as Hall.
    rewrite (coerce_root_outputs_forced ctx outputs Hroot w Hall) in H.
    inversion H as [[Hcoerced Hw]].
    split; [exact Hall |]. split; [reflexivity |]. split; [reflexivity |].
    apply Forall_forall. intros y Hy.
    apply in_map_iff in Hy. destruct Hy as (x & <- & Hx).
    apply forced_is_resolved.
    rewrite forallb_forall in Hall. now apply Hall.
  - intros Hroot self view_args output_types provenance w w1 returned
           Hcall Htuple Hall.
    unfold Pipeline_callable_executor_.
    rewrite (bind_Return _ _ _ _ _ Hcall). rewrite Htuple.
    rewrite (bind_Return _ _ _ _ _ (coerce_root_outputs_forced ctx outputs Hroot w1 Hall)).
    rewrite length_map. reflexivity.
  - intros Hroot self view_args output_types provenance w w' results H.
    unfold Pipeline_callable_executor_ in H.
    apply bind_inv in H. destruct H as (returned & w1 & _ & H).
    apply bind_inv in H. destruct H as (coerced & w2 & Hco & H).
    destruct (Hcoerce Hroot _ _ _ _ Hco) as [_ Hall].
    destruct (negb (List.length coerced =? List.length output_types)%nat);
      [discriminate H |].
    apply bind_inv in H. destruct H as (u & w3 & _ & H).
    apply bind_inv in H. destruct H as (rs & w4 & Hrs & H).
    destruct (negb (List.length rs =? List.length (declared_outputs self))%nat);
      [discriminate H |].
    inversion H; subst.
    eapply alias_outputs_resolved; [| exact Hrs].
    apply Forall_combine_fst. exact Hall.
  - intros parent Hparent w. unfold _coerce_pipeline_outputs.
    apply mapM_pure. intros x _.
    eapply coerce_nested_output_untouched. exact Hparent.
Qed.

(** ** Aliasing the collection output of a pipeline *)

Lemma dict_set_fresh {V} (k : PyKey) (v : V) (d : list (PyKey * V)) :
  (forall kv, In kv d -> PyKey_eqb k (fst kv) = false) ->
  dict_set PyKey_eqb k v d = d ++ [(k, v)].
Proof.
  induction d as [| [k' v'] d IH]; intros Hfresh; simpl.
  - reflexivity.
  - pose proof (Hfresh (k', v') (or_introl eq_refl)) as Hk. simpl in Hk.
    rewrite Hk. rewrite IH; [reflexivity |].
    intros kv Hin. apply Hfresh. right. exact Hin.
Qed.

Lemma registered_aliases_app (xs ys : list value) :
  forall w : World,
    registered_aliases (xs ++ ys) w = registered_aliases ys (registered_aliases xs w).
Proof.
  induction xs as [| x xs IH]; intros w; [reflexivity |].
  destruct x; simpl; apply IH.
Qed.

Lemma alias_of_IResult :
  forall (ctx : Context) (x : value) (name : OutputName) (provenance : Provenance)
         (w : World),
    is_IResult x = true ->
    _alias x name provenance ctx w
    = (Return (aliased x name provenance),
       registered_aliases [aliased x name provenance] w).
Proof.
  intros ctx x name provenance w H. destruct x; try discriminate H.
  - cbn [_alias aliased registered_aliases].
    rewrite (bind_Return _ _ _ _ _ (add_reference_registers ctx _ w)).
    reflexivity.
  - reflexivity.
Qed.

Lemma enumerate_from_keys (i : nat) (c : list (PyKey * value)) :
  map (fun item => str (fst (snd item))) (enumerate_from i c)
  = map (fun kv => str (fst kv)) c.
Proof.
  revert i. induction c as [| kv c IH]; intros i; simpl.
  - reflexivity.
  - now rewrite IH.
Qed.

Lemma enumerate_from_length {A} (i : nat) (l : list A) :
  List.length (enumerate_from i l) = List.length l.
Proof.
  revert i. induction l as [| x l IH]; intros i; simpl; [reflexivity | now rewrite IH].
Qed.

Lemma enumerate_from_nth {A} (l : list A) :
  forall (i n : nat) (x : A),
    nth_error l n = Some x -> nth_error (enumerate_from i l) n = Some (i + n, x).
Proof.
  induction l as [| y l IH]; intros i n x H.
  - destruct n; discriminate H.
  - destruct n as [| n]; simpl in *.
    + inversion H. now rewrite Nat.add_0_r.
    + rewrite (IH (S i) n x H). f_equal. f_equal. lia.
Qed.

(** The loop of [alias_elements] when every pending key has a string form
    that neither the collection built so far nor another pending key has:
    each element is appended. *)
Lemma alias_elements_distinct_keys :
  forall (ctx : Context) (name : string) (size : nat) (provenance : Provenance)
         (items : list (nat * (PyKey * value)))
         (aliased_output : list (PyKey * value)) (w : World),
    forallb (fun item => is_IResult (snd (snd item))) items = true ->
    NoDup (map (fun item => str (fst (snd item))) items) ->
    (forall kv, In kv aliased_output ->
       exists s, fst kv = KStr s
                 /\ ~ In s (map (fun item => str (fst (snd item))) items)) ->
    alias_elements ctx name size provenance items aliased_output w
    = (Return
         (aliased_output
          ++ map (fun item =>
                    (KStr (str (fst (snd item))),
                     aliased (snd (snd item))
                       (Synthesized
                          (create_collection_name name (fst (snd item)) (fst item) size))
                       provenance))
                 items),
       registered_aliases
         (map (fun item =>
                 aliased (snd (snd item))
                   (Synthesized
                      (create_collection_name name (fst (snd item)) (fst item) size))
                   provenance)
              items)
         w).
Proof.
  intros ctx name size provenance items.
  induction items as [| [i [key val]] items IH];
    intros aliased_output w Hres Hnodup Hacc; simpl.
  - now rewrite app_nil_r.
  - simpl in Hres. apply andb_prop in Hres. destruct Hres as [Hval Hres].
    simpl in Hnodup. inversion Hnodup as [| s l Hnotin Hnodup']; subst.
    rewrite (bind_Return _ _ _ _ _ (alias_of_IResult ctx _ _ _ w Hval)).
    rewrite dict_set_fresh.
    + rewrite IH; [| exact Hres | exact Hnodup' |].
      { rewrite <- app_assoc. cbn [registered_aliases app].
        destruct (aliased val _ provenance); reflexivity. }
      intros kv Hin. apply in_app_or in Hin. destruct Hin as [Hin | Hin].
      * destruct (Hacc kv Hin) as (s & Hs & Hfresh).
        exists s. split; [exact Hs |].
        intros Hin'. apply Hfresh. simpl. right. exact Hin'.
      * destruct Hin as [Heq | []]. subst kv. simpl.
        exists (str key). split; [reflexivity | exact Hnotin].
    + intros kv Hin. destruct (Hacc kv Hin) as (s & Hs & Hfresh).
      rewrite Hs. simpl. apply String.eqb_neq.
      intros Heq. apply Hfresh. simpl. left. exact Heq.
Qed.

(** C3, as the code has it: for an output declared as a collection, whose
    returned collection belongs to the declared type and holds results or
    deferred handles under keys with pairwise distinct string forms, the
    executor builds a collection of the same size; element [idx] of the
    input, stored under [key], appears at position [idx] under [str(key)]
    as the alias named [create_collection_name(name, key, idx, size)] under
    the provenance of the pipeline; the alias of a result keeps the uuid
    and the type of the result, carries the new label, and is the handle
    under which the context registered it; the aliases of results are
    registered in the pools in the order of the elements. *)
Theorem collection_output_is_aliased_elementwise :
  forall (ctx : Context) (provenance : Provenance) (name : string) (spec : QType)
         (c : list (PyKey * value)) (w : World),
    qtype_name spec = "Collection" ->
    collection_in c spec = true ->
    forallb (fun kv => is_IResult (snd kv)) c = true ->
    NoDup (map (fun kv => str (fst kv)) c) ->
    alias_output ctx provenance (VCollection c) name spec w
    = (Return (VCollection (aliased_collection name provenance c)),
       registered_aliases (map snd (aliased_collection name provenance c)) w)
    /\ List.length (aliased_collection name provenance c) = List.length c
    /\ (forall (idx : nat) (key : PyKey) (r : Result),
          nth_error c idx = Some (key, VResult r) ->
          nth_error (aliased_collection name provenance c) idx
          = Some (KStr (str key),
                  VResult
                    (mkResult (uuid r) (rtype r) true
                       (Some (Synthesized
                                (create_collection_name name key idx (List.length c)),
                              provenance)))))
    /\ (forall (idx : nat) (key : PyKey) (p : Proxy),
          nth_error c idx = Some (key, VProxy p) ->
          nth_error (aliased_collection name provenance c) idx
          = Some (KStr (str key),
                  VProxy
                    (proxy_alias p
                       (Synthesized
                          (create_collection_name name key idx (List.length c)))
                       provenance))).
Proof.
  intros ctx provenance name spec c w Hname Hin Hres Hnodup.
  split; [| split; [| split]].
  - unfold alias_output. rewrite Hname, String.eqb_refl.
    rewrite (bind_Return _ _ w w true).
    2:{ cbn [collection_of]. rewrite (bind_Return _ _ w w c) by reflexivity.
        unfold ret. now rewrite Hin. }
    cbn [collection_of]. rewrite (bind_Return _ _ w w c) by reflexivity.
    rewrite (bind_Return _ _ w
               (registered_aliases (map snd (aliased_collection name provenance c)) w)
               (aliased_collection name provenance c)).
    + reflexivity.
    + rewrite alias_elements_distinct_keys.
      * unfold aliased_collection. rewrite map_map. reflexivity.
      * unfold enumerate. clear - Hres. generalize 0.
        induction c as [| kv c IH]; intros i; simpl in *; [reflexivity |].
        apply andb_prop in Hres. destruct Hres as [H1 H2].
        rewrite H1. simpl. apply IH. exact H2.
      * unfold enumerate. rewrite enumerate_from_keys. exact Hnodup.
      * intros kv [].
  - unfold aliased_collection. rewrite length_map.
    unfold enumerate. apply enumerate_from_length.
  - intros idx key r Hnth. unfold aliased_collection.
    rewrite nth_error_map. unfold enumerate.
    rewrite (enumerate_from_nth c 0 idx _ Hnth). reflexivity.
  - intros idx key p Hnth. unfold aliased_collection.
    rewrite nth_error_map. unfold enumerate.
    rewrite (enumerate_from_nth c 0 idx _ Hnth). reflexivity.
Qed.

(** ** Output cardinality of a bound call *)

Lemma combine_names {A B} (names : list A) (values : list B) :
  List.length values = List.length names ->
  map fst (combine names values) = names.
Proof.
  revert values. induction names as [| n names IH]; intros [| v values] H;
    simpl in *; try reflexivity; try discriminate H.
  f_equal. apply IH. now inversion H.
Qed.

(** C7: once the executor of the variant has returned, a bound call whose
    number of outputs differs from the number of declared outputs raises
    [ValueError] with both counts in the message, and otherwise returns the
    outputs paired with the declared output names; so whatever a bound call
    returns has one value per declared output, under the declared names.
    A Method whose computation returns a number of values other than the
    number of output types does not get that far: its executor raises
    [TypeError], again with both counts. *)
Theorem bound_call_checks_output_count :
  (forall (self : Action) (context_factory : M Context)
          (execution_ctx : ExecutionCtx) (args : list value) (kwargs : keywords)
          (w w1 w2 : World) (ctx : Context) (collated callable_args : keywords)
          (output_types : list (string * QType))
          (prov_args : Provenance * keywords) (outputs : list value),
      context_factory w = (Return ctx, w1) ->
      collate_inputs (signature self) (tl args) kwargs = Return collated ->
      check_types (signature self) collated = Return tt ->
      solve_output (signature self) collated = Return output_types ->
      coerce_user_input (signature self) collated = Return callable_args ->
      transform_and_add_callable_args_to_prov (signature self)
        (_ProvCaptureCls self execution_ctx) callable_args = Return prov_args ->
      _callable_executor_ self ctx (snd prov_args) output_types (fst prov_args)
        (if deprecated self
         then snd (emit (EWarn "FutureWarning" (_build_deprecation_message self)) w1)
         else w1)
      = (Return outputs, w2) ->
      bound_callable self context_factory execution_ctx args kwargs w
      = if (List.length outputs =? List.length (declared_outputs self))%nat
        then (Return (make_Results (map fst (declared_outputs self)) outputs), w2)
        else (Raise (ValueError
                       (callable_outputs_msg (List.length outputs)
                          (List.length (declared_outputs self)))), w2))
  /\ (forall (self : Action) (context_factory : M Context)
             (execution_ctx : ExecutionCtx) (args : list value) (kwargs : keywords)
             (w w' : World) (results : Results),
        bound_callable self context_factory execution_ctx args kwargs w
        = (Return results, w') ->
        map fst results = map fst (declared_outputs self)
        /\ List.length results = List.length (declared_outputs self))
  /\ (forall (self : Action) (ctx : Context) (view_args : keywords)
             (output_types : list (string * QType)) (provenance : Provenance)
             (w w1 : World) (returned : value),
        _callable self MethodFrame view_args w = (Return returned, w1) ->
        List.length (tuplize returned) <> List.length output_types ->
        Method_callable_executor_ self ctx view_args output_types provenance w
        = (Raise (TypeError
                    (output_views_msg (List.length (tuplize returned))
                       (List.length output_types))), w1)).
Proof.
  split; [| split].
  - intros self context_factory execution_ctx args kwargs w w1 w2 ctx collated
           callable_args output_types prov_args outputs
           Hctx Hcollate Hcheck Hsolve Hcoerce Hprov Hexec.
    unfold bound_callable.
    rewrite (bind_Return _ _ _ _ _ Hctx).
    rewrite (bind_Return _ _ w1
               (if deprecated self
                then snd (emit (EWarn "FutureWarning" (_build_deprecation_message self)) w1)
                else w1) tt).
    2:{ destruct (deprecated self); reflexivity. }
    rewrite (bind_lift _ _ _ _ Hcollate), (bind_lift _ _ _ _ Hcheck),
      (bind_lift _ _ _ _ Hsolve), (bind_lift _ _ _ _ Hcoerce),
      (bind_lift _ _ _ _ Hprov).
    rewrite (bind_Return _ _ _ _ _ Hexec).
    destruct (List.length outputs =? List.length (declared_outputs self))%nat;
      reflexivity.
  - intros self context_factory execution_ctx args kwargs w w' results H.
    unfold bound_callable in H.
    repeat (apply bind_inv in H; destruct H as (? & ? & _ & H)).
    match type of H with
    | (if negb (?n =? ?m)%nat then _ else _) _ = _ =>
        destruct (Nat.eqb_spec n m) as [Hlen | Hlen]; cbn [negb] in H;
          [| discriminate H]
    end.
    inversion H; subst. unfold make_Results. split.
    + apply combine_names. rewrite length_map. exact Hlen.
    + rewrite length_combine, length_map, Hlen. apply Nat.min_id.
  - intros self ctx view_args output_types provenance w w1 returned Hcall Hlen.
    unfold Method_callable_executor_.
    rewrite (bind_Return _ _ _ _ _ Hcall).
    destruct (Nat.eqb_spec (List.length (tuplize returned)) (List.length output_types))
      as [Heq | Hneq]; [contradiction | reflexivity].
Qed.

(** ** Invocation fingerprints *)






(* ------------------------------------------------------------------ *)
(** ** Further properties of the engine *)
(* ------------------------------------------------------------------ *)

(** *** Induction on values through their lists and dictionaries *)

Lemma value_nested_ind (P : value -> Prop) :
  P VNone ->
  (forall b, P (VBool b)) ->
  (forall z, P (VInt z)) ->
  (forall s, P (VStr s)) ->
  (forall n, P (VCallable n)) ->
  (forall r, P (VResult r)) ->
  (forall p, P (VProxy p)) ->
  (forall c, Forall (fun kv => P (snd kv)) c -> P (VCollection c)) ->
  (forall l, Forall P l -> P (VList l)) ->
  (forall d, Forall (fun kv => P (snd kv)) d -> P (VDict d)) ->
  (forall l, Forall P l -> P (VTuple l)) ->
  forall v, P v.
Proof.
  intros HNone HBool HInt HStr HCallable HResult HProxy HCollection HList HDict HTuple.
  fix IH 1. intros v.
  destruct v as [| b | z | s | n | r | p | c | l | d | l].
  - exact HNone.
  - apply HBool.
  - apply HInt.
  - apply HStr.
  - apply HCallable.
  - apply HResult.
  - apply HProxy.
  - apply HCollection. induction c as [| [k x] c IHc]; constructor; [apply IH | exact IHc].
  - apply HList. induction l as [| x l IHl]; constructor; [apply IH | exact IHl].
  - apply HDict. induction d as [| [k x] d IHd]; constructor; [apply IH | exact IHd].
  - apply HTuple. induction l as [| x l IHl]; constructor; [apply IH | exact IHl].
Qed.

(** *** The loops inside [_map_arg] and [_unmap_arg] *)

Lemma _map_arg_list (l : list value) (futures : list FutureRef) :
  _map_arg (VList l) futures
  = (VList (fst (map_args l futures)), snd (map_args l futures)).
Proof.
  revert futures. induction l as [| x l IH]; intros futures.
  - reflexivity.
  - specialize (IH (snd (_map_arg x futures))).
    simpl in *. destruct (_map_arg x futures) as [mapped futures1]. simpl in *.
    destruct (map_args l futures1) as [rest futures2]. simpl in *.
    match type of IH with
    | (let (_, _) := ?t in _) = _ => destruct t as [rest' futures2']
    end.
    inversion IH. reflexivity.
Qed.

Lemma _map_arg_dict (d : list (PyKey * value)) (futures : list FutureRef) :
  _map_arg (VDict d) futures
  = (VDict (fst (map_dict d futures)), snd (map_dict d futures)).
Proof.
  revert futures. induction d as [| [key x] d IH]; intros futures.
  - reflexivity.
  - specialize (IH (snd (_map_arg x futures))).
    simpl in *. destruct (_map_arg x futures) as [mapped futures1]. simpl in *.
    destruct (map_dict d futures1) as [rest futures2]. simpl in *.
    match type of IH with
    | (let (_, _) := ?t in _) = _ => destruct t as [rest' futures2']
    end.
    inversion IH. reflexivity.
Qed.

Lemma _unmap_arg_list (l : list value) (inputs : list (list (string * Materialised))) :
  _unmap_arg (VList l) inputs
  = obind (unmap_args l inputs) (fun unmapped => Return (VList unmapped)).
Proof.
  induction l as [| x l IH].
  - reflexivity.
  - simpl in *. destruct (_unmap_arg x inputs) as [y | e]; simpl; [| reflexivity].
    destruct (unmap_args l inputs) as [ys | e]; simpl in *;
      match type of IH with
      | obind ?t _ = _ => destruct t; simpl in *
      end; congruence.
Qed.

Lemma _unmap_arg_dict (d : list (PyKey * value))
    (inputs : list (list (string * Materialised))) :
  _unmap_arg (VDict d) inputs
  = obind (unmap_dict d inputs) (fun unmapped => Return (VDict unmapped)).
Proof.
  induction d as [| [key x] d IH].
  - reflexivity.
  - simpl in *. destruct (_unmap_arg x inputs) as [y | e]; simpl; [| reflexivity].
    destruct (unmap_dict d inputs) as [ys | e]; simpl in *;
      match type of IH with
      | obind ?t _ = _ => destruct t; simpl in *
      end; congruence.
Qed.

Lemma handles_list (l : list value) : handles (VList l) = handles_of_list l.
Proof.
  induction l as [| x l IH]; [reflexivity |].
  simpl in *. now rewrite IH.
Qed.

Lemma handles_dict (d : list (PyKey * value)) : handles (VDict d) = handles_of_dict d.
Proof.
  induction d as [| [key x] d IH]; [reflexivity |].
  simpl in *. unfold handles_of_dict in *. simpl. now rewrite IH.
Qed.

Lemma resolved_list_eq (resolve : FutureRef -> list (string * Materialised))
    (l : list value) :
  resolved resolve (VList l)
  = obind (resolved_list resolve l) (fun ys => Return (VList ys)).
Proof.
  induction l as [| x l IH]; [reflexivity |].
  simpl in *. destruct (resolved resolve x) as [y | e]; simpl; [| reflexivity].
  destruct (resolved_list resolve l) as [ys | e]; simpl in *;
    match type of IH with
    | obind ?t _ = _ => destruct t; simpl in *
    end; congruence.
Qed.

Lemma resolved_dict_eq (resolve : FutureRef -> list (string * Materialised))
    (d : list (PyKey * value)) :
  resolved resolve (VDict d)
  = obind (resolved_dict resolve d) (fun ys => Return (VDict ys)).
Proof.
  induction d as [| [key x] d IH]; [reflexivity |].
  simpl in *. destruct (resolved resolve x) as [y | e]; simpl; [| reflexivity].
  destruct (resolved_dict resolve d) as [ys | e]; simpl in *;
    match type of IH with
    | obind ?t _ = _ => destruct t; simpl in *
    end; congruence.
Qed.

(** *** What [_map_arg] does to the side list and to the handles *)

Lemma renumbered_app (n : nat) (ps qs : list Proxy) :
  renumbered n (ps ++ qs) = renumbered n ps ++ renumbered (n + List.length ps) qs.
Proof.
  revert n. induction ps as [| p ps IH]; intros n; simpl.
  - now rewrite Nat.add_0_r.
  - rewrite IH. do 3 f_equal. lia.
Qed.

Lemma map_args_appends (l : list value) :
  Forall map_arg_appends l ->
  forall futures : list FutureRef,
    snd (map_args l futures) = futures ++ map _future_ (handles_of_list l)
    /\ handles_of_list (fst (map_args l futures))
       = renumbered (List.length futures) (handles_of_list l).
Proof.
  induction 1 as [| x l Hx Hl IH]; intros futures.
  - simpl. now rewrite app_nil_r.
  - simpl. destruct (Hx futures) as [Hsnd Hfst].
    destruct (_map_arg x futures) as [mapped futures1] eqn:Ex.
    simpl in Hsnd, Hfst.
    try rewrite Ex in Hsnd. try rewrite Ex in Hfst. simpl in Hsnd, Hfst.
    destruct (IH futures1) as [Hsnd' Hfst'].
    destruct (map_args l futures1) as [rest futures2] eqn:El. simpl in *.
    subst futures1. split.
    + rewrite Hsnd', map_app, app_assoc. reflexivity.
    + rewrite Hfst, Hfst', renumbered_app, length_app, length_map. reflexivity.
Qed.

Lemma map_dict_appends (d : list (PyKey * value)) :
  Forall (fun kv => map_arg_appends (snd kv)) d ->
  forall futures : list FutureRef,
    snd (map_dict d futures) = futures ++ map _future_ (handles_of_dict d)
    /\ handles_of_dict (fst (map_dict d futures))
       = renumbered (List.length futures) (handles_of_dict d).
Proof.
  induction 1 as [| [key x] d Hx Hd IH]; intros futures.
  - simpl. now rewrite app_nil_r.
  - simpl. destruct (Hx futures) as [Hsnd Hfst].
    destruct (_map_arg x futures) as [mapped futures1] eqn:Ex.
    simpl in Hsnd, Hfst.
    try rewrite Ex in Hsnd. try rewrite Ex in Hfst. simpl in Hsnd, Hfst.
    destruct (IH futures1) as [Hsnd' Hfst'].
    destruct (map_dict d futures1) as [rest futures2] eqn:El. simpl in *.
    subst futures1. unfold handles_of_dict in *. simpl. split.
    + rewrite Hsnd', map_app, app_assoc. reflexivity.
    + rewrite Hfst, Hfst', renumbered_app, length_app, length_map. reflexivity.
Qed.

Lemma map_arg_appends_all : forall arg : value, map_arg_appends arg.
Proof.
  induction arg using value_nested_ind; intros futures;
    try (simpl; rewrite app_nil_r; split; reflexivity).
  - simpl. split; [reflexivity |].
    rewrite length_app. simpl. do 3 f_equal. lia.
  - rewrite _map_arg_list. cbn [fst snd]. rewrite !handles_list.
    now apply map_args_appends.
  - rewrite _map_arg_dict. cbn [fst snd]. rewrite !handles_dict.
    now apply map_dict_appends.
Qed.





(** *** Mapping and unmapping an argument *)

Lemma unmap_args_inverts_map_args
    (resolve : FutureRef -> list (string * Materialised)) (l : list value) :
  Forall (unmap_inverts_map resolve) l ->
  forall futures more : list FutureRef,
    unmap_args (fst (map_args l futures))
               (map resolve (snd (map_args l futures) ++ more))
    = resolved_list resolve l.
Proof.
  induction 1 as [| x l Hx Hl IH]; intros futures more.
  - reflexivity.
  - simpl.
    pose proof (Hx futures) as Hx'.
    destruct (map_arg_appends_all x futures) as [Hsnd _].
    destruct (_map_arg x futures) as [mapped futures1] eqn:Ex.
    simpl in Hx', Hsnd.
    try rewrite Ex in Hx'. try rewrite Ex in Hsnd. simpl in Hx', Hsnd.
    pose proof (IH futures1 more) as IH'.
    assert (Hall : Forall map_arg_appends l)
      by (apply Forall_forall; intros; apply map_arg_appends_all).
    destruct (map_args_appends l Hall futures1) as [Hsnd' _].
    destruct (map_args l futures1) as [rest futures2] eqn:El. simpl in *.
    rewrite Hsnd'. rewrite <- app_assoc. rewrite Hx'.
    destruct (resolved resolve x) as [y | e]; simpl; [| reflexivity].
    rewrite app_assoc, <- Hsnd', IH'. reflexivity.
Qed.

Lemma unmap_dict_inverts_map_dict
    (resolve : FutureRef -> list (string * Materialised)) (d : list (PyKey * value)) :
  Forall (fun kv => unmap_inverts_map resolve (snd kv)) d ->
  forall futures more : list FutureRef,
    unmap_dict (fst (map_dict d futures))
               (map resolve (snd (map_dict d futures) ++ more))
    = resolved_dict resolve d.
Proof.
  induction 1 as [| [key x] d Hx Hd IH]; intros futures more.
  - reflexivity.
  - simpl. simpl in Hx.
    pose proof (Hx futures) as Hx'.
    destruct (map_arg_appends_all x futures) as [Hsnd _].
    destruct (_map_arg x futures) as [mapped futures1] eqn:Ex.
    simpl in Hx', Hsnd.
    try rewrite Ex in Hx'. try rewrite Ex in Hsnd. simpl in Hx', Hsnd.
    pose proof (IH futures1 more) as IH'.
    assert (Hall : Forall (fun kv : PyKey * value => map_arg_appends (snd kv)) d)
      by (apply Forall_forall; intros; apply map_arg_appends_all).
    destruct (map_dict_appends d Hall futures1) as [Hsnd' _].
    destruct (map_dict d futures1) as [rest futures2] eqn:El. simpl in *.
    rewrite Hsnd'. rewrite <- app_assoc. rewrite Hx'.
    destruct (resolved resolve x) as [y | e]; simpl; [| reflexivity].
    rewrite app_assoc, <- Hsnd', IH'. reflexivity.
Qed.

Lemma nth_error_map_middle {A B} (f : A -> B) (l : list A) (x : A) (m : list A) :
  nth_error (map f ((l ++ [x]) ++ m)) (List.length (l ++ [x]) - 1) = Some (f x).
Proof.
  rewrite length_app. simpl. replace (List.length l + 1 - 1) with (List.length l) by lia.
  rewrite <- app_assoc, map_app. simpl.
  rewrite nth_error_app2; rewrite length_map; [| lia].
  now rewrite Nat.sub_diag.
Qed.

Lemma unmap_inverts_map_all (resolve : FutureRef -> list (string * Materialised)) :
  forall arg : value, unmap_inverts_map resolve arg.
Proof.
  induction arg using value_nested_ind; intros futures more; try reflexivity.
  - cbn [_map_arg fst snd _unmap_arg _future_ _selector_ resolved].
    rewrite nth_error_map_middle. reflexivity.
  - rewrite _map_arg_list. cbn [fst snd].
    rewrite _unmap_arg_list, resolved_list_eq.
    now rewrite unmap_args_inverts_map_args.
  - rewrite _map_arg_dict. cbn [fst snd].
    rewrite _unmap_arg_dict, resolved_dict_eq.
    now rewrite unmap_dict_inverts_map_dict.
Qed.

(** X2: [_unmap_arg] undoes [_map_arg]: when the inputs of the closure are what
    the futures of the side list resolved to, in the order of the side list,
    unmapping a mapped argument gives the argument with every handle
    replaced by the element it selects from what its own future resolved
    to, or the first error of such a selection.  An index out of range
    cannot occur, whatever followed the argument in the side list. *)
Theorem unmap_arg_inverts_map_arg :
  forall (resolve : FutureRef -> list (string * Materialised))
         (arg : value) (futures more : list FutureRef),
    _unmap_arg (fst (_map_arg arg futures))
               (map resolve (snd (_map_arg arg futures) ++ more))
    = resolved resolve arg.
Proof. intros resolve arg. apply unmap_inverts_map_all. Qed.


(** *** The arguments of a submitted app *)

Lemma dict_set_absent {K V} (eqb : K -> K -> bool) (k : K) (v : V) (d : list (K * V)) :
  (forall kv, In kv d -> eqb k (fst kv) = false) ->
  dict_set eqb k v d = d ++ [(k, v)].
Proof.
  induction d as [| [k' v'] d IH]; intros Hfresh; simpl.
  - reflexivity.
  - pose proof (Hfresh (k', v') (or_introl eq_refl)) as Hk. simpl in Hk.
    rewrite Hk. rewrite IH; [reflexivity |].
    intros kv Hin. apply Hfresh. right. exact Hin.
Qed.

Lemma map_kwargs_in_order (kwargs : keywords) :
  NoDup (map fst kwargs) ->
  forall (futures : list FutureRef) (mapped : keywords),
    (forall kv, In kv mapped -> ~ In (fst kv) (map fst kwargs)) ->
    map_kwargs kwargs futures mapped
    = (mapped ++ combine (map fst kwargs) (fst (map_args (map snd kwargs) futures)),
       snd (map_args (map snd kwargs) futures)).
Proof.
  induction kwargs as [| [key x] kwargs IH]; intros Hnodup futures mapped Hfresh.
  - simpl. now rewrite app_nil_r.
  - simpl in Hnodup. inversion Hnodup as [| k l Hnotin Hnodup']; subst.
    simpl. destruct (_map_arg x futures) as [m futures1].
    rewrite dict_set_absent.
    + rewrite IH; [| exact Hnodup' |].
      * destruct (map_args (map snd kwargs) futures1) as [rest futures2]. simpl.
        now rewrite <- app_assoc.
      * intros kv Hin. apply in_app_or in Hin. destruct Hin as [Hin | [Heq | []]].
        -- intros Hin'. apply (Hfresh kv Hin). simpl. right. exact Hin'.
        -- subst kv. exact Hnotin.
    + intros kv Hin. apply String.eqb_neq. intros Heq.
      apply (Hfresh kv Hin). simpl. left. exact Heq.
Qed.

Lemma unmap_kwargs_in_order (mapped_kwargs : keywords)
    (inputs : list (list (string * Materialised))) :
  NoDup (map fst mapped_kwargs) ->
  forall kwargs : keywords,
    (forall kv, In kv kwargs -> ~ In (fst kv) (map fst mapped_kwargs)) ->
    unmap_kwargs mapped_kwargs inputs kwargs
    = obind (unmap_args (map snd mapped_kwargs) inputs)
            (fun values => Return (kwargs ++ combine (map fst mapped_kwargs) values)).
Proof.
  induction mapped_kwargs as [| [key x] mapped_kwargs IH]; intros Hnodup kwargs Hfresh.
  - simpl. now rewrite app_nil_r.
  - simpl in Hnodup. inversion Hnodup as [| k l Hnotin Hnodup']; subst.
    simpl. destruct (_unmap_arg x inputs) as [y | e]; simpl; [| reflexivity].
    rewrite dict_set_absent.
    + rewrite IH; [| exact Hnodup' |].
      * destruct (unmap_args (map snd mapped_kwargs) inputs) as [ys | e]; simpl;
          [| reflexivity].
        now rewrite <- app_assoc.
      * intros kv Hin. apply in_app_or in Hin. destruct Hin as [Hin | [Heq | []]].
        -- intros Hin'. apply (Hfresh kv Hin). simpl. right. exact Hin'.
        -- subst kv. exact Hnotin.
    + intros kv Hin. apply String.eqb_neq. intros Heq.
      apply (Hfresh kv Hin). simpl. left. exact Heq.
Qed.

Lemma resolved_dict_values {K} (resolve : FutureRef -> list (string * Materialised))
    (d : list (K * value)) :
  resolved_dict resolve d
  = obind (resolved_list resolve (map snd d))
          (fun values => Return (combine (map fst d) values)).
Proof.
  induction d as [| [key x] d IH]; [reflexivity |].
  simpl. destruct (resolved resolve x) as [y | e]; simpl; [| reflexivity].
  rewrite IH. destruct (resolved_list resolve (map snd d)); reflexivity.
Qed.

Lemma map_args_length (l : list value) :
  forall futures : list FutureRef,
    List.length (fst (map_args l futures)) = List.length l.
Proof.
  induction l as [| x l IH]; intros futures; [reflexivity |].
  simpl. destruct (_map_arg x futures) as [m futures1].
  specialize (IH futures1).
  destruct (map_args l futures1) as [rest futures2]. simpl in *. now rewrite IH.
Qed.

Lemma map_args_appends_all (l : list value) (futures : list FutureRef) :
  snd (map_args l futures) = futures ++ map _future_ (handles_of_list l).
Proof.
  apply map_args_appends. apply Forall_forall. intros; apply map_arg_appends_all.
Qed.

Lemma unmap_args_inverts_all (resolve : FutureRef -> list (string * Materialised))
    (l : list value) (futures more : list FutureRef) :
  unmap_args (fst (map_args l futures))
             (map resolve (snd (map_args l futures) ++ more))
  = resolved_list resolve l.
Proof.
  apply unmap_args_inverts_map_args.
  apply Forall_forall. intros; apply unmap_inverts_map_all.
Qed.

(** X3: With the positional arguments mapped first and the keyword arguments
    after them into one side list, as [_dispatch_] does, and the inputs
    being what the futures of that side list resolved to, the closure
    [_run_parsl_action] calls the action on the original arguments with
    every handle replaced by the element it selects from its resolved
    future, keyword by keyword in the original order; the side list holds
    the futures of the handles of the positional arguments followed by
    those of the keyword arguments. *)
Theorem run_parsl_action_gets_resolved_arguments :
  forall (resolve : FutureRef -> list (string * Materialised))
         (self ctx : Context) (execution_ctx : ExecutionCtx)
         (args : list value) (kwargs : keywords),
    NoDup (map fst kwargs) ->
    let mapped_args := fst (map_args args []) in
    let futures1 := snd (map_args args []) in
    let mapped_kwargs := fst (map_kwargs kwargs futures1 []) in
    let futures := snd (map_kwargs kwargs futures1 []) in
    futures = map _future_ (handles_of_list args ++ handles_of_dict kwargs)
    /\ unmap_args mapped_args (map resolve futures) = resolved_list resolve args
    /\ unmap_kwargs mapped_kwargs (map resolve futures) []
       = resolved_dict resolve kwargs
    /\ _run_parsl_action self ctx execution_ctx mapped_args mapped_kwargs
         (map resolve futures)
       = bind (lift (resolved_list resolve args)) (fun args' =>
         bind (lift (resolved_dict resolve kwargs)) (fun kwargs' =>
         bind (the_action_obj ctx) (fun action =>
         _bind action (ret self) execution_ctx args' kwargs'))).
Proof.
  intros resolve self ctx execution_ctx args kwargs Hnodup.
  cbv zeta.
  rewrite (map_kwargs_in_order kwargs Hnodup _ []) by (intros kv []).
  cbn [fst snd app].
  assert (Hfutures :
    snd (map_args (map snd kwargs) (snd (map_args args [])))
    = map _future_ (handles_of_list args ++ handles_of_dict kwargs)).
  { rewrite !map_args_appends_all, map_app. simpl.
    do 2 f_equal. unfold handles_of_list, handles_of_dict.
    clear. induction kwargs as [| [k x] kwargs IH]; simpl; [reflexivity |].
    now rewrite IH. }
  assert (Hargs :
    unmap_args (fst (map_args args []))
      (map resolve (snd (map_args (map snd kwargs) (snd (map_args args [])))))
    = resolved_list resolve args).
  { rewrite (map_args_appends_all (map snd kwargs)).
    apply unmap_args_inverts_all. }
  assert (Hkeys :
    map fst (combine (map fst kwargs)
               (fst (map_args (map snd kwargs) (snd (map_args args [])))))
    = map fst kwargs).
  { apply combine_names. now rewrite map_args_length, !length_map. }
  assert (Hvalues :
    map snd (combine (map fst kwargs)
               (fst (map_args (map snd kwargs) (snd (map_args args [])))))
    = fst (map_args (map snd kwargs) (snd (map_args args [])))).
  { generalize (map_args_length (map snd kwargs) (snd (map_args args []))).
    generalize (fst (map_args (map snd kwargs) (snd (map_args args [])))).
    clear. induction kwargs as [| [k x] kwargs IH]; intros [| m ms] Hlen;
      simpl in *; try reflexivity; try discriminate Hlen.
    f_equal. apply IH. now inversion Hlen. }
  assert (Hkwargs :
    unmap_kwargs
      (combine (map fst kwargs)
         (fst (map_args (map snd kwargs) (snd (map_args args [])))))
      (map resolve (snd (map_args (map snd kwargs) (snd (map_args args []))))) []
    = resolved_dict resolve kwargs).
  { rewrite unmap_kwargs_in_order; [| now rewrite Hkeys | intros kv []].
    rewrite Hkeys, Hvalues, resolved_dict_values.
    rewrite <- (app_nil_r (snd (map_args (map snd kwargs) (snd (map_args args []))))).
    rewrite unmap_args_inverts_all. reflexivity. }
  split; [exact Hfutures |]. split; [exact Hargs |]. split; [exact Hkwargs |].
  unfold _run_parsl_action. now rewrite Hargs, Hkwargs.
Qed.

(** *** The parallel entry point *)

(** X4: [Action.parallel] of a Method or a Visualizer raises [ValueError] and
    does nothing else: no context is built, the cache lock is not taken.
    [Action.parallel] of a Pipeline builds a parentless parallel context
    from the configuration as it is at that moment and runs the pipeline
    inline in that context, as a bound call with the execution context
    [{'type': 'parsl', 'parsl_type': 'DFK'}]; it submits nothing itself and
    does not need a loaded configuration. *)
Theorem parallel_entry_point_runs_pipelines_inline :
  forall (self : Action) (args : list value) (kwargs : keywords) (w : World),
    _dynamic_parsl self args kwargs w =
    match type self with
    | Pipeline =>
        bind (bound_callable self (ret (parallel_root self w))
                (mkExecutionCtx "parsl" (Some "DFK"))
                (VCallable (id self) :: args) kwargs)
             (fun results => ret (DResults results))
             (with_events w (root_events w))
    | _ => (Raise (ValueError "Only pipelines may be run in parallel"), w)
    end.
Proof.
  intros self args kwargs w.
  unfold _dynamic_parsl, _rewrite_wrapper_signature, parsl_wrapper.
  destruct (type self) eqn:Htype; try reflexivity.
  assert (Hinit : ParallelContext__init__ (Some self) None w
                  = (Return (parallel_root self w), with_events w (root_events w))).
  { destruct w as [[pp np] pc fs lg]. unfold with_events, root_events, parallel_root.
    destruct np as [pool |]; cbn; rewrite <- ?app_assoc; reflexivity. }
  rewrite (bind_Return _ _ _ _ _ Hinit).
  unfold ParallelContext_dispatch_. cbn [without_callable].
  destruct (map_args args []) as [mapped_args futures1].
  destruct (map_kwargs kwargs futures1 []) as [mapped_kwargs futures2].
  unfold the_action_obj, parallel_root at 1. cbn [action_obj].
  unfold bind at 1. cbn [ret]. rewrite Htype. reflexivity.
Qed.

(** *** Dispatch of a leaf action with a loaded configuration *)

Lemma leaf_dispatch_reaches_guard :
  forall (self : Context) (action : Action) (args : list value)
         (kwargs : keywords) (w : World) (executors : list (string * string)),
    action_obj self = Some action ->
    type action <> Pipeline ->
    parallel_config (PARALLEL_CONFIG w) = Some executors ->
    ParallelContext_dispatch_ self args kwargs w
    = bind (match executor_name_type_mapping self with
            | None => raise (TypeError "'NoneType' object is not subscriptable")
            | Some mapping =>
                lift (dict_getitem String.eqb (routed_executor self action)
                        (routed_executor self action) mapping)
            end)
           (fun executor_type =>
              bind (python_app (routed_executor self action) self
                      (mkExecutionCtx "parsl" (Some executor_type))
                      (fst (map_args (without_callable args) []))
                      (fst (map_kwargs kwargs
                              (snd (map_args (without_callable args) [])) []))
                      (snd (map_kwargs kwargs
                              (snd (map_args (without_callable args) [])) [])))
                   (fun future =>
                      bind (lift (collate_inputs (signature action)
                                    (without_callable args) kwargs))
                           (fun collated_input =>
                              bind (lift (solve_output (signature action) collated_input))
                                   (fun output_types =>
                                      ret (DProxyResults future output_types))))) w.
Proof.
  intros self action args kwargs w executors Hobj Hleaf Hconfig.
  unfold ParallelContext_dispatch_. fold (without_callable args).
  destruct (map_args (without_callable args) []) as [mapped_args futures1].
  cbn [fst snd].
  destruct (map_kwargs kwargs futures1 []) as [mapped_kwargs futures2].
  cbn [fst snd].
  unfold the_action_obj. rewrite Hobj.
  unfold bind at 1. cbn [ret]. fold (routed_executor self action).
  destruct (type action); try (exfalso; apply Hleaf; reflexivity);
    unfold bind at 1, get_world; rewrite Hconfig; reflexivity.
Qed.

(** X5: With a loaded configuration, a leaf action is submitted exactly once, to
    the executor it is routed to (["default"] when the routing table has no
    entry for it), with the mapped arguments and the side list of futures,
    and the call returns the future of that app with the solved output
    types.  The inputs are collated after the app is submitted: when they
    do not collate, or the output types cannot be solved, the call raises
    but the app stays submitted. *)
Theorem leaf_dispatch_submits_once :
  forall (self : Context) (action : Action) (args : list value)
         (kwargs : keywords) (w : World) (executors mapping : list (string * string))
         (executor_type : string),
    action_obj self = Some action ->
    type action <> Pipeline ->
    parallel_config (PARALLEL_CONFIG w) = Some executors ->
    executor_name_type_mapping self = Some mapping ->
    dict_get String.eqb (routed_executor self action) mapping = Some executor_type ->
    let positional := without_callable args in
    let submitted :=
      with_events w
        [ESubmit (routed_executor self action) (name action)
           (mkExecutionCtx "parsl" (Some executor_type))
           (fst (map_args positional []))
           (fst (map_kwargs kwargs (snd (map_args positional [])) []))
           (snd (map_kwargs kwargs (snd (map_args positional [])) []))] in
    ParallelContext_dispatch_ self args kwargs w
    = match obind (collate_inputs (signature action) positional kwargs)
                  (solve_output (signature action)) with
      | Return output_types =>
          (Return (DProxyResults (FutureObj (count_submitted (log w))) output_types),
           submitted)
      | Raise e => (Raise e, submitted)
      end.
Proof.
  intros self action args kwargs w executors mapping executor_type
         Hobj Hleaf Hconfig Hmapping Hexecutor positional submitted.
  rewrite (leaf_dispatch_reaches_guard _ _ _ _ _ _ Hobj Hleaf Hconfig).
  rewrite Hmapping. unfold dict_getitem. rewrite Hexecutor.
  rewrite (bind_lift _ _ _ _ eq_refl).
  fold positional.
  rewrite (bind_Return _ _ w submitted (FutureObj (count_submitted (log w)))).
  2:{ unfold python_app, the_action_obj. rewrite Hobj.
      unfold bind, get_world, emit, ret. reflexivity. }
  destruct (collate_inputs (signature action) positional kwargs) as [collated | e];
    [| reflexivity].
  rewrite (bind_lift _ _ _ _ eq_refl). cbn [obind].
  destruct (solve_output (signature action) collated) as [output_types | e];
    reflexivity.
Qed.

(** X6: With a loaded configuration, a leaf action whose context has no table
    of executor types (it was built while no configuration was loaded)
    fails with [TypeError], and one routed to an executor that is missing
    from the table fails with [KeyError]; in both cases nothing is
    submitted. *)
Theorem leaf_dispatch_needs_executor_type :
  forall (self : Context) (action : Action) (args : list value)
         (kwargs : keywords) (w : World) (executors : list (string * string)),
    action_obj self = Some action ->
    type action <> Pipeline ->
    parallel_config (PARALLEL_CONFIG w) = Some executors ->
    (executor_name_type_mapping self = None ->
     ParallelContext_dispatch_ self args kwargs w
     = (Raise (TypeError "'NoneType' object is not subscriptable"), w))
    /\ (forall mapping : list (string * string),
          executor_name_type_mapping self = Some mapping ->
          dict_get String.eqb (routed_executor self action) mapping = None ->
          ParallelContext_dispatch_ self args kwargs w
          = (Raise (KeyError (routed_executor self action)), w)).
Proof.
  intros self action args kwargs w executors Hobj Hleaf Hconfig.
  split.
  - intros Hnone.
    rewrite (leaf_dispatch_reaches_guard _ _ _ _ _ _ Hobj Hleaf Hconfig).
    rewrite Hnone. reflexivity.
  - intros mapping Hmapping Hmissing.
    rewrite (leaf_dispatch_reaches_guard _ _ _ _ _ _ Hobj Hleaf Hconfig).
    rewrite Hmapping. unfold dict_getitem. rewrite Hmissing. reflexivity.
Qed.

(** *** Looking up an action from a context *)

Lemma replace_replaced (old new : ascii) (s : string) :
  old <> new -> replace old new (replace old new s) = replace old new s.
Proof.
  intros Hneq. induction s as [| c s IH]; simpl; [reflexivity |].
  rewrite IH. f_equal.
  destruct (Ascii.eqb c old) eqn:Hc.
  - destruct (Ascii.eqb new old) eqn:Hn; [| reflexivity].
    apply Ascii.eqb_eq in Hn. congruence.
  - now rewrite Hc.
Qed.

(** X7: [get_action] of a base or of a parallel context looks the plugin up
    under its name with underscores turned into hyphens, so a name and its
    hyphenated form give the same answer, and the action under its name as
    it is.  An unknown plugin or action raises [ValueError]; otherwise the
    callable of a child context is returned, whose parent is the context
    asked, whose class is the class of that context and which, in a
    parallel context, has the routing tables of that context.  In every
    case the world is left as it was: neither the lock is taken nor the
    index built. *)
Theorem get_action_builds_a_child :
  forall (self : Context) (plugin action : string) (w : World),
    context_class self <> AsynchronousContext ->
    get_action self plugin action w =
    match dict_get String.eqb (replace "_" "-" plugin) plugins with
    | None => (Raise (ValueError "A plugin named %r could not be found."), w)
    | Some actions =>
        match dict_get String.eqb action actions with
        | None =>
            (Raise (ValueError "An action named %r was not found for plugin %r"), w)
        | Some new_action_obj => (Return (child_callable self new_action_obj), w)
        end
    end
    /\ get_action self (replace "_" "-" plugin) action w
       = get_action self plugin action w.
Proof.
  intros self plugin action w _.
  assert (Hget : forall plugin,
    get_action self plugin action w =
    match dict_get String.eqb (replace "_" "-" plugin) plugins with
    | None => (Raise (ValueError "A plugin named %r could not be found."), w)
    | Some actions =>
        match dict_get String.eqb action actions with
        | None =>
            (Raise (ValueError "An action named %r was not found for plugin %r"), w)
        | Some new_action_obj => (Return (child_callable self new_action_obj), w)
        end
    end).
  { clear plugin. intros plugin. unfold get_action.
    destruct (dict_get String.eqb (replace "_" "-" plugin) plugins) as [actions |];
      [| reflexivity].
    destruct (dict_get String.eqb action actions) as [new_action_obj |];
      [| reflexivity].
    unfold child_callable, child_context.
    destruct (context_class self); reflexivity. }
  split; [apply Hget |].
  rewrite !Hget, replace_replaced; [reflexivity | discriminate].
Qed.

(** *** Reloading cached results *)

Lemma named_pool_load_found (pool : NamedPool) (key : nat) (r : Result) (w : World) :
  named_pool (cache w) = Some pool ->
  find_uuid key (np_data pool) = Some r ->
  named_pool_load key w = (Return r, with_events w [ENamedPoolLoad key]).
Proof.
  intros Hpool Hfind. unfold named_pool_load, the_named_pool, bind, get_world.
  rewrite Hpool. cbn [ret emit]. rewrite Hfind. reflexivity.
Qed.

Lemma named_pool_load_gone (pool : NamedPool) (key : nat) (w : World) :
  named_pool (cache w) = Some pool ->
  find_uuid key (np_data pool) = None ->
  named_pool_load key w
  = (Raise (KeyError "named_pool.load"), with_events w [ENamedPoolLoad key]).
Proof.
  intros Hpool Hfind. unfold named_pool_load, the_named_pool, bind, get_world.
  rewrite Hpool. cbn [ret emit]. rewrite Hfind. reflexivity.
Qed.

Lemma dict_update_fresh {K V} (eqb : K -> K -> bool) (items : list (K * V)) :
  (forall k k', eqb k k' = true -> k = k') ->
  NoDup (map fst items) ->
  forall d : list (K * V),
    (forall kv, In kv d -> ~ In (fst kv) (map fst items)) ->
    dict_update eqb items d = d ++ items.
Proof.
  intros Heqb. unfold dict_update.
  induction items as [| [k v] items IH]; intros Hnodup d Hfresh; simpl.
  - now rewrite app_nil_r.
  - inversion Hnodup as [| k0 l Hnotin Hnodup']; subst.
    rewrite dict_set_absent.
    + rewrite IH; [now rewrite <- app_assoc | exact Hnodup' |].
      intros kv Hin. apply in_app_or in Hin. destruct Hin as [Hin | [Heq | []]].
      * intros Hin'. apply (Hfresh kv Hin). right. exact Hin'.
      * subst kv. exact Hnotin.
    + intros kv Hin. destruct (eqb k (fst kv)) eqn:Hk; [| reflexivity].
      exfalso. apply (Hfresh kv Hin). left. simpl. now apply Heqb.
Qed.

Lemma load_outputs_plain_prefix (pool : NamedPool)
    (cached_outputs : list (string * CachedOutput))
    (rest : list (string * QType)) :
  forall (before : list (string * QType)) (keys : list nat) (loaded : list Result)
         (acc : Results) (w : World),
    named_pool (cache w) = Some pool ->
    Forall (fun d => is_collection_type (snd d) = false) before ->
    map (cached_key cached_outputs) (map fst before) = map Some keys ->
    map (fun key => find_uuid key (np_data pool)) keys = map Some loaded ->
    load_outputs (before ++ rest) cached_outputs acc w
    = load_outputs rest cached_outputs
        (dict_update String.eqb (combine (map fst before) (map VResult loaded)) acc)
        (with_events w (map ENamedPoolLoad keys)).
Proof.
  induction before as [| [name ty] before IH];
    intros keys loaded acc w Hpool Hplain Hkeys Hloaded.
  - destruct keys; [| discriminate Hkeys]. simpl. now rewrite with_events_nil.
  - destruct keys as [| key keys]; [discriminate Hkeys |].
    destruct loaded as [| r loaded]; [discriminate Hloaded |].
    simpl in Hkeys, Hloaded. inversion Hkeys as [[Hkey Hkeys']].
    inversion Hloaded as [[Hr Hloaded']]. inversion Hplain as [| d l Hty Hplain']; subst.
    simpl in Hty. cbn [app load_outputs]. rewrite Hty.
    unfold cached_key in Hkey. unfold dict_getitem.
    destruct (dict_get String.eqb name cached_outputs) as [[key' | elems] |];
      try discriminate Hkey.
    inversion Hkey; subst key'.
    rewrite (bind_lift _ _ _ _ eq_refl). unfold bind at 1. cbn [ret].
    rewrite (bind_Return _ _ _ _ _ (named_pool_load_found pool key r w Hpool Hr)).
    rewrite (IH keys loaded _ (with_events w [ENamedPoolLoad key])
               Hpool Hplain' Hkeys' Hloaded').
    rewrite with_events_app. reflexivity.
Qed.

Lemma check_cache_probes (self : Context) (action : Action) (args : list value)
    (kwargs collated callable_args : keywords) (pool : NamedPool) (w : World) :
  action_obj self = Some action ->
  named_pool (cache w) = Some pool ->
  collate_inputs (signature action) args kwargs = Return collated ->
  coerce_user_input (signature action) collated = Return callable_args ->
  _check_cache self args kwargs w
  = (if dict_mem invocation_eqb (make_invocation action callable_args) (np_index pool)
     then except_KeyError (_load_cache self (make_invocation action callable_args))
                          (ret None)
     else ret None)
      (with_events w [EProbe (plugin_action (make_invocation action callable_args))]).
Proof.
  intros Hobj Hpool Hcollate Hcoerce.
  unfold _check_cache.
  rewrite (bind_Return _ _ w w (make_invocation action callable_args)).
  2:{ unfold _check_cache_invocation, the_action_obj. rewrite Hobj.
      unfold bind at 1. cbn [ret]. rewrite Hcollate.
      rewrite (bind_lift _ _ _ _ eq_refl). rewrite Hcoerce. reflexivity. }
  unfold the_named_pool, bind, get_world. rewrite Hpool. reflexivity.
Qed.

Lemma load_cache_of_entry (self : Context) (action : Action) (pool : NamedPool)
    (invocation : HashableInvocation)
    (cached_outputs : list (string * CachedOutput)) (w : World) :
  action_obj self = Some action ->
  named_pool (cache w) = Some pool ->
  dict_get invocation_eqb invocation (np_index pool) = Some cached_outputs ->
  _load_cache self invocation w
  = load_outputs (declared_outputs action) cached_outputs [] w.
Proof.
  intros Hobj Hpool Hentry.
  unfold _load_cache, the_named_pool, the_action_obj, dict_getitem, bind, get_world.
  rewrite Hpool. cbn [ret lift]. rewrite Hentry, Hobj. reflexivity.
Qed.

(** X8: With a persistent pool whose index has an entry for the invocation,
    an action whose declared outputs are all plain results, each recorded
    under a key whose data is still in the pool, is recycled: [_check_cache]
    probes the index, loads the outputs in declared order and returns them
    under the declared names; and [_callable_action_] returns them as they
    are, without a dispatch, when at least one output is declared. *)
Theorem cached_plain_outputs_are_recycled :
  forall (self : Context) (action : Action) (args : list value)
         (kwargs collated callable_args : keywords) (pool : NamedPool) (w : World)
         (cached_outputs : list (string * CachedOutput))
         (keys : list nat) (loaded : list Result),
    action_obj self = Some action ->
    named_pool (cache w) = Some pool ->
    collate_inputs (signature action) args kwargs = Return collated ->
    coerce_user_input (signature action) collated = Return callable_args ->
    dict_get invocation_eqb (make_invocation action callable_args) (np_index pool)
    = Some cached_outputs ->
    NoDup (map fst (declared_outputs action)) ->
    Forall (fun d => is_collection_type (snd d) = false) (declared_outputs action) ->
    map (cached_key cached_outputs) (map fst (declared_outputs action))
    = map Some keys ->
    map (fun key => find_uuid key (np_data pool)) keys = map Some loaded ->
    let results :=
      make_Results (map fst (declared_outputs action)) (map VResult loaded) in
    let probed :=
      with_events w
        (EProbe (plugin_action (make_invocation action callable_args))
         :: map ENamedPoolLoad keys) in
    _check_cache self args kwargs w = (Return (Some results), probed)
    /\ (declared_outputs action <> [] ->
        forall f : value,
          Context_callable_action_ self (f :: args) kwargs w = (Return results, probed)).
Proof.
  intros self action args kwargs collated callable_args pool w cached_outputs
         keys loaded Hobj Hpool Hcollate Hcoerce Hentry Hnodup Hplain Hkeys Hloaded
         results probed.
  assert (Hlen : List.length (map VResult loaded)
                 = List.length (map fst (declared_outputs action))).
  { pose proof (f_equal (@List.length _) Hkeys) as Hk.
    pose proof (f_equal (@List.length _) Hloaded) as Hl.
    repeat rewrite length_map in Hk. repeat rewrite length_map in Hl.
    repeat rewrite length_map. congruence. }
  assert (Hcheck : _check_cache self args kwargs w = (Return (Some results), probed)).
  { rewrite (check_cache_probes _ _ _ _ _ _ _ _ Hobj Hpool Hcollate Hcoerce).
    unfold dict_mem. rewrite Hentry. unfold except_KeyError.
    set (w1 := with_events w
                 [EProbe (plugin_action (make_invocation action callable_args))]).
    assert (Hpool1 : named_pool (cache w1) = Some pool) by exact Hpool.
    rewrite (load_cache_of_entry _ _ _ _ _ w1 Hobj Hpool1 Hentry).
    rewrite <- (app_nil_r (declared_outputs action)) at 1.
    rewrite (load_outputs_plain_prefix pool cached_outputs [] _ keys loaded [] w1
               Hpool1 Hplain Hkeys Hloaded).
    subst w1.
    rewrite with_events_app. cbn [load_outputs ret app].
    rewrite dict_update_fresh.
    - reflexivity.
    - intros k k'. apply String.eqb_eq.
    - now rewrite combine_names.
    - intros kv []. }
  split; [exact Hcheck |].
  intros Hdeclared f.
  unfold Context_callable_action_. cbn [tl].
  unfold bind at 1, get_world. rewrite Hpool.
  rewrite (bind_Return _ _ _ _ _ Hcheck).
  subst results. unfold make_Results.
  destruct (declared_outputs action) as [| [name ty] declared]; [congruence |].
  destruct loaded as [| r loaded]; [discriminate Hlen |]. reflexivity.
Qed.

(** X9: An index entry whose data is gone is a miss: when the outputs declared
    before one load and that one is recorded under a key that the pool no
    longer holds, [_check_cache] swallows the [KeyError] and returns [None],
    without a warning, and [_callable_action_] dispatches the action in the
    world the probe left. *)
Theorem stale_index_entry_is_a_miss :
  forall (self : Context) (action : Action) (args : list value)
         (kwargs collated callable_args : keywords) (pool : NamedPool) (w : World)
         (cached_outputs : list (string * CachedOutput))
         (before after : list (string * QType)) (name : string) (ty : QType)
         (keys : list nat) (loaded : list Result) (key : nat),
    action_obj self = Some action ->
    named_pool (cache w) = Some pool ->
    collate_inputs (signature action) args kwargs = Return collated ->
    coerce_user_input (signature action) collated = Return callable_args ->
    dict_get invocation_eqb (make_invocation action callable_args) (np_index pool)
    = Some cached_outputs ->
    declared_outputs action = before ++ (name, ty) :: after ->
    Forall (fun d => is_collection_type (snd d) = false) before ->
    map (cached_key cached_outputs) (map fst before) = map Some keys ->
    map (fun key => find_uuid key (np_data pool)) keys = map Some loaded ->
    is_collection_type ty = false ->
    cached_key cached_outputs name = Some key ->
    find_uuid key (np_data pool) = None ->
    let probed :=
      with_events w
        (EProbe (plugin_action (make_invocation action callable_args))
         :: map ENamedPoolLoad (keys ++ [key])) in
    _check_cache self args kwargs w = (Return None, probed)
    /\ forall f : value,
         Context_callable_action_ self (f :: args) kwargs w
         = Context_dispatch_ self args kwargs probed.
Proof.
  intros self action args kwargs collated callable_args pool w cached_outputs
         before after name ty keys loaded key
         Hobj Hpool Hcollate Hcoerce Hentry Hdeclared Hplain Hkeys Hloaded
         Hty Hkey Hgone probed.
  assert (Hcheck : _check_cache self args kwargs w = (Return None, probed)).
  { rewrite (check_cache_probes _ _ _ _ _ _ _ _ Hobj Hpool Hcollate Hcoerce).
    unfold dict_mem. rewrite Hentry. unfold except_KeyError.
    set (w1 := with_events w
                 [EProbe (plugin_action (make_invocation action callable_args))]).
    assert (Hpool1 : named_pool (cache w1) = Some pool) by exact Hpool.
    rewrite (load_cache_of_entry _ _ _ _ _ w1 Hobj Hpool1 Hentry).
    rewrite Hdeclared.
    rewrite (load_outputs_plain_prefix pool cached_outputs _ _ keys loaded [] w1
               Hpool1 Hplain Hkeys Hloaded).
    subst w1.
    rewrite with_events_app. cbn [load_outputs]. rewrite Hty.
    unfold cached_key in Hkey. unfold dict_getitem.
    destruct (dict_get String.eqb name cached_outputs) as [[key' | elems] |];
      try discriminate Hkey.
    inversion Hkey; subst key'.
    rewrite (bind_lift _ _ _ _ eq_refl). unfold bind at 1. cbn [ret].
    rewrite (bind_Raise _ _ _ _ _
               (named_pool_load_gone pool key
                  (with_events w
                     ([EProbe (plugin_action (make_invocation action callable_args))]
                      ++ map ENamedPoolLoad keys)) Hpool Hgone)).
    rewrite with_events_app. subst probed.
    rewrite map_app, <- app_assoc. reflexivity. }
  split; [exact Hcheck |].
  intros f. unfold Context_callable_action_. cbn [tl].
  unfold bind at 1, get_world. rewrite Hpool.
  rewrite (bind_Return _ _ _ _ _ Hcheck). reflexivity.
Qed.

(** *** The order in which a cached collection is reloaded *)

Lemma insert_by_idx_permutation (x : IndexedCollectionElement)
    (l : list IndexedCollectionElement) :
  Permutation (x :: l) (insert_by_idx x l).
Proof.
  induction l as [| y l IH]; simpl.
  - apply Permutation_refl.
  - destruct (Z.leb (idx x) (idx y)).
    + apply Permutation_refl.
    + eapply perm_trans; [apply perm_swap | apply perm_skip, IH].
Qed.

Lemma sort_by_idx_permutation (l : list IndexedCollectionElement) :
  Permutation l (sort_by_idx l).
Proof.
  induction l as [| x l IH]; simpl.
  - apply perm_nil.
  - eapply perm_trans; [apply perm_skip, IH | apply insert_by_idx_permutation].
Qed.

Lemma insert_by_idx_sorted (x : IndexedCollectionElement)
    (l : list IndexedCollectionElement) :
  Sorted (fun a b => (idx a <= idx b)%Z) l ->
  Sorted (fun a b => (idx a <= idx b)%Z) (insert_by_idx x l).
Proof.
  induction l as [| y l IH]; intros Hsorted; simpl.
  - repeat constructor.
  - destruct (Z.leb_spec (idx x) (idx y)) as [Hle | Hgt].
    + constructor; [exact Hsorted | constructor; exact Hle].
    + inversion Hsorted as [| y' l' Hl Hhd]; subst.
      constructor; [apply IH; exact Hl |].
      destruct l as [| z l]; simpl.
      * constructor. lia.
      * destruct (Z.leb (idx x) (idx z)); constructor; [lia |].
        inversion Hhd; assumption.
Qed.

Lemma sort_by_idx_sorted (l : list IndexedCollectionElement) :
  Sorted (fun a b => (idx a <= idx b)%Z) (sort_by_idx l).
Proof.
  induction l as [| x l IH]; simpl.
  - constructor.
  - apply insert_by_idx_sorted, IH.
Qed.

Lemma load_elements_in_order (pool : NamedPool)
    (cached_collection : list (IndexedCollectionElement * nat))
    (key_of : IndexedCollectionElement -> nat)
    (loaded : IndexedCollectionElement -> Result) :
  forall (collection_order : list IndexedCollectionElement)
         (loaded_collection : list (PyKey * value)) (w : World),
    named_pool (cache w) = Some pool ->
    (forall elem_info, In elem_info collection_order ->
       dict_get elem_eqb elem_info cached_collection = Some (key_of elem_info)
       /\ find_uuid (key_of elem_info) (np_data pool) = Some (loaded elem_info)) ->
    NoDup (map item_name collection_order) ->
    (forall kv, In kv loaded_collection ->
       ~ In (fst kv) (map (fun elem_info => KStr (item_name elem_info)) collection_order)) ->
    load_elements collection_order cached_collection loaded_collection w
    = (Return (loaded_collection
               ++ map (fun elem_info =>
                         (KStr (item_name elem_info), VResult (loaded elem_info)))
                      collection_order),
       with_events w (map (fun elem_info => ENamedPoolLoad (key_of elem_info))
                          collection_order)).
Proof.
  induction collection_order as [| elem_info rest IH];
    intros loaded_collection w Hpool Hstored Hnodup Hfresh.
  - simpl. now rewrite app_nil_r, with_events_nil.
  - destruct (Hstored elem_info (or_introl eq_refl)) as [Hkey Hfind].
    inversion Hnodup as [| n l Hnotin Hnodup']; subst.
    cbn [load_elements]. unfold dict_getitem. rewrite Hkey.
    rewrite (bind_lift _ _ _ _ eq_refl).
    rewrite (bind_Return _ _ _ _ _
               (named_pool_load_found pool _ _ w Hpool Hfind)).
    rewrite dict_set_absent.
    + rewrite (IH _ (with_events w [ENamedPoolLoad (key_of elem_info)]) Hpool).
      * rewrite with_events_app, <- app_assoc. reflexivity.
      * intros e He. apply Hstored. right. exact He.
      * exact Hnodup'.
      * intros kv Hin. apply in_app_or in Hin.
        destruct Hin as [Hin | [Heq | []]].
        -- intros Hin'. apply (Hfresh kv Hin). right. exact Hin'.
        -- subst kv. simpl. intros Hin'. apply Hnotin.
           apply in_map_iff in Hin'. destruct Hin' as (e & He & Hin').
           injection He as Hname. rewrite <- Hname.
           apply in_map. exact Hin'.
    + intros kv Hin. destruct (PyKey_eqb (KStr (item_name elem_info)) (fst kv)) eqn:Hk;
        [| reflexivity].
      exfalso. apply (Hfresh kv Hin). left.
      destruct (fst kv) as [s | z]; simpl in Hk; [| discriminate Hk].
      apply String.eqb_eq in Hk. now rewrite Hk.
Qed.

Lemma validate_collection_complete (collection_order : list IndexedCollectionElement)
    (w : World) :
  complete collection_order = true ->
  _validate_collection collection_order w = (Return true, w).
Proof.
  destruct collection_order as [| first rest]; intros Hcomplete.
  - discriminate Hcomplete.
  - rewrite validate_collection_nonempty. unfold complete in Hcomplete.
    now rewrite Hcomplete.
Qed.

(** X10: A complete cached collection whose elements are all still in the pool
    is reloaded element by element in increasing order of the recorded
    [idx], whatever the order in which the index holds the elements
    (elements with equal [idx] keep that order), and is keyed by the
    recorded item names in that order. *)
Theorem cached_collection_is_reloaded_in_idx_order :
  forall (name : string) (ty : QType) (rest : list (string * QType))
         (cached_outputs : list (string * CachedOutput))
         (cached_collection : list (IndexedCollectionElement * nat))
         (loaded_outputs : Results) (pool : NamedPool) (w : World)
         (key_of : IndexedCollectionElement -> nat)
         (loaded : IndexedCollectionElement -> Result),
    is_collection_type ty = true ->
    named_pool (cache w) = Some pool ->
    dict_get String.eqb name cached_outputs = Some (CachedCollection cached_collection) ->
    complete (map fst cached_collection) = true ->
    NoDup (map item_name (map fst cached_collection)) ->
    (forall elem_info, In elem_info (map fst cached_collection) ->
       dict_get elem_eqb elem_info cached_collection = Some (key_of elem_info)
       /\ find_uuid (key_of elem_info) (np_data pool) = Some (loaded elem_info)) ->
    let collection_order := sort_by_idx (map fst cached_collection) in
    load_outputs ((name, ty) :: rest) cached_outputs loaded_outputs w
    = load_outputs rest cached_outputs
        (dict_set String.eqb name
           (VCollection
              (map (fun elem_info =>
                      (KStr (item_name elem_info), VResult (loaded elem_info)))
                   collection_order))
           loaded_outputs)
        (with_events w
           (map (fun elem_info => ENamedPoolLoad (key_of elem_info)) collection_order))
    /\ Sorted (fun a b => (idx a <= idx b)%Z) collection_order
    /\ Permutation (map fst cached_collection) collection_order.
Proof.
  intros name ty rest cached_outputs cached_collection loaded_outputs pool w
         key_of loaded Hty Hpool Hcached Hcomplete Hnodup Hstored collection_order.
  pose proof (sort_by_idx_permutation (map fst cached_collection)) as Hperm.
  split; [| split; [apply sort_by_idx_sorted | exact Hperm]].
  cbn [load_outputs]. rewrite Hty.
  unfold dict_getitem. rewrite Hcached.
  rewrite (bind_lift _ _ _ _ eq_refl). unfold bind at 1. cbn [ret].
  rewrite (bind_Return _ _ _ _ _ (validate_collection_complete _ w Hcomplete)).
  cbn [negb].
  rewrite (bind_Return _ _ _ _ _
             (load_elements_in_order pool cached_collection key_of loaded
                collection_order [] w Hpool
                (fun e He => Hstored e (Permutation_in e (Permutation_sym Hperm) He))
                (Permutation_NoDup (Permutation_map item_name Hperm) Hnodup)
                (fun kv Hin => match Hin with end))).
  reflexivity.
Qed.

(** *** A cached collection is served whole or not at all *)

Lemma complete_total (collection_order : list IndexedCollectionElement) :
  complete collection_order = true ->
  Forall (fun elem => total elem = Z.of_nat (List.length collection_order))
         collection_order.
Proof.
  destruct collection_order as [| first rest]; [constructor |].
  unfold complete. intros H. apply andb_prop in H. destruct H as [Hagree Hcount].
  apply Z.eqb_eq in Hcount. rewrite Hcount.
  apply Forall_forall. intros elem Helem.
  rewrite forallb_forall in Hagree. apply Z.eqb_eq. now apply Hagree.
Qed.

(** C2: for a collection-typed output whose index entry records at least
    one element.  When the recorded elements do not all declare the total
    of the first one, or their number is not that total, [_load_cache]
    warns that the collection will be remade and returns [None]: the
    probe is a miss and [_callable_action_] dispatches the action.  The
    entry is accepted only when it is complete, and an accepted entry whose
    elements are still in the pool is served whole: the collection that is
    loaded has as many elements as every recorded element declares. *)
Theorem cached_collection_is_served_only_when_complete :
  forall (name : string) (ty : QType) (rest : list (string * QType))
         (cached_outputs : list (string * CachedOutput))
         (cached_collection : list (IndexedCollectionElement * nat))
         (loaded_outputs : Results) (pool : NamedPool) (w : World),
    is_collection_type ty = true ->
    named_pool (cache w) = Some pool ->
    dict_get String.eqb name cached_outputs = Some (CachedCollection cached_collection) ->
    cached_collection <> [] ->
    (complete (map fst cached_collection) = false ->
     load_outputs ((name, ty) :: rest) cached_outputs loaded_outputs w
     = (Return None, with_events w [EWarn "UserWarning" incomplete_collection_msg]))
    /\ (complete (map fst cached_collection) = false ->
        forall (self : Context) (action : Action) (args : list value)
               (kwargs collated callable_args : keywords)
               (before : list (string * QType)) (keys : list nat)
               (loaded : list Result),
          action_obj self = Some action ->
          collate_inputs (signature action) args kwargs = Return collated ->
          coerce_user_input (signature action) collated = Return callable_args ->
          dict_get invocation_eqb (make_invocation action callable_args) (np_index pool)
          = Some cached_outputs ->
          declared_outputs action = before ++ (name, ty) :: rest ->
          Forall (fun d => is_collection_type (snd d) = false) before ->
          map (cached_key cached_outputs) (map fst before) = map Some keys ->
          map (fun key => find_uuid key (np_data pool)) keys = map Some loaded ->
          let probed :=
            with_events w
              (EProbe (plugin_action (make_invocation action callable_args))
               :: map ENamedPoolLoad keys
               ++ [EWarn "UserWarning" incomplete_collection_msg]) in
          _check_cache self args kwargs w = (Return None, probed)
          /\ forall f : value,
               Context_callable_action_ self (f :: args) kwargs w
               = Context_dispatch_ self args kwargs probed)
    /\ (forall (results : Results) (w' : World),
          load_outputs ((name, ty) :: rest) cached_outputs loaded_outputs w
          = (Return (Some results), w') ->
          complete (map fst cached_collection) = true)
    /\ (complete (map fst cached_collection) = true ->
        forall (key_of : IndexedCollectionElement -> nat)
               (loaded : IndexedCollectionElement -> Result),
          NoDup (map item_name (map fst cached_collection)) ->
          (forall elem_info, In elem_info (map fst cached_collection) ->
             dict_get elem_eqb elem_info cached_collection = Some (key_of elem_info)
             /\ find_uuid (key_of elem_info) (np_data pool) = Some (loaded elem_info)) ->
          let served :=
            map (fun elem_info => (KStr (item_name elem_info), VResult (loaded elem_info)))
                (sort_by_idx (map fst cached_collection)) in
          load_outputs ((name, ty) :: rest) cached_outputs loaded_outputs w
          = load_outputs rest cached_outputs
              (dict_set String.eqb name (VCollection served) loaded_outputs)
              (with_events w
                 (map (fun elem_info => ENamedPoolLoad (key_of elem_info))
                      (sort_by_idx (map fst cached_collection))))
          /\ Forall (fun elem_info => total elem_info = Z.of_nat (List.length served))
                    (map fst cached_collection)).
Proof.
  intros name ty rest cached_outputs cached_collection loaded_outputs pool w
         Hty Hpool Hcached Hnonempty.
  destruct (map fst cached_collection) as [| first others] eqn:Horder.
  { destruct cached_collection; [congruence | discriminate Horder]. }
  assert (Hmiss : forall (loaded_outputs : Results) (w : World),
            complete (first :: others) = false ->
            load_outputs ((name, ty) :: rest) cached_outputs loaded_outputs w
            = (Return None, with_events w [EWarn "UserWarning" incomplete_collection_msg])).
  { intros lo w0 Hincomplete.
    exact (incomplete_collection_is_a_miss name ty rest cached_outputs
             cached_collection first others lo w0 Hty Hcached Horder Hincomplete). }
  split; [| split; [| split]].
  - apply Hmiss.
  - intros Hincomplete self action args kwargs collated callable_args before keys
           loaded Hobj Hcollate Hcoerce Hentry Hdeclared Hplain Hkeys Hloaded probed.
    assert (Hcheck : _check_cache self args kwargs w = (Return None, probed)).
    { rewrite (check_cache_probes _ _ _ _ _ _ _ _ Hobj Hpool Hcollate Hcoerce).
      unfold dict_mem. rewrite Hentry. unfold except_KeyError.
      set (w1 := with_events w
                   [EProbe (plugin_action (make_invocation action callable_args))]).
      assert (Hpool1 : named_pool (cache w1) = Some pool) by exact Hpool.
      rewrite (load_cache_of_entry _ _ _ _ _ w1 Hobj Hpool1 Hentry).
      rewrite Hdeclared.
      rewrite (load_outputs_plain_prefix pool cached_outputs _ _ keys loaded [] w1
                 Hpool1 Hplain Hkeys Hloaded).
      rewrite (Hmiss _ _ Hincomplete). subst w1 probed.
      rewrite !with_events_app. reflexivity. }
    split; [exact Hcheck |].
    intros f. unfold Context_callable_action_. cbn [tl].
    unfold bind at 1, get_world. rewrite Hpool.
    rewrite (bind_Return _ _ _ _ _ Hcheck). reflexivity.
  - intros results w' Hserved.
    destruct (accepted_collection_is_complete name ty rest cached_outputs
                loaded_outputs results w w' Hty Hserved)
      as (elems & first' & others' & Hget & Horder' & Hcomplete).
    rewrite Hcached in Hget. inversion Hget; subst elems.
    rewrite Horder in Horder'. inversion Horder'; subst first' others'.
    exact Hcomplete.
  - intros Hcomplete key_of loaded Hnodup Hstored served.
    pose proof (sort_by_idx_permutation (first :: others)) as Hperm.
    split.
    + cbn [load_outputs]. rewrite Hty.
      unfold dict_getitem. rewrite Hcached.
      rewrite (bind_lift _ _ _ _ eq_refl). unfold bind at 1. cbn [ret].
      rewrite Horder.
      rewrite (bind_Return _ _ _ _ _ (validate_collection_complete _ w Hcomplete)).
      cbn [negb].
      rewrite (bind_Return _ _ _ _ _
                 (load_elements_in_order pool cached_collection key_of loaded
                    (sort_by_idx (first :: others)) [] w Hpool
                    (fun e He => Hstored e (Permutation_in e (Permutation_sym Hperm) He))
                    (Permutation_NoDup (Permutation_map item_name Hperm) Hnodup)
                    (fun kv Hin => match Hin with end))).
      reflexivity.
    + subst served. rewrite length_map.
      rewrite <- (Permutation_length Hperm).
      apply complete_total. exact Hcomplete.
Qed.

(** *** Validation comes before the computation *)

(** X11: A bound call builds its context first and then, for a deprecated
    action, warns.  When building the context fails the call fails with
    that error and has not warned; when the type management of the inputs
    fails (collating them, checking their types, solving the output types,
    coercing them or recording them in the provenance) the call fails with
    that error in the world the context factory and the warning left: the
    computation of the action has not been run. *)
Theorem invalid_inputs_stop_a_bound_call :
  forall (self : Action) (context_factory : M Context)
         (execution_ctx : ExecutionCtx) (f : value) (args : list value)
         (kwargs : keywords) (w w1 : World) (e : exn),
    (context_factory w = (Raise e, w1) ->
     bound_callable self context_factory execution_ctx (f :: args) kwargs w
     = (Raise e, w1))
    /\ (forall ctx : Context,
          context_factory w = (Return ctx, w1) ->
          type_management self (_ProvCaptureCls self execution_ctx) args kwargs
          = Raise e ->
          bound_callable self context_factory execution_ctx (f :: args) kwargs w
          = (Raise e,
             if deprecated self
             then with_events w1 [EWarn "FutureWarning" (_build_deprecation_message self)]
             else w1)).
Proof.
  intros self context_factory execution_ctx f args kwargs w w1 e.
  unfold bound_callable. cbn [tl]. split.
  - intros Hfactory. now rewrite (bind_Raise _ _ _ _ _ Hfactory).
  - intros ctx Hfactory Hinvalid.
    rewrite (bind_Return _ _ _ _ _ Hfactory).
    set (w2 := if deprecated self
               then with_events w1
                      [EWarn "FutureWarning" (_build_deprecation_message self)]
               else w1).
    rewrite (bind_Return _ _ w1 w2 tt) by (subst w2; destruct (deprecated self); reflexivity).
    unfold type_management in Hinvalid.
    destruct (collate_inputs (signature self) args kwargs) as [collated | e1];
      [| now inversion Hinvalid].
    rewrite (bind_lift _ _ _ _ eq_refl). cbn [obind] in Hinvalid.
    destruct (check_types (signature self) collated) as [[] | e1];
      [| now inversion Hinvalid].
    rewrite (bind_lift _ _ _ _ eq_refl). cbn [obind] in Hinvalid.
    destruct (solve_output (signature self) collated) as [output_types | e1];
      [| now inversion Hinvalid].
    rewrite (bind_lift _ _ _ _ eq_refl). cbn [obind] in Hinvalid.
    destruct (coerce_user_input (signature self) collated) as [callable_args | e1];
      [| now inversion Hinvalid].
    rewrite (bind_lift _ _ _ _ eq_refl). cbn [obind] in Hinvalid.
    destruct (transform_and_add_callable_args_to_prov (signature self)
                (_ProvCaptureCls self execution_ctx) callable_args) as [prov_args | e1];
      [discriminate Hinvalid | now inversion Hinvalid].
Qed.

(** *** What is registered and what is returned *)

(** X12: [make_artifact] registers the handle of the imported artifact in the
    pools and returns the artifact as it was imported, not the handle that
    [add_reference] returned; when the import fails nothing is registered
    and the lock is not taken. *)
Theorem make_artifact_returns_the_import :
  forall (self : Context) (type : QType) (view : value) (view_type : option string)
         (w : World),
    make_artifact self type view view_type w
    = match import_data type view view_type with
      | Return artifact =>
          (Return artifact,
           registered (mkResult (uuid artifact) (rtype artifact) true (label artifact)) w)
      | Raise e => (Raise e, w)
      end.
Proof.
  intros self type view view_type w. unfold make_artifact.
  destruct (import_data type view view_type) as [artifact | e]; [| reflexivity].
  rewrite (bind_lift _ _ _ _ eq_refl).
  rewrite (bind_Return _ _ _ _ _ (add_reference_registers self artifact w)).
  reflexivity.
Qed.

(** X13: Once the function of a Visualizer has returned: anything but [None]
    is a [TypeError], with nothing registered; on [None] the executor
    builds the visualization from the temporary directory under the
    provenance with output name [visualization], registers it, and returns
    the handle of the pool as its one output, however many output types it
    was given. *)
Theorem visualizer_returns_one_registered_visualization :
  forall (self : Action) (ctx : Context) (view_args : keywords)
         (output_types : list (string * QType)) (provenance : Provenance)
         (w w1 : World) (ret_val : value),
    _callable self (VisualizerFrame "qiime2-temp-") view_args w = (Return ret_val, w1) ->
    Visualizer_callable_executor_ self ctx view_args output_types provenance w
    = match ret_val with
      | VNone =>
          let viz := _from_data_dir "qiime2-temp-"
                       (with_output_name provenance "visualization") in
          let handle := mkResult (uuid viz) (rtype viz) true (label viz) in
          (Return [VResult handle], registered handle w1)
      | _ =>
          (Raise (TypeError
             "Visualizer %r should not return anything. Received %r as a return value."),
           w1)
      end.
Proof.
  intros self ctx view_args output_types provenance w w1 ret_val Hcall.
  unfold Visualizer_callable_executor_.
  rewrite (bind_Return _ _ _ _ _ Hcall).
  destruct ret_val; try reflexivity.
  rewrite (bind_Return _ _ _ _ _ (add_reference_registers ctx _ w1)).
  reflexivity.
Qed.

(** *** What a Pipeline hands back *)

Lemma dict_set_Forall {K V} (eqb : K -> K -> bool) (P : V -> Prop)
    (k : K) (v : V) (d : list (K * V)) :
  Forall (fun kv => P (snd kv)) d -> P v ->
  Forall (fun kv => P (snd kv)) (dict_set eqb k v d).
Proof.
  intros Hd Hv. induction Hd as [| [k' v'] d Hkv Hd IH]; simpl.
  - repeat constructor. exact Hv.
  - destruct (eqb k k'); constructor; try assumption.
Qed.

Lemma relabelled_weaken (provenance : Provenance) (named named' : OutputName -> Prop)
    (x : value) :
  (forall name, named name -> named' name) ->
  relabelled provenance named x -> relabelled provenance named' x.
Proof.
  intros Hweaken. destruct x; simpl; try tauto.
  - intros (name & Hname & Hlabel). exists name. auto.
  - intros (name & q & Hname & Hp). exists name, q. auto.
Qed.

Lemma alias_relabels (ctx : Context) (x a : value) (name : OutputName)
    (provenance : Provenance) (w w' : World) :
  _alias x name provenance ctx w = (Return a, w') ->
  relabelled provenance (fun n => n = name) a.
Proof.
  destruct x; cbn [_alias]; intros H; try discriminate H.
  - rewrite (bind_Return _ _ _ _ _ (add_reference_registers ctx _ w)) in H.
    inversion H; subst; simpl.
    exists name. split; reflexivity.
  - inversion H; subst; simpl.
    exists name. eexists. split; reflexivity.
Qed.

Lemma alias_elements_relabel (ctx : Context) (name : string) (size : nat)
    (provenance : Provenance) :
  forall (items : list (nat * (PyKey * value))) (aliased_output r : list (PyKey * value))
         (w w' : World),
    Forall (fun kv =>
              relabelled provenance (fun n => exists cn, n = Synthesized cn) (snd kv))
           aliased_output ->
    alias_elements ctx name size provenance items aliased_output w = (Return r, w') ->
    Forall (fun kv =>
              relabelled provenance (fun n => exists cn, n = Synthesized cn) (snd kv))
           r.
Proof.
  induction items as [| [idx [key x]] rest IH]; intros aliased_output r w w' Hacc H.
  - inversion H; subst. exact Hacc.
  - cbn [alias_elements] in H.
    apply bind_inv in H. destruct H as (a & w1 & Ha & H).
    eapply IH; [| exact H].
    apply (dict_set_Forall PyKey_eqb
             (relabelled provenance (fun n => exists cn, n = Synthesized cn)));
      [exact Hacc |].
    apply alias_relabels in Ha.
    eapply relabelled_weaken; [| exact Ha].
    intros n Hn. eexists. exact Hn.
Qed.

Lemma alias_output_relabels (ctx : Context) (provenance : Provenance)
    (output a : value) (name : string) (spec : QType) (w w' : World) :
  alias_output ctx provenance output name spec w = (Return a, w') ->
  pipeline_alias provenance name a.
Proof.
  unfold alias_output. intros H.
  apply bind_inv in H. destruct H as (is_collection & w1 & _ & H).
  destruct is_collection.
  - apply bind_inv in H. destruct H as (c & w2 & _ & H).
    apply bind_inv in H. destruct H as (aliased_output & w3 & Helems & H).
    inversion H; subst. simpl.
    eapply alias_elements_relabel; [| exact Helems]. constructor.
  - apply bind_inv in H. destruct H as (output_type & w2 & _ & H).
    destruct (qtype_le output_type spec); [| discriminate H].
    apply alias_relabels in H.
    destruct a; simpl in *; try exact H; contradiction.
Qed.

Lemma alias_outputs_relabel (ctx : Context) (provenance : Provenance) :
  forall (zipped : list (value * (string * QType))) (results : list value)
         (w w' : World),
    alias_outputs ctx provenance zipped w = (Return results, w') ->
    Forall2 (fun a z => pipeline_alias provenance (fst (snd z)) a) results zipped.
Proof.
  induction zipped as [| [output [name spec]] rest IH]; intros results w w' H.
  - inversion H; subst. constructor.
  - cbn [alias_outputs] in H.
    apply bind_inv in H. destruct H as (a & w1 & Ha & H).
    apply bind_inv in H. destruct H as (rs & w2 & Hrs & H).
    inversion H; subst. constructor.
    + simpl. eapply alias_output_relabels. exact Ha.
    + eapply IH. exact Hrs.
Qed.

Lemma Forall2_combine_snd {A B C} (Q : A -> C -> Prop) :
  forall (xs : list B) (ys : list C) (rs : list A),
    List.length xs = List.length ys ->
    Forall2 (fun r z => Q r (snd z)) rs (combine xs ys) ->
    Forall2 Q rs ys.
Proof.
  induction xs as [| x xs IH]; intros [| y ys] rs Hlen H; simpl in *;
    try discriminate Hlen.
  - inversion H; subst. constructor.
  - inversion H; subst. constructor; [assumption |].
    apply IH; [now inversion Hlen | assumption].
Qed.

(** X14: Whatever the executor of a Pipeline returns, it returns one value per
    output type, and each of them carries the provenance of this call: a
    result or a deferred handle is an alias under the name of its output,
    a collection holds only aliases under synthesized names.  Nothing the
    function of the pipeline returned comes back under the provenance it
    had. *)
Theorem pipeline_outputs_carry_the_pipeline_provenance :
  forall (self : Action) (ctx : Context) (view_args : keywords)
         (output_types : list (string * QType)) (provenance : Provenance)
         (results : list value) (w w' : World),
    Pipeline_callable_executor_ self ctx view_args output_types provenance w
    = (Return results, w') ->
    List.length results = List.length (declared_outputs self)
    /\ Forall2 (fun a d => pipeline_alias provenance (fst d) a) results output_types.
Proof.
  intros self ctx view_args output_types provenance results w w' H.
  unfold Pipeline_callable_executor_ in H.
  apply bind_inv in H. destruct H as (returned & w1 & _ & H).
  apply bind_inv in H. destruct H as (outputs & w2 & _ & H).
  destruct (List.length outputs =? List.length output_types)%nat eqn:Hlen;
    cbn [negb] in H; [| discriminate H].
  apply Nat.eqb_eq in Hlen.
  apply bind_inv in H. destruct H as ([] & w3 & _ & H).
  apply bind_inv in H. destruct H as (aliased_results & w4 & Haliased & H).
  destruct (List.length aliased_results =? List.length (declared_outputs self))%nat
    eqn:Hcount; cbn [negb] in H; [| discriminate H].
  inversion H; subst. split.
  - now apply Nat.eqb_eq.
  - apply alias_outputs_relabel in Haliased.
    eapply (Forall2_combine_snd
              (fun a (d : string * QType) => pipeline_alias provenance (fst d) a));
      [exact Hlen | exact Haliased].
Qed.

(** *** What a Pipeline may not hand back *)

Lemma check_results_rejects (outputs : list value) (w : World) :
  existsb breaks_contract outputs = true ->
  check_results outputs w = (Raise (TypeError not_result_msg), w).
Proof.
  induction outputs as [| output rest IH]; intros Hbreaks.
  - discriminate Hbreaks.
  - simpl in Hbreaks. apply orb_true_iff in Hbreaks.
    cbn [check_results].
    destruct output; simpl in *;
      try reflexivity;
      try (destruct Hbreaks as [Hhere | Hrest];
           [discriminate Hhere | exact (IH Hrest)]).
    destruct (forallb _ _); simpl in *; [| reflexivity].
    destruct Hbreaks as [Hhere | Hrest]; [discriminate Hhere | exact (IH Hrest)].
Qed.

Lemma coerce_nested_outputs_untouched (ctx parent : Context) (outputs : list value)
    (w : World) :
  _parent ctx = Some parent ->
  _coerce_pipeline_outputs ctx outputs w = (Return (map as_collection outputs), w).
Proof.
  intros Hparent. unfold _coerce_pipeline_outputs.
  apply mapM_pure. intros x _.
  eapply coerce_nested_output_untouched. exact Hparent.
Qed.

(** X15: Inside another pipeline, once the function of a Pipeline has returned:
    a number of values other than the number of output types is a
    [TypeError] that gives both numbers, and, the numbers being equal, a
    value that is neither a result or a deferred handle nor a collection of
    these only ([None] included) is the [TypeError] of the result contract.
    In both cases nothing has been aliased and the world is as the
    function left it. *)
Theorem nested_pipeline_must_return_results :
  forall (self : Action) (ctx parent : Context) (view_args : keywords)
         (output_types : list (string * QType)) (provenance : Provenance)
         (w w1 : World) (returned : value),
    _parent ctx = Some parent ->
    _callable self (PipelineFrame ctx) view_args w = (Return returned, w1) ->
    let outputs := map as_collection (tuplize returned) in
    (List.length outputs <> List.length output_types ->
     Pipeline_callable_executor_ self ctx view_args output_types provenance w
     = (Raise (TypeError (outputs_msg (List.length outputs) (List.length output_types))),
        w1))
    /\ (List.length outputs = List.length output_types ->
        existsb breaks_contract outputs = true ->
        Pipeline_callable_executor_ self ctx view_args output_types provenance w
        = (Raise (TypeError not_result_msg), w1)).
Proof.
  intros self ctx parent view_args output_types provenance w w1 returned
         Hparent Hcall outputs.
  unfold Pipeline_callable_executor_.
  rewrite (bind_Return _ _ _ _ _ Hcall).
  rewrite (bind_Return _ _ _ _ _
             (coerce_nested_outputs_untouched ctx parent _ w1 Hparent)).
  fold outputs. split.
  - intros Hcount. apply Nat.eqb_neq in Hcount. rewrite Hcount. reflexivity.
  - intros Hcount Hbreaks. apply Nat.eqb_eq in Hcount. rewrite Hcount.
    cbn [negb].
    rewrite (bind_Raise _ _ _ _ _ (check_results_rejects outputs w1 Hbreaks)).
    reflexivity.
Qed.

(** *** Probes that find nothing, and probes that fail *)

(** X16: With a persistent pool whose index has no entry for the invocation,
    [_check_cache] consults the index and returns [None], and both
    [_callable_action_]s dispatch the action in the world the probe left
    (the parallel one when no argument is a deferred handle, since it
    probes only then). *)
Theorem unseen_invocation_is_dispatched :
  forall (self : Context) (action : Action) (args : list value)
         (kwargs collated callable_args : keywords) (pool : NamedPool) (w : World),
    action_obj self = Some action ->
    named_pool (cache w) = Some pool ->
    collate_inputs (signature action) args kwargs = Return collated ->
    coerce_user_input (signature action) collated = Return callable_args ->
    dict_get invocation_eqb (make_invocation action callable_args) (np_index pool)
    = None ->
    let probed :=
      with_events w [EProbe (plugin_action (make_invocation action callable_args))] in
    _check_cache self args kwargs w = (Return None, probed)
    /\ (forall f : value,
          Context_callable_action_ self (f :: args) kwargs w
          = Context_dispatch_ self args kwargs probed)
    /\ (forall f : value,
          _contains_proxies args kwargs = false ->
          ParallelContext_callable_action_ self (f :: args) kwargs w
          = ParallelContext_dispatch_ self args kwargs probed).
Proof.
  intros self action args kwargs collated callable_args pool w
         Hobj Hpool Hcollate Hcoerce Hunseen probed.
  assert (Hcheck : _check_cache self args kwargs w = (Return None, probed)).
  { rewrite (check_cache_probes _ _ _ _ _ _ _ _ Hobj Hpool Hcollate Hcoerce).
    unfold dict_mem. rewrite Hunseen. reflexivity. }
  split; [exact Hcheck |]. split.
  - intros f. unfold Context_callable_action_. cbn [tl].
    unfold bind at 1, get_world. rewrite Hpool.
    rewrite (bind_Return _ _ _ _ _ Hcheck). reflexivity.
  - intros f Hplain. unfold ParallelContext_callable_action_. cbn [tl].
    unfold bind at 1, get_world. rewrite Hpool, Hplain. cbn [negb].
    rewrite (bind_Return _ _ _ _ _ Hcheck). reflexivity.
Qed.

(** X17: With a persistent pool, inputs that do not collate or cannot be
    coerced make [_callable_action_] fail in the probe, before the index
    is consulted: the action is not dispatched, so no context is bound and
    a deprecated action does not warn. *)
Theorem invalid_inputs_fail_in_the_probe :
  forall (self : Context) (action : Action) (f : value) (args : list value)
         (kwargs : keywords) (pool : NamedPool) (w : World) (e : exn),
    action_obj self = Some action ->
    named_pool (cache w) = Some pool ->
    obind (collate_inputs (signature action) args kwargs)
          (coerce_user_input (signature action))
    = Raise e ->
    _check_cache self args kwargs w = (Raise e, w)
    /\ Context_callable_action_ self (f :: args) kwargs w = (Raise e, w).
Proof.
  intros self action f args kwargs pool w e Hobj Hpool Hinvalid.
  assert (Hcheck : _check_cache self args kwargs w = (Raise e, w)).
  { unfold _check_cache.
    rewrite (bind_Raise _ _ w w e); [reflexivity |].
    unfold _check_cache_invocation, the_action_obj. rewrite Hobj.
    unfold bind at 1. cbn [ret].
    destruct (collate_inputs (signature action) args kwargs) as [collated | e1];
      cbn [obind] in Hinvalid.
    - rewrite (bind_lift _ _ _ _ eq_refl). rewrite Hinvalid. reflexivity.
    - inversion Hinvalid; subst. reflexivity. }
  split; [exact Hcheck |].
  unfold Context_callable_action_. cbn [tl].
  unfold bind at 1, get_world. rewrite Hpool.
  now rewrite (bind_Raise _ _ _ _ _ Hcheck).
Qed.

End Properties.

(* ================================================================== *)
(** * The engine on the small plugin *)
(* ================================================================== *)

#[local] Existing Instance demo_types.
#[local] Existing Instance demo_naming.
#[local] Existing Instance demo_plugins.

(** ** Fingerprints *)


(** ** Collections returned by pipelines *)

Lemma collection_output_is_aliased_elementwise_witness :
  alias_output (root_context BaseContext split3) (pipeline_provenance split3)
    (VCollection three_parts) "parts" (CollectionOf Seqs) bare_world
  = (Return (VCollection (aliased_collection "parts" (pipeline_provenance split3)
                            three_parts)),
     registered_aliases
       (map snd (aliased_collection "parts" (pipeline_provenance split3) three_parts))
       bare_world)
  /\ List.length (aliased_collection "parts" (pipeline_provenance split3) three_parts)
     = 3
  /\ map uuid
       (process_pool
          (cache
             (registered_aliases
                (map snd (aliased_collection "parts" (pipeline_provenance split3)
                            three_parts))
                bare_world)))
     = [1; 2; 3].
Proof.
  assert (Hnodup : NoDup (map (fun kv : PyKey * value => str (fst kv)) three_parts)).
  { repeat constructor; simpl; intuition discriminate. }
  destruct (@collection_output_is_aliased_elementwise
              demo_types demo_naming demo_plugins
              (root_context BaseContext split3)
              (pipeline_provenance split3) "parts" (CollectionOf Seqs)
              three_parts bare_world eq_refl eq_refl eq_refl Hnodup)
    as (Hrun & Hlen & _).
  split; [exact Hrun | split; [exact Hlen | reflexivity]].
Defined.

(** A pipeline that returns the two results under the keys [1] and ['1']
    gets a collection of one alias back: the second alias replaces the
    first under the key ['1']. *)
Lemma colliding_keys_lose_an_element :
  fst (demo_callable mixed_keys
         (PipelineFrame (root_context BaseContext mixed_keys)) [] bare_world)
  = Return (VDict [(KInt 1, VResult (demo_result 1));
                   (KStr "1", VResult (demo_result 2))])
  /\ exists aliased_result : Result,
       fst (Pipeline_callable_executor_ mixed_keys
              (root_context BaseContext mixed_keys) []
              [("parts", CollectionOf Seqs)]
              (pipeline_provenance mixed_keys) bare_world)
       = Return [VCollection [(KStr "1", VResult aliased_result)]]
       /\ uuid aliased_result = 2
       /\ List.length [(KStr "1", VResult aliased_result)] <> 2.
Proof.
  split; [reflexivity |].
  eexists. split; [vm_compute; reflexivity |].
  split; [reflexivity | discriminate].
Qed.

(** ** Outputs of a root pipeline, continued *)

Lemma root_pipeline_outputs_are_resolved_witness :
  _coerce_pipeline_outputs (root_context ParallelContext deferred)
    deferred_outputs resolved_world
  = (Return forced_outputs,
     with_events resolved_world
       [EResolve (mkProxy (FutureObj 0) "a"); EResolve (mkProxy (FutureObj 0) "a")])
  /\ Forall (fun x => fully_resolved x = true) forced_outputs
  /\ _coerce_pipeline_outputs
       (mkContext ParallelContext (Some deferred)
          (Some (root_context ParallelContext deferred)) [] None)
       deferred_outputs resolved_world
     = (Return [VProxy (mkProxy (FutureObj 0) "a");
                VCollection [(KStr "0", VProxy (mkProxy (FutureObj 0) "a"));
                             (KStr "1", VResult (demo_result 7))]],
        resolved_world).
Proof.
  split; [| split].
  - exact (proj1 (proj1 (@root_pipeline_outputs_are_resolved
                           demo_types demo_naming demo_plugins
                           (root_context ParallelContext deferred) deferred_outputs)
                    eq_refl resolved_world eq_refl)).
  - exact (proj2 (proj1 (@root_pipeline_outputs_are_resolved
                           demo_types demo_naming demo_plugins
                           (root_context ParallelContext deferred) deferred_outputs)
                    eq_refl resolved_world eq_refl)).
  - exact (proj2 (proj2 (proj2 (proj2 (@root_pipeline_outputs_are_resolved
                           demo_types demo_naming demo_plugins
                           (mkContext ParallelContext (Some deferred)
                              (Some (root_context ParallelContext deferred)) [] None)
                           deferred_outputs))))
             (root_context ParallelContext deferred) eq_refl resolved_world).
Defined.

(** ** Parallel dispatch without a configuration *)

Lemma leaf_dispatch_needs_parallel_config_witness :
  ParallelContext_dispatch_
    (mkContext ParallelContext (Some just_one)
       (Some (root_context ParallelContext deferred)) [] None)
    [VResult (demo_result 1)] [] bare_world
  = (Raise (ValueError no_config_msg), bare_world).
Proof.
  apply (@leaf_dispatch_needs_parallel_config demo_types demo_naming demo_plugins
           _ just_one).
  - reflexivity.
  - discriminate.
  - reflexivity.
Defined.

(** ** Output cardinality, continued *)

Lemma bound_call_checks_output_count_witness :
  bound_callable lopsided (ret (root_context BaseContext lopsided)) synchronous_ctx
    [VCallable "just_one"] [] bare_world
  = (Raise (ValueError
      "Number of callable outputs must match number of outputs defined in signature: 1 != 2"),
     bare_world).
Proof.
  exact (proj1 (@bound_call_checks_output_count demo_types demo_naming demo_plugins)
           lopsided (ret (root_context BaseContext lopsided)) synchronous_ctx
           [VCallable "just_one"] [] bare_world bare_world bare_world
           (root_context BaseContext lopsided) [] [] [("a", Seqs)]
           (_ProvCaptureCls lopsided synchronous_ctx, [])
           [VResult (demo_result 1)]
           eq_refl eq_refl eq_refl eq_refl eq_refl eq_refl eq_refl).
Defined.

(** The Method of the plugin that declares two outputs and computes one
    value fails in every call. *)
Lemma two_declared_one_returned_fails :
  _callable_action_wrapper one_of_two [] [] bare_world
  = (Raise (TypeError
      "Number of output views must match number of output semantic types: 1 != 2"),
     mkWorld (mkCache [] None) demo_config [] [ELockAcquire; ELockRelease]).
Proof. reflexivity. Qed.

(** ** Construction of a context, continued *)

(** A parentless context without an action is built; no exception is
    raised. *)
Lemma parentless_context_without_action_is_built :
  Context__init__ BaseContext None None bare_world
  = (Return (mkContext BaseContext None None [] None),
     mkWorld (mkCache [] None) demo_config [] [ELockAcquire; ELockRelease])
  /\ ~ (exists e : exn,
          fst (Context__init__ BaseContext None None bare_world) = Raise e).
Proof.
  split; [reflexivity |]. intros [e H]. discriminate H.
Qed.

(** ** A cached collection of which an element is missing *)

Lemma cached_collection_is_served_only_when_complete_witness :
  _check_cache (root_context BaseContext regroup)
    [VResult (demo_result 1)] [] partial_world
  = (Return None,
     with_events partial_world
       [EProbe "demo-plugin:regroup"; EWarn "UserWarning" incomplete_collection_msg])
  /\ Context_callable_action_ (root_context BaseContext regroup)
       [VCallable "regroup"; VResult (demo_result 1)] [] partial_world
     = Context_dispatch_ (root_context BaseContext regroup)
         [VResult (demo_result 1)] []
         (with_events partial_world
            [EProbe "demo-plugin:regroup";
             EWarn "UserWarning" incomplete_collection_msg]).
Proof.
  assert (Hnonempty : [(mkElem "a" 0 2, 11)] <> []) by discriminate.
  destruct (proj1 (proj2 (@cached_collection_is_served_only_when_complete
                            demo_types demo_naming demo_plugins
                            "parts" (CollectionOf Seqs) []
                            [("parts", CachedCollection [(mkElem "a" 0 2, 11)])]
                            [(mkElem "a" 0 2, 11)] [] partial_pool partial_world
                            eq_refl eq_refl eq_refl Hnonempty))
              eq_refl
              (root_context BaseContext regroup) regroup
              [VResult (demo_result 1)] []
              [("x0", VResult (demo_result 1))] [("x0", VResult (demo_result 1))]
              [] [] []
              eq_refl eq_refl eq_refl eq_refl eq_refl (Forall_nil _) eq_refl eq_refl)
    as [Hcheck Hcall].
  split; [exact Hcheck | exact (Hcall (VCallable "regroup"))].
Defined.

(** ** A cached collection without recorded elements *)

(** The edge the completeness check leaves open, an entry that records no
    element at all: the probe finds the entry, [_validate_collection]
    raises [IndexError], which [_check_cache] does not catch; the call ends
    with that exception, without a warning and without dispatching the
    action. *)
Theorem empty_cached_collection_raises :
  _check_cache (root_context BaseContext regroup)
    [VResult (demo_result 1)] [] stale_world
  = (Raise (IndexError "list index out of range"),
     mkWorld (cache stale_world) demo_config [] [EProbe "demo-plugin:regroup"])
  /\ Context_callable_action_ (root_context BaseContext regroup)
       [VCallable "regroup"; VResult (demo_result 1)] [] stale_world
     = (Raise (IndexError "list index out of range"),
        mkWorld (cache stale_world) demo_config [] [EProbe "demo-plugin:regroup"]).
Proof. split; reflexivity. Qed.

(** ** A deferred handle inside a list argument *)

(** With a deferred handle as the argument itself the action is submitted
    without a probe of the index. *)
Lemma probe_skipped_for_handles_among_arguments_witness :
  ParallelContext_callable_action_ nested_context
    [VCallable "just_one"; VProxy (mkProxy (FutureObj 0) "a")] [] parallel_world
  = ParallelContext_dispatch_ nested_context
      [VProxy (mkProxy (FutureObj 0) "a")] [] parallel_world
  /\ log (snd (ParallelContext_callable_action_ nested_context
                 [VCallable "just_one"; VProxy (mkProxy (FutureObj 0) "a")]
                 [] parallel_world))
     = [ESubmit "default" "just_one" (mkExecutionCtx "parsl" (Some "ThreadPoolExecutor"))
          [VProxy (mkProxy (FutureIdx 0) "a")] [] [FutureObj 0]].
Proof.
  split; [| reflexivity].
  apply (proj1 (@probe_skipped_for_handles_among_arguments
                  demo_types demo_naming demo_plugins nested_context
                  [VCallable "just_one"; VProxy (mkProxy (FutureObj 0) "a")]
                  [] parallel_world)).
  right. reflexivity.
Defined.

(** With a deferred handle inside a list argument [_contains_proxies]
    answers [False], and the index is probed before the action is
    submitted. *)
Lemma nested_handle_is_probed :
  _contains_proxies [VList [VProxy (mkProxy (FutureObj 0) "a")]] [] = false
  /\ log (snd (ParallelContext_callable_action_ nested_context
                 [VCallable "just_one"; VList [VProxy (mkProxy (FutureObj 0) "a")]]
                 [] parallel_world))
     = [EProbe "demo-plugin:just_one";
        ESubmit "default" "just_one" (mkExecutionCtx "parsl" (Some "ThreadPoolExecutor"))
          [VList [VProxy (mkProxy (FutureIdx 0) "a")]] [] [FutureObj 0]].
Proof. split; reflexivity. Qed.

(** ** Mapped arguments of a submitted app *)

Lemma run_parsl_action_gets_resolved_arguments_witness :
  snd (map_kwargs [("k", VList [VProxy (mkProxy (FutureObj 2) "b")])]
         (snd (map_args [VProxy (mkProxy (FutureObj 1) "a")] [])) [])
  = [FutureObj 1; FutureObj 2]
  /\ unmap_args [VProxy (mkProxy (FutureIdx 0) "a")]
       (map demo_resolve [FutureObj 1; FutureObj 2])
     = Return [VResult (demo_result 5)]
  /\ unmap_kwargs [("k", VList [VProxy (mkProxy (FutureIdx 1) "b")])]
       (map demo_resolve [FutureObj 1; FutureObj 2]) []
     = Return [("k", VList [VResult (demo_result 6)])].
Proof.
  assert (Hnodup : NoDup (map fst [("k", VList [VProxy (mkProxy (FutureObj 2) "b")])])).
  { repeat constructor; simpl; intuition discriminate. }
  destruct (@run_parsl_action_gets_resolved_arguments
              demo_types demo_naming demo_plugins demo_resolve
              nested_context nested_context
              (mkExecutionCtx "parsl" (Some "ThreadPoolExecutor"))
              [VProxy (mkProxy (FutureObj 1) "a")]
              [("k", VList [VProxy (mkProxy (FutureObj 2) "b")])] Hnodup)
    as (Hfutures & Hargs & Hkwargs & _).
  split; [exact Hfutures | split; [exact Hargs | exact Hkwargs]].
Defined.

(** ** Dispatch of a leaf action *)

Lemma leaf_dispatch_submits_once_witness :
  ParallelContext_dispatch_ nested_context
    [VProxy (mkProxy (FutureObj 0) "a")] [] parallel_world
  = (Return (DProxyResults (FutureObj 0) [("a", Seqs)]),
     with_events parallel_world
       [ESubmit "default" "just_one" (mkExecutionCtx "parsl" (Some "ThreadPoolExecutor"))
          [VProxy (mkProxy (FutureIdx 0) "a")] [] [FutureObj 0]]).
Proof.
  assert (Hleaf : type just_one <> Pipeline) by discriminate.
  exact (@leaf_dispatch_submits_once demo_types demo_naming demo_plugins
           nested_context just_one [VProxy (mkProxy (FutureObj 0) "a")] []
           parallel_world thread_pool thread_pool "ThreadPoolExecutor"
           eq_refl Hleaf eq_refl eq_refl eq_refl).
Defined.

Lemma leaf_dispatch_needs_executor_type_witness :
  ParallelContext_dispatch_
    (mkContext ParallelContext (Some just_one)
       (Some (root_context ParallelContext deferred)) [] None)
    [VResult (demo_result 1)] [] parallel_world
  = (Raise (TypeError "'NoneType' object is not subscriptable"), parallel_world).
Proof.
  assert (Hleaf : type just_one <> Pipeline) by discriminate.
  exact (proj1 (@leaf_dispatch_needs_executor_type demo_types demo_naming demo_plugins
                  (mkContext ParallelContext (Some just_one)
                     (Some (root_context ParallelContext deferred)) [] None)
                  just_one [VResult (demo_result 1)] [] parallel_world thread_pool
                  eq_refl Hleaf eq_refl)
           eq_refl).
Defined.

(** ** Looking up an action *)

Lemma get_action_builds_a_child_witness :
  get_action (root_context BaseContext split3) "demo_plugin" "just_one" bare_world
  = (Return (child_callable (root_context BaseContext split3) just_one), bare_world)
  /\ get_action (root_context BaseContext split3) "demo-plugin" "just_one" bare_world
     = get_action (root_context BaseContext split3) "demo_plugin" "just_one" bare_world.
Proof.
  assert (Hclass : context_class (root_context BaseContext split3)
                   <> AsynchronousContext) by discriminate.
  exact (@get_action_builds_a_child demo_types demo_naming demo_plugins
           (root_context BaseContext split3) "demo_plugin" "just_one" bare_world
           Hclass).
Defined.

(** ** Recycling *)

Lemma cached_plain_outputs_are_recycled_witness :
  Context_callable_action_ (root_context BaseContext just_one)
    [VCallable "just_one"; VResult (demo_result 1)] [] recycling_world
  = (Return [("a", VResult (demo_result 9))],
     with_events recycling_world [EProbe "demo-plugin:just_one"; ENamedPoolLoad 9]).
Proof.
  assert (Hnodup : NoDup (map fst (declared_outputs just_one))).
  { repeat constructor; simpl; intuition discriminate. }
  assert (Hplain : Forall (fun d : string * DemoType => is_collection_type (snd d) = false)
                     (declared_outputs just_one)).
  { repeat constructor. }
  assert (Hdeclared : declared_outputs just_one <> []) by discriminate.
  exact (proj2 (@cached_plain_outputs_are_recycled demo_types demo_naming demo_plugins
                  (root_context BaseContext just_one) just_one
                  [VResult (demo_result 1)] []
                  [("x0", VResult (demo_result 1))] [("x0", VResult (demo_result 1))]
                  recycling_pool recycling_world (snd just_one_entry)
                  [9] [demo_result 9]
                  eq_refl eq_refl eq_refl eq_refl eq_refl Hnodup Hplain eq_refl eq_refl)
           Hdeclared (VCallable "just_one")).
Defined.

Lemma stale_index_entry_is_a_miss_witness :
  _check_cache (root_context BaseContext just_one)
    [VResult (demo_result 1)] [] emptied_world
  = (Return None,
     with_events emptied_world [EProbe "demo-plugin:just_one"; ENamedPoolLoad 9]).
Proof.
  exact (proj1 (@stale_index_entry_is_a_miss demo_types demo_naming demo_plugins
                  (root_context BaseContext just_one) just_one
                  [VResult (demo_result 1)] []
                  [("x0", VResult (demo_result 1))] [("x0", VResult (demo_result 1))]
                  emptied_pool emptied_world (snd just_one_entry)
                  [] [] "a" Seqs [] [] 9
                  eq_refl eq_refl eq_refl eq_refl eq_refl eq_refl
                  (Forall_nil _) eq_refl eq_refl eq_refl eq_refl eq_refl)).
Defined.

Lemma cached_collection_is_reloaded_in_idx_order_witness :
  load_outputs [("parts", CollectionOf Seqs)]
    [("parts", CachedCollection shuffled_parts)] [] parts_world
  = (Return (Some [("parts",
                    VCollection [(KStr "a", VResult (demo_result 11));
                                 (KStr "b", VResult (demo_result 12))])]),
     with_events parts_world [ENamedPoolLoad 11; ENamedPoolLoad 12]).
Proof.
  assert (Hnodup : NoDup (map item_name (map fst shuffled_parts))).
  { repeat constructor; simpl; intuition discriminate. }
  assert (Hstored : forall elem_info,
             In elem_info (map fst shuffled_parts) ->
             dict_get elem_eqb elem_info shuffled_parts = Some (parts_key elem_info)
             /\ find_uuid (parts_key elem_info) (np_data parts_pool)
                = Some (demo_result (parts_key elem_info))).
  { intros elem_info [H | [H | []]]; subst elem_info; split; reflexivity. }
  exact (proj1 (@cached_collection_is_reloaded_in_idx_order demo_types demo_naming
                  "parts" (CollectionOf Seqs) []
                  [("parts", CachedCollection shuffled_parts)] shuffled_parts []
                  parts_pool parts_world parts_key
                  (fun elem_info => demo_result (parts_key elem_info))
                  eq_refl eq_refl eq_refl eq_refl Hnodup Hstored)).
Defined.

(** ** Bound calls *)

Lemma invalid_inputs_stop_a_bound_call_witness :
  bound_callable picky (ret (root_context BaseContext picky)) synchronous_ctx
    [VCallable "picky"; VResult (demo_result 1)] [] bare_world
  = (Raise (TypeError "picky"),
     with_events bare_world
       [EWarn "FutureWarning"
          "This Method is deprecated and will be removed in a future version of this plugin."]).
Proof.
  exact (proj2 (@invalid_inputs_stop_a_bound_call demo_types demo_naming demo_plugins
                  picky (ret (root_context BaseContext picky)) synchronous_ctx
                  (VCallable "picky") [VResult (demo_result 1)] []
                  bare_world bare_world (TypeError "picky"))
           (root_context BaseContext picky) eq_refl eq_refl).
Defined.

Lemma visualizer_returns_one_registered_visualization_witness :
  Visualizer_callable_executor_ plot (root_context BaseContext plot) []
    [("visualization", VisualizationType)] (pipeline_provenance plot) bare_world
  = (Return [VResult (mkResult 99 VisualizationType true None)],
     registered (mkResult 99 VisualizationType true None) bare_world).
Proof.
  exact (@visualizer_returns_one_registered_visualization
           demo_types demo_naming demo_plugins
           plot (root_context BaseContext plot) []
           [("visualization", VisualizationType)] (pipeline_provenance plot)
           bare_world bare_world VNone eq_refl).
Defined.

Lemma pipeline_outputs_carry_the_pipeline_provenance_witness :
  Forall2 (fun a d => pipeline_alias (pipeline_provenance split3) (fst d) a)
    [VCollection (aliased_collection "parts" (pipeline_provenance split3) three_parts)]
    [("parts", CollectionOf Seqs)].
Proof.
  exact (proj2 (@pipeline_outputs_carry_the_pipeline_provenance
                  demo_types demo_naming demo_plugins
                  split3 (root_context BaseContext split3) []
                  [("parts", CollectionOf Seqs)] (pipeline_provenance split3)
                  [VCollection (aliased_collection "parts" (pipeline_provenance split3)
                                  three_parts)]
                  bare_world
                  (registered_aliases
                     (map snd (aliased_collection "parts" (pipeline_provenance split3)
                                 three_parts))
                     bare_world)
                  eq_refl)).
Defined.

Lemma nested_pipeline_must_return_results_witness :
  Pipeline_callable_executor_ forgetful (inner_context forgetful) []
    [("a", Seqs)] (pipeline_provenance forgetful) bare_world
  = (Raise (TypeError not_result_msg), bare_world).
Proof.
  exact (proj2 (@nested_pipeline_must_return_results demo_types demo_naming demo_plugins
                  forgetful (inner_context forgetful)
                  (root_context BaseContext split3) []
                  [("a", Seqs)] (pipeline_provenance forgetful)
                  bare_world bare_world VNone eq_refl eq_refl)
           eq_refl eq_refl).
Defined.

(** ** Probes that find nothing, and probes that fail *)

Lemma unseen_invocation_is_dispatched_witness :
  _check_cache (root_context BaseContext just_one)
    [VResult (demo_result 1)] [] pooled_world
  = (Return None, with_events pooled_world [EProbe "demo-plugin:just_one"]).
Proof.
  exact (proj1 (@unseen_invocation_is_dispatched demo_types demo_naming demo_plugins
                  (root_context BaseContext just_one) just_one
                  [VResult (demo_result 1)] []
                  [("x0", VResult (demo_result 1))] [("x0", VResult (demo_result 1))]
                  (mkNamedPool [] []) pooled_world
                  eq_refl eq_refl eq_refl eq_refl eq_refl)).
Defined.

Lemma invalid_inputs_fail_in_the_probe_witness :
  Context_callable_action_ (root_context BaseContext positional_only)
    [VCallable "positional_only"] [("z", VNone)] pooled_world
  = (Raise (TypeError "got an unexpected keyword argument"), pooled_world).
Proof.
  exact (proj2 (@invalid_inputs_fail_in_the_probe demo_types demo_naming demo_plugins
                  (root_context BaseContext positional_only) positional_only
                  (VCallable "positional_only") [] [("z", VNone)]
                  (mkNamedPool [] []) pooled_world
                  (TypeError "got an unexpected keyword argument")
                  eq_refl eq_refl eq_refl)).
Defined.

(** ** An argument without deferred handles *)


